(** * read-for-me: the front-end pipeline, its stream protocol and parsers

    A shallow embedding of the TypeScript sources

      - [frontend/lib/api.ts]: [hashCode], [extractArticleId], the
        generators [summarizeStream] and [generateScriptStream] and their
        callback wrappers;
      - [frontend/app/page.tsx]: [parseLatestThinkBlock] and the pipeline of
        [handleSubmit];
      - the insight card: [parseStreamingBulletPoints];
      - the cards and the forms: [cleanThinkingText],
        [parseStreamingMainTopic], [parseStreamingTitle],
        [parseStreamingParagraphs] and the guards of the two
        [handleSubmit] of the forms;

    and a model of the speech synthesis engine of the design document,
    whose code is not among the sources.  The second half of the file
    states and proves the properties of the design document about them.

    JavaScript strings are sequences of UTF-16 code units; they are modelled
    as [list N].  The [String.prototype] methods and the regular expressions
    of the sources are written out as list functions with the ECMAScript
    semantics (leftmost match, greedy and lazy quantifiers).  What the
    platform provides ([JSON.parse], [new URL], [ToString] of a value that
    is not a string, the message of a TypeError) is a parameter of the
    definitions that use it; [Json.parse] is a parser for the JSON grammar
    used where a run is computed.

    Asynchronous code is modelled by the steps it makes between two
    suspensions: a state, and one transition for each thing that can resume
    it (a promise settles, the generator delivers an event). *)

From Stdlib Require Import List Bool Arith NArith ZArith Lia Permutation.
From Stdlib Require Import Ascii String DecimalString.
Import ListNotations.

Set Implicit Arguments.

(** ** JavaScript strings *)

Module JS.

Definition jsstring := list N.

(** An ASCII literal as a sequence of code units. *)
Definition js (s : string) : jsstring :=
  List.map N_of_ascii (list_ascii_of_string s).

Fixpoint str_eqb (a b : jsstring) : bool :=
  match a, b with
  | [], [] => true
  | x :: a', y :: b' => N.eqb x y && str_eqb a' b'
  | _, _ => false
  end.

(** [s.startsWith(p)] *)
Fixpoint startsWith (s p : jsstring) {struct p} : bool :=
  match p with
  | [] => true
  | y :: p' =>
      match s with
      | x :: s' => N.eqb x y && startsWith s' p'
      | [] => false
      end
  end.

(** [Boolean(s)] for a string: the empty string is the only falsy one. *)
Definition truthy (s : jsstring) : bool :=
  match s with [] => false | _ :: _ => true end.

(** [s.slice(n)] and [s.slice(0, n)] for a non-negative literal [n]. *)
Definition slice_from (n : nat) (s : jsstring) : jsstring := skipn n s.
Definition slice_to (n : nat) (s : jsstring) : jsstring := firstn n s.

Definition LF : N := 10.
Definition STAR : N := 42.

(** WhiteSpace and LineTerminator code points, the set stripped by
    [String.prototype.trim] and matched by the regex class [\s]. *)
Definition isWhiteSpace (c : N) : bool :=
  ((9 <=? c) && (c <=? 13) || (c =? 32) || (c =? 160) || (c =? 5760)
   || (8192 <=? c) && (c <=? 8202) || (c =? 8232) || (c =? 8233)
   || (c =? 8239) || (c =? 8287) || (c =? 12288) || (c =? 65279))%N.

(** LineTerminator code points: what the regex atom [.] does not match. *)
Definition isLineTerminator (c : N) : bool :=
  ((c =? 10) || (c =? 13) || (c =? 8232) || (c =? 8233))%N.

Fixpoint trimStart (s : jsstring) : jsstring :=
  match s with
  | c :: s' => if isWhiteSpace c then trimStart s' else s
  | [] => []
  end.

Definition trimEnd (s : jsstring) : jsstring := rev (trimStart (rev s)).

Definition trim (s : jsstring) : jsstring := trimEnd (trimStart s).

(** Puts a code unit in front of the first piece of a split. *)
Definition cons_head (c : N) (ps : list jsstring) : list jsstring :=
  match ps with
  | p :: ps' => (c :: p) :: ps'
  | [] => [[c]]
  end.

(** [s.split(sep)] for a separator of one code unit. *)
Fixpoint split_char (sep : N) (s : jsstring) : list jsstring :=
  match s with
  | [] => [[]]
  | c :: s' =>
      if N.eqb c sep then [] :: split_char sep s'
      else cons_head c (split_char sep s')
  end.

(** [s.split("\n\n")]: the separators are found from left to right and do
    not overlap. *)
Fixpoint split_blank (s : jsstring) : list jsstring :=
  match s with
  | [] => [[]]
  | c :: s' =>
      match s' with
      | d :: s'' =>
          if N.eqb c LF && N.eqb d LF then [] :: split_blank s''
          else cons_head c (split_blank s')
      | [] => [[c]]
      end
  end.

(** [ToInt32]: the wrap-around of the bitwise operators. *)
Definition ToInt32 (x : Z) : Z := ((x + 2 ^ 31) mod 2 ^ 32 - 2 ^ 31)%Z.

(** Decimal digits of a natural number, as [String(n)] prints an integer
    below 2^53. *)
Definition number_to_string (n : Z) : jsstring :=
  js (DecimalString.NilZero.string_of_uint (N.to_uint (Z.to_N n))).

End JS.

Import JS.

(** ** [frontend/lib/api.ts]: article identifiers *)

Module Api.

(** [hashCode]: [hash = (hash << 5) - hash + char; hash = hash & hash].
    The shift wraps to 32 bits, the subtraction and the addition are exact
    on doubles of this size, and [hash & hash] wraps the sum again. *)
Definition hashCode (str : jsstring) : Z :=
  fold_left
    (fun hash char => ToInt32 (ToInt32 (hash * 32) - hash + Z.of_N char)%Z)
    str 0%Z.

(** What [extractArticleId] reads of a parsed [URL]. *)
Record URL := mkURL {
  pathname : jsstring;
  searchParams_get : jsstring -> option jsstring
}.

Definition is_hex_lower (c : N) : bool :=
  ((48 <=? c) && (c <=? 57) || (97 <=? c) && (c <=? 102))%N.

(** [slug.replace(re, empty)] with [re = /-[a-f0-9]{10,}$/]: the leftmost
    hyphen that is followed by ten or more hexadecimal digits up to the end
    of the string is removed together with them. *)
Fixpoint strip_hash_suffix (slug : jsstring) : jsstring :=
  match slug with
  | [] => []
  | c :: rest =>
      if N.eqb c 45 && (10 <=? List.length rest) && forallb is_hex_lower rest
      then []
      else c :: strip_hash_suffix rest
  end.

Definition fallback_id (url : jsstring) : jsstring :=
  js "article_" ++ number_to_string (Z.abs (hashCode url) mod 100000000).

Section ExtractArticleId.

(** [new URL(url)] of the platform: [None] when the constructor throws. *)
Variable new_URL : jsstring -> option URL.

Definition extractArticleId (url platform : jsstring) : jsstring :=
  match new_URL url with
  | None => fallback_id url
  | Some parsed =>
      if str_eqb platform (js "geeknews") then
        match searchParams_get parsed (js "id") with
        | Some topicId =>
            if truthy topicId then js "topic_" ++ topicId
            else fallback_id url
        | None => fallback_id url
        end
      else if str_eqb platform (js "medium") then
        let pathParts :=
          filter truthy (split_char 47 (pathname parsed)) in
        if (0 <? List.length pathParts)%nat then
          let slug := last pathParts [] in
          let slugClean := strip_hash_suffix slug in
          if truthy slugClean then slice_to 50 slugClean
          else fallback_id url
        else fallback_id url
      else fallback_id url
  end.

End ExtractArticleId.

End Api.

(** ** JSON values and [JSON.parse] *)

Module Json.

(** A number keeps its exact decimal value [(-1)^neg * mant * 10^exp10]. *)
#[warnings="-register-all"]
Inductive json : Type :=
| JNull
| JBool (b : bool)
| JNum (neg : bool) (mant : N) (exp10 : Z)
| JStr (s : jsstring)
| JArr (xs : list json)
| JObj (fields : list (jsstring * json)).

(** A JavaScript value read from parsed JSON: [None] is [undefined]. *)
Definition jsvalue := option json.

(** The decimal rounds to the double [0] when it is zero or not above
    half of the least positive double, [2^-1075]. *)
Definition number_is_zero (mant : N) (exp10 : Z) : bool :=
  (mant =? 0)%N
  || ((exp10 <? 0)%Z && (Z.of_N mant * 2 ^ 1075 <=? 10 ^ (- exp10))%Z).

(** [ToBoolean] *)
Definition truthy_json (v : json) : bool :=
  match v with
  | JNull => false
  | JBool b => b
  | JNum _ m e => negb (number_is_zero m e)
  | JStr s => truthy s
  | JArr _ | JObj _ => true
  end.

Definition truthy_value (v : jsvalue) : bool :=
  match v with Some x => truthy_json x | None => false end.

(** [v || d] for a string literal [d]. *)
Definition or_default (v : jsvalue) (d : jsstring) : json :=
  match v with
  | Some x => if truthy_json x then x else JStr d
  | None => JStr d
  end.

(** Of two members with the same name the later one wins. *)
Fixpoint lookup_last (k : jsstring) (fs : list (jsstring * json))
  : option json :=
  match fs with
  | [] => None
  | (k', v) :: fs' =>
      match lookup_last k fs' with
      | Some x => Some x
      | None => if str_eqb k' k then Some v else None
      end
  end.

(** [v.k] for one of the data member names the sources read ([text],
    [error], [detail], [main_topic], [script], [title], [article_id],
    [user_id], [platform], [duration_seconds]); none of them is defined on a
    prototype.  The outer [None] is the TypeError of reading a member of
    [null] or [undefined]. *)
Definition get_prop (v : jsvalue) (k : jsstring) : option jsvalue :=
  match v with
  | None | Some JNull => None
  | Some (JObj fs) => Some (lookup_last k fs)
  | Some _ => Some None
  end.

(** *** The parser *)

Definition is_ws (c : N) : bool :=
  ((c =? 32) || (c =? 9) || (c =? 10) || (c =? 13))%N.

Fixpoint skip_ws (s : jsstring) : jsstring :=
  match s with
  | c :: s' => if is_ws c then skip_ws s' else s
  | [] => []
  end.

Definition is_digit (c : N) : bool := ((48 <=? c) && (c <=? 57))%N.

Definition hex_val (c : N) : option N :=
  if is_digit c then Some (c - 48)%N
  else if ((97 <=? c) && (c <=? 102))%N then Some (c - 87)%N
  else if ((65 <=? c) && (c <=? 70))%N then Some (c - 55)%N
  else None.

Definition hex4 (a b c d : N) : option N :=
  match hex_val a, hex_val b, hex_val c, hex_val d with
  | Some x, Some y, Some z, Some w =>
      Some (((x * 16 + y) * 16 + z) * 16 + w)%N
  | _, _, _, _ => None
  end.

Definition escape_char (e : N) : option N :=
  if (e =? 34)%N then Some 34%N
  else if (e =? 92)%N then Some 92%N
  else if (e =? 47)%N then Some 47%N
  else if (e =? 98)%N then Some 8%N
  else if (e =? 102)%N then Some 12%N
  else if (e =? 110)%N then Some 10%N
  else if (e =? 114)%N then Some 13%N
  else if (e =? 116)%N then Some 9%N
  else None.

(** The characters of a string after its opening quote, up to and including
    the closing quote. *)
Fixpoint parse_string_chars (s acc : jsstring) : option (jsstring * jsstring) :=
  match s with
  | [] => None
  | c :: rest =>
      if (c =? 34)%N then Some (rev acc, rest)
      else if (c =? 92)%N then
        match rest with
        | e :: rest' =>
            if (e =? 117)%N then
              match rest' with
              | h1 :: h2 :: h3 :: h4 :: rest'' =>
                  match hex4 h1 h2 h3 h4 with
                  | Some u => parse_string_chars rest'' (u :: acc)
                  | None => None
                  end
              | _ => None
              end
            else
              match escape_char e with
              | Some x => parse_string_chars rest' (x :: acc)
              | None => None
              end
        | [] => None
        end
      else if (c <? 32)%N then None
      else parse_string_chars rest (c :: acc)
  end.

(** Reads a run of digits into [acc] and counts them. *)
Fixpoint take_digits (s : jsstring) (acc : N) (count : nat)
  : N * nat * jsstring :=
  match s with
  | c :: rest =>
      if is_digit c then take_digits rest (acc * 10 + (c - 48))%N (S count)
      else (acc, count, s)
  | [] => (acc, count, [])
  end.

Definition parse_exponent (s : jsstring) : option (Z * jsstring) :=
  match s with
  | c :: r =>
      if ((c =? 101) || (c =? 69))%N then
        let '(sign, r1) :=
          match r with
          | d :: r' =>
              if (d =? 45)%N then ((-1)%Z, r')
              else if (d =? 43)%N then (1%Z, r')
              else (1%Z, r)
          | [] => (1%Z, r)
          end in
        let '(e, n, r2) := take_digits r1 0%N 0%nat in
        match n with
        | O => None
        | S _ => Some ((sign * Z.of_N e)%Z, r2)
        end
      else Some (0%Z, s)
  | [] => Some (0%Z, s)
  end.

Definition parse_fraction (mant : N) (s : jsstring)
  : option (N * nat * jsstring) :=
  match s with
  | c :: r =>
      if (c =? 46)%N then
        let '(m, n, r1) := take_digits r mant 0%nat in
        match n with
        | O => None
        | S _ => Some (m, n, r1)
        end
      else Some (mant, 0%nat, s)
  | [] => Some (mant, 0%nat, s)
  end.

Definition parse_number (s : jsstring) : option (json * jsstring) :=
  let '(neg, s1) :=
    match s with
    | c :: r => if (c =? 45)%N then (true, r) else (false, s)
    | [] => (false, s)
    end in
  let int_part :=
    match s1 with
    | c :: r =>
        if (c =? 48)%N then Some (0%N, r)
        else if is_digit c then
          let '(m, _, r1) := take_digits s1 0%N 0%nat in Some (m, r1)
        else None
    | [] => None
    end in
  match int_part with
  | None => None
  | Some (m, r1) =>
      match parse_fraction m r1 with
      | None => None
      | Some (m', n, r2) =>
          match parse_exponent r2 with
          | None => None
          | Some (e, r3) => Some (JNum neg m' (e - Z.of_nat n)%Z, r3)
          end
      end
  end.

Definition expect (lit : jsstring) (v : json) (s : jsstring)
  : option (json * jsstring) :=
  if startsWith s lit then Some (v, skipn (List.length lit) s) else None.

(** The outcome of a parser with fuel: a value and the rest of the text, a
    SyntaxError, or no fuel left. *)
Inductive parsed :=
| Parsed (v : json) (rest : jsstring)
| SyntaxError
| OutOfFuel.

Definition of_option (o : option (json * jsstring)) : parsed :=
  match o with
  | Some (v, r) => Parsed v r
  | None => SyntaxError
  end.

Fixpoint parse_value (fuel : nat) (s : jsstring) : parsed :=
  match fuel with
  | O => OutOfFuel
  | S f =>
      match skip_ws s with
      | [] => SyntaxError
      | c :: rest =>
          if (c =? 123)%N then
            match skip_ws rest with
            | d :: r =>
                if (d =? 125)%N then Parsed (JObj []) r
                else parse_members f rest []
            | [] => SyntaxError
            end
          else if (c =? 91)%N then
            match skip_ws rest with
            | d :: r =>
                if (d =? 93)%N then Parsed (JArr []) r
                else parse_elements f rest []
            | [] => SyntaxError
            end
          else if (c =? 34)%N then
            match parse_string_chars rest [] with
            | Some (str, r) => Parsed (JStr str) r
            | None => SyntaxError
            end
          else if (c =? 116)%N then
            of_option (expect (js "true") (JBool true) (c :: rest))
          else if (c =? 102)%N then
            of_option (expect (js "false") (JBool false) (c :: rest))
          else if (c =? 110)%N then
            of_option (expect (js "null") JNull (c :: rest))
          else of_option (parse_number (c :: rest))
      end
  end

with parse_members (fuel : nat) (s : jsstring) (acc : list (jsstring * json))
  : parsed :=
  match fuel with
  | O => OutOfFuel
  | S f =>
      match skip_ws s with
      | q :: r =>
          if (q =? 34)%N then
            match parse_string_chars r [] with
            | Some (k, r1) =>
                match skip_ws r1 with
                | colon :: r2 =>
                    if (colon =? 58)%N then
                      match parse_value f r2 with
                      | Parsed v r3 =>
                          match skip_ws r3 with
                          | d :: r4 =>
                              if (d =? 44)%N
                              then parse_members f r4 ((k, v) :: acc)
                              else if (d =? 125)%N
                              then Parsed (JObj (rev ((k, v) :: acc))) r4
                              else SyntaxError
                          | [] => SyntaxError
                          end
                      | SyntaxError => SyntaxError
                      | OutOfFuel => OutOfFuel
                      end
                    else SyntaxError
                | [] => SyntaxError
                end
            | None => SyntaxError
            end
          else SyntaxError
      | [] => SyntaxError
      end
  end

with parse_elements (fuel : nat) (s : jsstring) (acc : list json) : parsed :=
  match fuel with
  | O => OutOfFuel
  | S f =>
      match parse_value f s with
      | Parsed v r =>
          match skip_ws r with
          | d :: r1 =>
              if (d =? 44)%N then parse_elements f r1 (v :: acc)
              else if (d =? 93)%N then Parsed (JArr (rev (v :: acc))) r1
              else SyntaxError
          | [] => SyntaxError
          end
      | SyntaxError => SyntaxError
      | OutOfFuel => OutOfFuel
      end
  end.

(** [JSON.parse(s)]; [None] stands for the SyntaxError.  The fuel is never
    used up ([JsonFacts.parse_fuel]). *)
Definition parse (s : jsstring) : option json :=
  match parse_value (2 * List.length s + 1) s with
  | Parsed v rest =>
      match skip_ws rest with
      | [] => Some v
      | _ :: _ => None
      end
  | SyntaxError | OutOfFuel => None
  end.

End Json.

Import Json.

(** ** [frontend/lib/api.ts]: the event stream *)

Module Stream.

(** The message literals of the sources, as code units. *)

(* "요약에 실패했습니다." *)
Definition msg_summarize_failed : jsstring :=
  [50836; 50557; 50640; 32; 49892; 54056; 54664; 49845; 45768; 45796; 46]%N.
(* "스크립트 생성에 실패했습니다." *)
Definition msg_script_failed : jsstring :=
  [49828; 53356; 47549; 53944; 32; 49373; 49457; 50640; 32; 49892; 54056;
   54664; 49845; 45768; 45796; 46]%N.
(* "스트리밍 응답을 받을 수 없습니다." *)
Definition msg_no_stream : jsstring :=
  [49828; 53944; 47532; 48141; 32; 51025; 45813; 51012; 32; 48155; 51012; 32;
   49688; 32; 50630; 49845; 45768; 45796; 46]%N.
(* "알 수 없는 오류" *)
Definition msg_unknown_error : jsstring :=
  [50508; 32; 49688; 32; 50630; 45716; 32; 50724; 47448]%N.
(* "스트리밍 오류" *)
Definition msg_stream_error : jsstring :=
  [49828; 53944; 47532; 48141; 32; 50724; 47448]%N.
(* "스크립트 스트리밍 오류" *)
Definition msg_script_stream_error : jsstring :=
  [49828; 53356; 47549; 53944; 32; 49828; 53944; 47532; 48141; 32; 50724;
   47448]%N.

(** The two streaming calls differ in their end point and messages only. *)
Inductive Variant := Summarize | Script.

Definition msg_failed (v : Variant) : jsstring :=
  match v with
  | Summarize => msg_summarize_failed
  | Script => msg_script_failed
  end.

Inductive StreamEventType := thinking | content | done | error.

Record StreamEvent := mkEvent {
  type : StreamEventType;
  data : json
}.

(** A thrown value: an [Error] with its message, or anything else. *)
Inductive Thrown := ErrorObj (message : jsstring) | NonError.

(** What the generator does for one block: it yields an event, or it writes
    the [console.warn] diagnostic with the undecoded payload. *)
Inductive Emit := Yield (e : StreamEvent) | Warn (eventData : jsstring).

Inductive Completion := Returned | Threw (t : Thrown).

(** What [fetch] and the reader deliver. *)
Inductive Response :=
| FetchRejects (t : Thrown)
| NotOk (error : json)             (* [!response.ok], body read by [response.json()] *)
| NotOkUnreadable (t : Thrown)     (* [response.json()] rejects *)
| NoBody                           (* [response.body] is null *)
| Body (chunks : list jsstring) (failure : option Thrown).
    (* the chunks [reader.read()] resolves with, as decoded by the streaming
       [TextDecoder], then [done], or a rejection of [read()] *)

(** One line of a block: [event: ] sets the type, [data: ] the payload. *)
Definition scan_line (st : jsstring * jsstring) (line : jsstring)
  : jsstring * jsstring :=
  let '(eventType, eventData) := st in
  if startsWith line (js "event: ") then (slice_from 7 line, eventData)
  else if startsWith line (js "data: ") then (eventType, slice_from 6 line)
  else st.

Definition scan_lines (eventText : jsstring) : jsstring * jsstring :=
  fold_left scan_line (split_char LF eventText) (js "content", []).

Section Demux.

(** [JSON.parse] of the platform: [None] when it throws. *)
Variable JSON_parse : jsstring -> option json.

(** The engine's message for the TypeError of reading the named member of
    [null] or [undefined]. *)
Variable TypeError_message : jsstring -> jsstring.

(** The body of [for (const eventText of events)]. *)
Definition process_event (eventText : jsstring) : list Emit :=
  if negb (truthy (trim eventText)) then []
  else
    let '(eventType, eventData) := scan_lines eventText in
    if negb (truthy eventData) then []
    else
      match JSON_parse eventData with
      | None => [Warn eventData]
      | Some parsed =>
          if str_eqb eventType (js "thinking")
             || str_eqb eventType (js "content") then
            match get_prop (Some parsed) (js "text") with
            | Some text =>
                [Yield (mkEvent
                          (if str_eqb eventType (js "thinking")
                           then thinking else content)
                          (or_default text []))]
            | None => [Warn eventData]
            end
          else if str_eqb eventType (js "done") then
            [Yield (mkEvent done parsed)]
          else if str_eqb eventType (js "error") then
            match get_prop (Some parsed) (js "error") with
            | Some e =>
                [Yield (mkEvent error
                          (JObj [(js "error",
                                  or_default e msg_unknown_error)]))]
            | None => [Warn eventData]
            end
          else []
      end.

(** The [while (true)] loop over [reader.read()], with the text kept in
    [buffer] between two reads.  When the reader is done the loop breaks
    and what is left in the buffer is not looked at again. *)
Fixpoint read_loop (buffer : jsstring) (chunks : list jsstring) : list Emit :=
  match chunks with
  | [] => []
  | value :: chunks' =>
      let buffer1 := buffer ++ value in
      let events := split_blank buffer1 in
      let buffer2 := last events [] in
      flat_map process_event (removelast events) ++ read_loop buffer2 chunks'
  end.

Definition stream (v : Variant) (r : Response) : list Emit * Completion :=
  match r with
  | FetchRejects t => ([], Threw t)
  | NotOkUnreadable t => ([], Threw t)
  | NotOk err =>
      match get_prop (Some err) (js "detail") with
      | Some detail =>
          ([Yield (mkEvent error
                     (JObj [(js "error", or_default detail (msg_failed v))]))],
           Returned)
      | None => ([], Threw (ErrorObj (TypeError_message (js "detail"))))
      end
  | NoBody =>
      ([Yield (mkEvent error (JObj [(js "error", JStr msg_no_stream)]))],
       Returned)
  | Body chunks failure =>
      (read_loop [] chunks,
       match failure with Some t => Threw t | None => Returned end)
  end.

Definition summarizeStream : Response -> list Emit * Completion :=
  stream Summarize.

Definition generateScriptStream : Response -> list Emit * Completion :=
  stream Script.

(** The events a consumer of the generator receives. *)
Definition yields (es : list Emit) : list StreamEvent :=
  flat_map (fun e => match e with Yield ev => [ev] | Warn _ => [] end) es.

Definition warnings (es : list Emit) : list jsstring :=
  flat_map (fun e => match e with Yield _ => [] | Warn d => [d] end) es.

End Demux.

End Stream.

(** ** [frontend/app/page.tsx]: the reasoning sub-parser *)

Module Think.

(** [thinkingText.split(re)] where [re] is two line feeds with a lookahead
    for two asterisks: a block ends at a blank line that is followed by two
    asterisks; the asterisks stay in the next block. *)
Fixpoint split_blocks (s : jsstring) : list jsstring :=
  match s with
  | [] => [[]]
  | c :: s' =>
      match s' with
      | d :: s'' =>
          if N.eqb c LF && N.eqb d LF && startsWith s'' [STAR; STAR]
          then [] :: split_blocks s''
          else cons_head c (split_blocks s')
      | [] => [[c]]
      end
  end.

(** [(.+?)\*\*]: the shortest non-empty run of code units other than line
    terminators that is followed by two asterisks; the result is the run and
    the text after the asterisks. *)
Fixpoint lazy_dots (s : jsstring) : option (jsstring * jsstring) :=
  match s with
  | [] => None
  | c :: s' =>
      if isLineTerminator c then None
      else if startsWith s' [STAR; STAR] then Some ([c], skipn 2 s')
      else
        match lazy_dots s' with
        | Some (t, r) => Some (c :: t, r)
        | None => None
        end
  end.

(** [block.match(/^\*\*(.+?)\*\*/)]: the captured title and the text after
    the match. *)
Definition heading_match (block : jsstring) : option (jsstring * jsstring) :=
  if startsWith block [STAR; STAR] then lazy_dots (skipn 2 block) else None.

(** The greedy [\n*] at the end of the pattern of [replace]. *)
Fixpoint drop_LF (s : jsstring) : jsstring :=
  match s with
  | c :: s' => if N.eqb c LF then drop_LF s' else s
  | [] => []
  end.

Record ThinkBlock := mkThinkBlock {
  title : jsstring;
  content : jsstring
}.

Definition parseLatestThinkBlock (thinkingText : jsstring) : ThinkBlock :=
  if negb (truthy thinkingText) then mkThinkBlock [] []
  else
    let blocks := split_blocks thinkingText in
    let lastBlock := last blocks [] in
    let titleMatch := heading_match lastBlock in
    mkThinkBlock
      (match titleMatch with Some (t, _) => t | None => [] end)
      (trim (match titleMatch with
             | Some (_, rest) => drop_LF rest
             | None => lastBlock
             end)).

(** The titles of all blocks of a buffer whose heading is complete. *)
Definition completed_headings (buf : jsstring) : list jsstring :=
  flat_map
    (fun b => match heading_match b with Some (t, _) => [t] | None => [] end)
    (split_blocks buf).

End Think.

(** ** [frontend/lib/api.ts]: the callback wrappers

    [summarizeStreamWithCallbacks] and [generateScriptStreamWithCallbacks]
    start an asynchronous loop over the generator and return an
    [AbortController].  The loop runs one step whenever the generator
    delivers something; the controller can be aborted between two steps. *)

Module Callbacks.

Section Consumer.

(** The state the callbacks act on. *)
Variable S : Type.

Variable TypeError_message : jsstring -> jsstring.

(** A callback returns, or throws after some of its effects. *)
Inductive Outcome := Done (s : S) | Raised (s : S) (t : Stream.Thrown).

Definition state_of (o : Outcome) : S :=
  match o with Done s => s | Raised s _ => s end.

(** The optional callbacks of [SummarizeStreamCallbacks] and
    [ScriptStreamCallbacks]. *)
Record StreamCallbacks := mkCallbacks {
  onThinking : option (json -> S -> Outcome);
  onContent : option (json -> S -> Outcome);
  onDone : option (json -> S -> Outcome);
  onError : option (jsvalue -> S -> Outcome)
}.

(** [callback?.(arg)] *)
Definition call {A} (cb : option (A -> S -> Outcome)) (arg : A) (s : S)
  : Outcome :=
  match cb with Some f => f arg s | None => Done s end.

(** What the generator delivers to the [for await] loop. *)
Inductive TrackInput :=
| Yields (e : Stream.StreamEvent)
| Throws (t : Stream.Thrown)
| Returns.

(** The [switch (event.type)]. *)
Definition dispatch (cbs : StreamCallbacks) (e : Stream.StreamEvent) (s : S)
  : Outcome :=
  match Stream.type e with
  | Stream.thinking => call (onThinking cbs) (Stream.data e) s
  | Stream.content => call (onContent cbs) (Stream.data e) s
  | Stream.done => call (onDone cbs) (Stream.data e) s
  | Stream.error =>
      match onError cbs with
      | None => Done s
      | Some f =>
          match get_prop (Some (Stream.data e)) (js "error") with
          | Some msg => f msg s
          | None =>
              Raised s (Stream.ErrorObj (TypeError_message (js "error")))
          end
      end
  end.

(** [err instanceof Error ? err.message : "..."] *)
Definition catch_message (v : Stream.Variant) (t : Stream.Thrown) : jsstring :=
  match t with
  | Stream.ErrorObj m => m
  | Stream.NonError =>
      match v with
      | Stream.Summarize => Stream.msg_stream_error
      | Stream.Script => Stream.msg_script_stream_error
      end
  end.

(** The [catch (err)] block. *)
Definition catch_block (v : Stream.Variant) (cbs : StreamCallbacks)
  (t : Stream.Thrown) (s : S) : S :=
  state_of (call (onError cbs) (Some (JStr (catch_message v t))) s).

(** One step of the loop: the new state, and whether the loop has ended.
    [aborted] is [controller.signal.aborted] at that moment. *)
Definition consume (v : Stream.Variant) (cbs : StreamCallbacks)
  (aborted : bool) (i : TrackInput) (s : S) : S * bool :=
  match i with
  | Returns => (s, true)
  | Throws t => (catch_block v cbs t s, true)
  | Yields e =>
      if aborted then (s, true)
      else
        match dispatch cbs e s with
        | Done s' => (s', false)
        | Raised s' t => (catch_block v cbs t s', true)
        end
  end.

End Consumer.

Arguments Done {S} s.
Arguments Raised {S} s t.

(** A record of the calls made, for callbacks that only take note of them. *)
Inductive Call :=
| CallThinking (text : json)
| CallContent (text : json)
| CallDone (result : json)
| CallError (message : jsvalue).

Definition logging : StreamCallbacks (list Call) :=
  mkCallbacks
    (Some (fun text log => Done (log ++ [CallThinking text])))
    (Some (fun text log => Done (log ++ [CallContent text])))
    (Some (fun result log => Done (log ++ [CallDone result])))
    (Some (fun message log => Done (log ++ [CallError message]))).

(** A track: the controller's flag, whether the loop has ended, and the
    calls made so far.  [abort] is [controller.abort()]. *)
Record TrackState := mkTrack {
  aborted : bool;
  finished : bool;
  calls : list Call
}.

Inductive TrackStep := Aborts | Deliver (i : TrackInput).

Definition track_step (tem : jsstring -> jsstring) (v : Stream.Variant)
  (t : TrackState) (x : TrackStep) : TrackState :=
  match x with
  | Aborts => mkTrack true (finished t) (calls t)
  | Deliver i =>
      if finished t then t
      else
        let '(log, fin) := consume tem v logging (aborted t) i (calls t) in
        mkTrack (aborted t) fin log
  end.

Definition track_run (tem : jsstring -> jsstring) (v : Stream.Variant)
  (steps : list TrackStep) : TrackState :=
  fold_left (track_step tem v) steps (mkTrack false false []).

End Callbacks.

(** ** [frontend/app/page.tsx]: the pipeline of [handleSubmit] *)

Module Page.

Inductive ProcessingStatus :=
| status_idle | status_crawling | status_processing | status_done
| status_error.

Inductive AudioStatus :=
| audio_idle | audio_scripting | audio_synthesizing | audio_done
| audio_ready | audio_error.

Inductive Stage := stage_crawl | stage_summarize | stage_script.

Record ErrorInfo := mkErrorInfo {
  stage : Stage;
  message : jsvalue
}.

(** [StreamingState] and [ScriptStreamingState] have the same members. *)
Record StreamingState := mkStreaming {
  isStreaming : bool;
  thinking : jsstring;
  content : jsstring;
  currentThinkingTitle : jsstring;
  currentThinkingContent : jsstring
}.

(** The [useState] cells of [HomePage]: what the page shows.  A cell typed
    [T | null] holds the value a setter was given; [JNull] is [null]. *)
Record PageState := mkPage {
  status : ProcessingStatus;
  error : option ErrorInfo;
  crawlData : json;
  summaryData : json;
  scriptData : json;
  audioStatus : AudioStatus;
  audioError : jsvalue;
  synthesizeData : json;
  audioUrl : option jsstring;
  streaming : StreamingState;
  scriptStreaming : StreamingState
}.

Definition emptyStreaming : StreamingState := mkStreaming false [] [] [] [].

Definition initialPage : PageState :=
  mkPage status_idle None JNull JNull JNull audio_idle (Some JNull) JNull None
         emptyStreaming emptyStreaming.

(** The state the page is put in at the start of [handleSubmit]. *)
Definition resetPage : PageState :=
  mkPage status_crawling None JNull JNull JNull audio_idle (Some JNull) JNull
         None emptyStreaming emptyStreaming.

(** Setters. *)
Definition setStatus (x : ProcessingStatus) (p : PageState) : PageState :=
  mkPage x (error p) (crawlData p) (summaryData p) (scriptData p)
         (audioStatus p) (audioError p) (synthesizeData p) (audioUrl p)
         (streaming p) (scriptStreaming p).
Definition setError (x : option ErrorInfo) (p : PageState) : PageState :=
  mkPage (status p) x (crawlData p) (summaryData p) (scriptData p)
         (audioStatus p) (audioError p) (synthesizeData p) (audioUrl p)
         (streaming p) (scriptStreaming p).
Definition setCrawlData (x : json) (p : PageState) : PageState :=
  mkPage (status p) (error p) x (summaryData p) (scriptData p)
         (audioStatus p) (audioError p) (synthesizeData p) (audioUrl p)
         (streaming p) (scriptStreaming p).
Definition setSummaryData (x : json) (p : PageState) : PageState :=
  mkPage (status p) (error p) (crawlData p) x (scriptData p)
         (audioStatus p) (audioError p) (synthesizeData p) (audioUrl p)
         (streaming p) (scriptStreaming p).
Definition setScriptData (x : json) (p : PageState) : PageState :=
  mkPage (status p) (error p) (crawlData p) (summaryData p) x
         (audioStatus p) (audioError p) (synthesizeData p) (audioUrl p)
         (streaming p) (scriptStreaming p).
Definition setAudioStatus (x : AudioStatus) (p : PageState) : PageState :=
  mkPage (status p) (error p) (crawlData p) (summaryData p) (scriptData p)
         x (audioError p) (synthesizeData p) (audioUrl p)
         (streaming p) (scriptStreaming p).
Definition setAudioError (x : jsvalue) (p : PageState) : PageState :=
  mkPage (status p) (error p) (crawlData p) (summaryData p) (scriptData p)
         (audioStatus p) x (synthesizeData p) (audioUrl p)
         (streaming p) (scriptStreaming p).
Definition setSynthesizeData (x : json) (p : PageState) : PageState :=
  mkPage (status p) (error p) (crawlData p) (summaryData p) (scriptData p)
         (audioStatus p) (audioError p) x (audioUrl p)
         (streaming p) (scriptStreaming p).
Definition setAudioUrl (x : option jsstring) (p : PageState) : PageState :=
  mkPage (status p) (error p) (crawlData p) (summaryData p) (scriptData p)
         (audioStatus p) (audioError p) (synthesizeData p) x
         (streaming p) (scriptStreaming p).
(** [setStreaming((prev) => f(prev))] *)
Definition setStreaming (f : StreamingState -> StreamingState) (p : PageState)
  : PageState :=
  mkPage (status p) (error p) (crawlData p) (summaryData p) (scriptData p)
         (audioStatus p) (audioError p) (synthesizeData p) (audioUrl p)
         (f (streaming p)) (scriptStreaming p).
Definition setScriptStreaming (f : StreamingState -> StreamingState)
  (p : PageState) : PageState :=
  mkPage (status p) (error p) (crawlData p) (summaryData p) (scriptData p)
         (audioStatus p) (audioError p) (synthesizeData p) (audioUrl p)
         (streaming p) (f (scriptStreaming p)).

(** [{ ...prev, isStreaming: b }] *)
Definition withIsStreaming (b : bool) (prev : StreamingState) : StreamingState :=
  mkStreaming b (thinking prev) (content prev) (currentThinkingTitle prev)
              (currentThinkingContent prev).

(* "TTS 합성에 실패했습니다." *)
Definition msg_tts_failed : jsstring :=
  [84; 84; 83; 32; 54633; 49457; 50640; 32; 49892; 54056; 54664; 49845; 45768;
   45796; 46]%N.
(* "알 수 없는 오류가 발생했습니다." *)
Definition msg_unknown_failure : jsstring :=
  [50508; 32; 49688; 32; 50630; 45716; 32; 50724; 47448; 44032; 32; 48156;
   49373; 54664; 49845; 45768; 45796; 46]%N.

Definition DEFAULT_USER_ID : jsstring := js "default".

(** One call of [handleSubmit]: its argument and the variables of its
    closure. *)
Record Run := mkRun {
  url : jsstring;
  crawlPending : bool;      (* suspended at [await crawlUrl(url)] *)
  summaryDone : bool;
  scriptDone : bool
}.

(** One [AbortController] with the loop it was returned for. *)
Record Track := mkTrack {
  variant : Stream.Variant;
  owner : nat;              (* the run whose callbacks it calls *)
  article_id : jsstring;    (* [article_id] of its request *)
  aborted : bool;
  finished : bool
}.

(** One [synthesizeAudio] call suspended at its [await], with the script
    result of the [onDone] that made it. *)
Record TtsCall := mkTts {
  ttsOwner : nat;
  ttsScript : json;
  ttsPending : bool
}.

(** The page with the two refs and everything in flight. *)
Record World := mkWorld {
  page : PageState;
  abortControllerRef : option nat;
  scriptAbortControllerRef : option nat;
  tracks : list Track;
  runs : list Run;
  ttsCalls : list TtsCall
}.

Definition initialWorld : World :=
  mkWorld initialPage None None [] [] [].

Definition withPage (f : PageState -> PageState) (w : World) : World :=
  mkWorld (f (page w)) (abortControllerRef w) (scriptAbortControllerRef w)
          (tracks w) (runs w) (ttsCalls w).
Definition withTracks (f : list Track -> list Track) (w : World) : World :=
  mkWorld (page w) (abortControllerRef w) (scriptAbortControllerRef w)
          (f (tracks w)) (runs w) (ttsCalls w).
Definition withRuns (f : list Run -> list Run) (w : World) : World :=
  mkWorld (page w) (abortControllerRef w) (scriptAbortControllerRef w)
          (tracks w) (f (runs w)) (ttsCalls w).
Definition withTtsCalls (f : list TtsCall -> list TtsCall) (w : World) : World :=
  mkWorld (page w) (abortControllerRef w) (scriptAbortControllerRef w)
          (tracks w) (runs w) (f (ttsCalls w)).

(** Applies [f] to the element at index [i], if there is one. *)
Fixpoint update {A} (i : nat) (f : A -> A) (l : list A) : list A :=
  match l, i with
  | [], _ => []
  | x :: l', O => f x :: l'
  | x :: l', S i' => x :: update i' f l'
  end.

(** [ref.current.abort()] when the ref holds a controller. *)
Definition abortRef (ref : option nat) (ts : list Track) : list Track :=
  match ref with
  | Some t =>
      update t (fun k => mkTrack (variant k) (owner k) (article_id k) true
                                 (finished k)) ts
  | None => ts
  end.

Definition finishTrack (t : nat) (fin : bool) : list Track -> list Track :=
  update t (fun k => mkTrack (variant k) (owner k) (article_id k) (aborted k)
                             (finished k || fin)).

Definition markSummaryDone (r : nat) : list Run -> list Run :=
  update r (fun k => mkRun (url k) (crawlPending k) true (scriptDone k)).
Definition markScriptDone (r : nat) : list Run -> list Run :=
  update r (fun k => mkRun (url k) (crawlPending k) (summaryDone k) true).
Definition markCrawled (r : nat) : list Run -> list Run :=
  update r (fun k => mkRun (url k) false (summaryDone k) (scriptDone k)).
Definition settleTts (c : nat) : list TtsCall -> list TtsCall :=
  update c (fun k => mkTts (ttsOwner k) (ttsScript k) false).

(** What the page receives from outside. *)
Inductive Input :=
| Submit (url : jsstring)                        (* [handleSubmit(url)] is called *)
| CrawlResolves (run : nat) (crawled : json)     (* [crawlUrl] of that run resolves *)
| CrawlRejects (run : nat) (t : Stream.Thrown)
| TrackDelivers (track : nat) (i : Callbacks.TrackInput)
| TtsResolves (call : nat) (ttsResult : json)    (* [synthesizeAudio] resolves *)
| TtsRejects (call : nat) (t : Stream.Thrown).

Section Pipeline.

Variable new_URL : jsstring -> option Api.URL.
Variable TypeError_message : jsstring -> jsstring.

(** [ToString] of a value that is not a string, as [+] and template
    literals apply it. *)
Variable ToString : jsvalue -> jsstring.

(** [process.env.NEXT_PUBLIC_API_URL || "http://localhost:8000"] *)
Variable API_BASE : jsstring.

Definition text_of (v : jsvalue) : jsstring :=
  match v with
  | Some (JStr s) => s
  | _ => ToString v
  end.

(** [getAudioUrl(articleId, userId = DEFAULT_USER_ID)] *)
Definition getAudioUrl (articleId userId : jsvalue) : jsstring :=
  API_BASE ++ js "/api/v1/audio/" ++ text_of articleId
  ++ js ".mp3?user_id="
  ++ match userId with
     | None => DEFAULT_USER_ID
     | Some _ => text_of userId
     end.

(** [checkAllDone] of run [r]. *)
Definition checkAllDone (r : nat) (w : World) : World :=
  match nth_error (runs w) r with
  | Some k =>
      if summaryDone k && scriptDone k
      then withPage (setStatus status_done) w
      else w
  | None => w
  end.

(** The [onThinking] callbacks: the text is added to the buffer and the
    buffer is parsed again. *)
Definition appendThinking (text : json) (prev : StreamingState)
  : StreamingState :=
  let newThinking := thinking prev ++ text_of (Some text) in
  let b := Think.parseLatestThinkBlock newThinking in
  mkStreaming (isStreaming prev) newThinking (content prev)
              (Think.title b) (Think.content b).

Definition appendContent (text : json) (prev : StreamingState)
  : StreamingState :=
  mkStreaming (isStreaming prev) (thinking prev)
              (content prev ++ text_of (Some text))
              (currentThinkingTitle prev) (currentThinkingContent prev).

(** Track 1, the callbacks given to [summarizeStreamWithCallbacks] by
    run [r]. *)
Definition summaryOnError (r : nat) (errorMsg : jsvalue) (w : World) : World :=
  let w1 := withPage (setError (Some (mkErrorInfo stage_summarize errorMsg))) w in
  let w2 := withPage (setStreaming (withIsStreaming false)) w1 in
  let w3 := withRuns (markSummaryDone r) w2 in
  checkAllDone r w3.

Definition summaryOnDone (r : nat) (result : json) (w : World)
  : Callbacks.Outcome World :=
  let w1 := withPage (setSummaryData result) w in
  let w2 := withPage (setStreaming (withIsStreaming false)) w1 in
  let w3 := withRuns (markSummaryDone r) w2 in
  match get_prop (Some result) (js "main_topic") with
  | None =>
      Callbacks.Raised w3
        (Stream.ErrorObj (TypeError_message (js "main_topic")))
  | Some _ => Callbacks.Done (checkAllDone r w3)
  end.

Definition summaryCallbacks (r : nat) : Callbacks.StreamCallbacks World :=
  Callbacks.mkCallbacks
    (Some (fun text w =>
             Callbacks.Done (withPage (setStreaming (appendThinking text)) w)))
    (Some (fun text w =>
             Callbacks.Done (withPage (setStreaming (appendContent text)) w)))
    (Some (summaryOnDone r))
    (Some (fun errorMsg w => Callbacks.Done (summaryOnError r errorMsg w))).

(** Track 2, the callbacks given to [generateScriptStreamWithCallbacks]. *)
Definition scriptOnError (r : nat) (errorMsg : jsvalue) (w : World) : World :=
  let w1 := withPage (setAudioError errorMsg) w in
  let w2 := withPage (setScriptStreaming (withIsStreaming false)) w1 in
  let w3 := withPage (setAudioStatus audio_error) w2 in
  let w4 := withRuns (markScriptDone r) w3 in
  checkAllDone r w4.

(** [onDone] is an [async] function: when [result.script.title] cannot be
    read its promise is rejected and the rest of its body does not run,
    but nothing is thrown into the loop that called it.  Otherwise it goes
    on to call [synthesizeAudio] and is suspended at the [await]. *)
Definition scriptOnDone (r : nat) (result : json) (w : World) : World :=
  let w1 := withPage (setScriptData result) w in
  let w2 := withPage (setScriptStreaming (withIsStreaming false)) w1 in
  let w3 := withPage (setAudioStatus audio_done) w2 in
  let w4 := withRuns (markScriptDone r) w3 in
  match get_prop (Some result) (js "script") with
  | None => w4
  | Some script =>
      match get_prop script (js "title") with
      | None => w4
      | Some _ =>
          let w5 := checkAllDone r w4 in
          let w6 := withPage (setAudioStatus audio_synthesizing) w5 in
          withTtsCalls (fun cs => cs ++ [mkTts r result true]) w6
      end
  end.

Definition scriptCallbacks (r : nat) : Callbacks.StreamCallbacks World :=
  Callbacks.mkCallbacks
    (Some (fun text w =>
             Callbacks.Done
               (withPage (setScriptStreaming (appendThinking text)) w)))
    (Some (fun text w =>
             Callbacks.Done
               (withPage (setScriptStreaming (appendContent text)) w)))
    (Some (fun result w => Callbacks.Done (scriptOnDone r result w)))
    (Some (fun errorMsg w => Callbacks.Done (scriptOnError r errorMsg w))).

Definition callbacksOf (k : Track) : Callbacks.StreamCallbacks World :=
  match variant k with
  | Stream.Summarize => summaryCallbacks (owner k)
  | Stream.Script => scriptCallbacks (owner k)
  end.

(** The start of [handleSubmit], up to [await crawlUrl(url)]. *)
Definition submit (u : jsstring) (w : World) : World :=
  let ts1 := abortRef (abortControllerRef w) (tracks w) in
  let ts2 := abortRef (scriptAbortControllerRef w) ts1 in
  mkWorld resetPage (abortControllerRef w) (scriptAbortControllerRef w)
          ts2 (runs w ++ [mkRun u true false false]) (ttsCalls w).

(** The [catch (err)] of [handleSubmit]. *)
Definition crawlCatch (t : Stream.Thrown) (w : World) : World :=
  let m := match t with
           | Stream.ErrorObj m => m
           | Stream.NonError => msg_unknown_failure
           end in
  withPage (setStatus status_error)
    (withPage (setError (Some (mkErrorInfo stage_crawl (Some (JStr m))))) w).

(** [extractArticleId(url, crawled.platform)] for the value found there:
    a value that is not a string is [===] to neither platform name, like
    the empty string. *)
Definition articleIdOf (u : jsstring) (platform : jsvalue) : jsstring :=
  match platform with
  | Some (JStr p) => Api.extractArticleId new_URL u p
  | _ => Api.extractArticleId new_URL u []
  end.

(** [handleSubmit] of run [r] after [crawlUrl] has resolved. *)
Definition afterCrawl (r : nat) (u : jsstring) (crawled : json) (w : World)
  : World :=
  let w1 := withPage (setCrawlData crawled) w in
  match get_prop (Some crawled) (js "title") with
  | None => crawlCatch (Stream.ErrorObj (TypeError_message (js "title"))) w1
  | Some _ =>
      let w2 := withPage (setStatus status_processing) w1 in
      let w3 := withPage (setStreaming (withIsStreaming true)) w2 in
      let w4 := withPage (setAudioStatus audio_scripting) w3 in
      let articleId :=
        articleIdOf u
          (match get_prop (Some crawled) (js "platform") with
           | Some v => v
           | None => None
           end) in
      let t1 := List.length (tracks w4) in
      let w5 :=
        mkWorld (page w4) (Some t1) (scriptAbortControllerRef w4)
                (tracks w4 ++ [mkTrack Stream.Summarize r articleId false false])
                (runs w4) (ttsCalls w4) in
      let w6 := withPage (setScriptStreaming (withIsStreaming true)) w5 in
      let t2 := List.length (tracks w6) in
      mkWorld (page w6) (abortControllerRef w6) (Some t2)
              (tracks w6 ++ [mkTrack Stream.Script r articleId false false])
              (runs w6) (ttsCalls w6)
  end.

(** The [catch (ttsErr)] of the script track's [onDone]. *)
Definition ttsCatch (t : Stream.Thrown) (w : World) : World :=
  let m := match t with
           | Stream.ErrorObj m => m
           | Stream.NonError => msg_tts_failed
           end in
  withPage (setAudioStatus audio_error)
    (withPage (setAudioError (Some (JStr m))) w).

(** The script track's [onDone] after [synthesizeAudio] has resolved. *)
Definition afterTts (result ttsResult : json) (w : World) : World :=
  let w1 := withPage (setSynthesizeData ttsResult) w in
  let articleId :=
    match get_prop (Some result) (js "article_id") with
    | Some v => v | None => None end in
  let userId :=
    match get_prop (Some result) (js "user_id") with
    | Some v => v | None => None end in
  let w2 := withPage (setAudioUrl (Some (getAudioUrl articleId userId))) w1 in
  let w3 := withPage (setAudioStatus audio_ready) w2 in
  match get_prop (Some ttsResult) (js "duration_seconds") with
  | None =>
      ttsCatch (Stream.ErrorObj (TypeError_message (js "duration_seconds"))) w3
  | Some _ => w3
  end.

(** One step of the page. *)
Definition step (w : World) (x : Input) : World :=
  match x with
  | Submit u => submit u w
  | CrawlResolves r crawled =>
      match nth_error (runs w) r with
      | Some k =>
          if crawlPending k
          then afterCrawl r (url k) crawled (withRuns (markCrawled r) w)
          else w
      | None => w
      end
  | CrawlRejects r t =>
      match nth_error (runs w) r with
      | Some k =>
          if crawlPending k
          then crawlCatch t (withRuns (markCrawled r) w)
          else w
      | None => w
      end
  | TrackDelivers t i =>
      match nth_error (tracks w) t with
      | Some k =>
          if finished k then w
          else
            let '(w1, fin) :=
              Callbacks.consume TypeError_message (variant k)
                                (callbacksOf k) (aborted k) i w in
            withTracks (finishTrack t fin) w1
      | None => w
      end
  | TtsResolves c ttsResult =>
      match nth_error (ttsCalls w) c with
      | Some k =>
          if ttsPending k
          then afterTts (ttsScript k) ttsResult (withTtsCalls (settleTts c) w)
          else w
      | None => w
      end
  | TtsRejects c t =>
      match nth_error (ttsCalls w) c with
      | Some k =>
          if ttsPending k
          then ttsCatch t (withTtsCalls (settleTts c) w)
          else w
      | None => w
      end
  end.

Definition run_inputs (w : World) (xs : list Input) : World :=
  fold_left step xs w.

End Pipeline.

End Page.

(** ** The speech synthesis engine *)

Module Audio.

(** The back-end service ([backend/app/services/audio.py]:
    [synthesize_speech], [_call_openai_tts], [_merge_audio_chunks]) is not
    among the sources: a plan quotes the signatures and the documentation
    quotes the call [asyncio.gather] over one task per paragraph.  The engine
    is modelled from section 4.4 of the design document. *)

Definition audio := list N.

Section Engine.

(** The synthesis call of the collaborator for one segment: its audio, or
    [None] when the call fails. *)
Variable tts : jsstring -> option audio.

(** The fixed block of silence. *)
Variable silence : audio.

(** Modelled from the spec: [_merge_audio_chunks], missing from the sources.
    Section 4.4, step 3: the segment buffers are concatenated in the order
    of the list, with the block of silence between consecutive segments, not
    before the first or after the last. *)
Fixpoint merge_audio_chunks (chunks : list audio) : audio :=
  match chunks with
  | [] => []
  | a :: rest =>
      match rest with
      | [] => a
      | _ :: _ => a ++ silence ++ merge_audio_chunks rest
      end
  end.

(** Modelled from the spec: the results of the awaited calls of
    [synthesize_speech], missing from the sources.  Section 4.4, steps 1 and
    2: there is one slot per segment; a result is kept at the index of its
    segment. *)
Fixpoint store {A} (i : nat) (x : A) (slots : list (option A))
  : list (option A) :=
  match slots, i with
  | [], _ => []
  | _ :: slots', O => Some x :: slots'
  | s :: slots', S i' => s :: store i' x slots'
  end.

(** Modelled from the spec: the call for segment [i] of [synthesize_speech]
    settles, with its audio or with its failure. *)
Definition settle (segments : list jsstring)
  (slots : list (option (option audio))) (i : nat)
  : list (option (option audio)) :=
  match nth_error segments i with
  | Some seg => store i (tts seg) slots
  | None => slots
  end.

(** Modelled from the spec: the outcome of the awaited calls of
    [synthesize_speech], all-or-nothing as in section 4.4: the audio of all
    segments in the order of the slots when every call has settled with
    success, nothing otherwise. *)
Fixpoint collect (slots : list (option (option audio)))
  : option (list audio) :=
  match slots with
  | [] => Some []
  | Some (Some a) :: slots' =>
      match collect slots' with
      | Some l => Some (a :: l)
      | None => None
      end
  | _ :: _ => None
  end.

(** Modelled from the spec: [synthesize_speech], missing from the sources,
    as [synthesize] of section 4.4 with the calls settling in the order
    [completion]: the merged artifact on full success, no artifact
    otherwise. *)
Definition synthesize (segments : list jsstring) (completion : list nat)
  : option audio :=
  let slots :=
    fold_left (settle segments) completion
              (repeat None (List.length segments)) in
  match collect slots with
  | Some chunks => Some (merge_audio_chunks chunks)
  | None => None
  end.

End Engine.

End Audio.

(** ** The insight card ([frontend/components/welcome-input.tsx], second
    part): the answer sub-parser of the summary *)

Module Insight.

(* "[요약]" *)
Definition marker_summary : jsstring := [91; 50836; 50557; 93]%N.

(** [\s*\n] after the marker: the greedy white space gives back code units
    until a line feed follows, so the line feed matched is the last one of
    the run of white space.  The result is the text after it. *)
Fixpoint ws_then_LF (s : jsstring) (best : option jsstring) : option jsstring :=
  match s with
  | c :: s' =>
      if isWhiteSpace c
      then ws_then_LF s' (if N.eqb c LF then Some s' else best)
      else best
  | [] => best
  end.

(** The capture of the leftmost match of the marker, white space with a
    line feed, and the rest of the text up to its end. *)
Fixpoint find_summary (s : jsstring) : option jsstring :=
  match s with
  | [] => None
  | _ :: s' =>
      if startsWith s marker_summary then
        match ws_then_LF (skipn 4 s) None with
        | Some captured => Some captured
        | None => find_summary s'
        end
      else find_summary s'
  end.

Definition is_bullet (c : N) : bool :=
  ((c =? 8226) || (c =? 45) || (c =? 42))%N.

(** The body of the loop over the lines. *)
Definition bullet_point (line : jsstring) : list jsstring :=
  match trim line with
  | c :: rest =>
      if is_bullet c then
        let point := trim (trimStart rest) in
        if truthy point then [point] else []
      else []
  | [] => []
  end.

Definition parseStreamingBulletPoints (content : jsstring) : list jsstring :=
  if negb (truthy content) then []
  else
    let summaryText :=
      match find_summary content with
      | Some captured => captured
      | None => content
      end in
    flat_map bullet_point (split_char LF summaryText).

End Insight.

(** ** Notions used in the statements *)

Module Notions.

(** *** Framing of the event stream *)

(** A block that holds no blank line and does not end in a line feed, so
    that the two line feeds put after it are the first delimiter. *)
Fixpoint no_blank_line (b : jsstring) : bool :=
  match b with
  | [] => true
  | c :: b' =>
      match b' with
      | d :: _ => negb (N.eqb c LF && N.eqb d LF) && no_blank_line b'
      | [] => negb (N.eqb c LF)
      end
  end.

(** A block followed by its blank-line delimiter, and the text of a
    sequence of such blocks. *)
Definition framed (b : jsstring) : jsstring := b ++ [LF; LF].

Definition wire (blocks : list jsstring) : jsstring :=
  List.concat (List.map framed blocks).

(** A block as the server writes it: the line of the event type and the
    line of the payload. *)
Definition event_block (eventType payload : jsstring) : jsstring :=
  js "event: " ++ eventType ++ [LF] ++ js "data: " ++ payload.

Definition LF_free (s : jsstring) : bool :=
  forallb (fun c => negb (N.eqb c LF)) s.

(** A block the generator turns into exactly one event. *)
Definition valid_block (JSON_parse : jsstring -> option json)
  (b : jsstring) : Prop :=
  no_blank_line b = true /\
  exists e, Stream.process_event JSON_parse b = [Stream.Yield e].

(** A block the generator turns into exactly one [done] event. *)
Definition valid_done_block (JSON_parse : jsstring -> option json)
  (b : jsstring) : Prop :=
  no_blank_line b = true /\
  exists payload,
    Stream.process_event JSON_parse b
    = [Stream.Yield (Stream.mkEvent Stream.done payload)].

(** A block with a payload that [JSON.parse] refuses. *)
Definition undecodable_block (JSON_parse : jsstring -> option json)
  (b payload : jsstring) : Prop :=
  no_blank_line b = true /\
  truthy (trim b) = true /\
  snd (Stream.scan_lines b) = payload /\
  payload <> [] /\
  JSON_parse payload = None.

(** The message of V8 for reading a member of [null]. *)
Definition v8_TypeError_message (k : jsstring) : jsstring :=
  js "Cannot read properties of null (reading '" ++ k ++ js "')".

(** *** Blocks and headings of the reasoning buffer *)

(** The heading boundary: a blank line followed by two asterisks. *)
Definition boundary : jsstring := [LF; LF; STAR; STAR].

Fixpoint has_boundary (s : jsstring) : bool :=
  match s with
  | [] => false
  | _ :: s' => startsWith s boundary || has_boundary s'
  end.

(** The blocks put together again with the blank lines between them. *)
Fixpoint join_blocks (bs : list jsstring) : jsstring :=
  match bs with
  | [] => []
  | b :: bs' =>
      match bs' with
      | [] => b
      | _ :: _ => b ++ [LF; LF] ++ join_blocks bs'
      end
  end.

(** [block] starts with the heading [h] between two pairs of asterisks,
    followed by [rest]: [h] is not empty, holds no line terminator, and no
    shorter heading ends earlier. *)
Definition is_heading (block h rest : jsstring) : Prop :=
  block = [STAR; STAR] ++ h ++ [STAR; STAR] ++ rest /\
  h <> [] /\
  Forall (fun c => isLineTerminator c = false) h /\
  forall j, (0 < j < List.length h)%nat ->
            startsWith (skipn j (h ++ [STAR; STAR])) [STAR; STAR] = false.

(** *** Result invariants of the design document *)

(** Section 3, SummaryResult: the list of points is not empty. *)
Definition spec_summary_valid (payload : json) : bool :=
  match get_prop (Some payload) (js "bullet_points") with
  | Some (Some (JArr (_ :: _))) => true
  | _ => false
  end.

(** Section 3, Script: the list of segments is not empty and no segment is
    empty. *)
Definition spec_script_valid (payload : json) : bool :=
  match get_prop (Some payload) (js "script") with
  | Some script =>
      match get_prop script (js "paragraphs") with
      | Some (Some (JArr (p :: ps))) =>
          forallb (fun x => match x with JStr (_ :: _) => true | _ => false end)
                  (p :: ps)
      | _ => false
      end
  | None => false
  end.

(** [result.script.title] can be read: neither [result] nor its member
    [script] is [null] or [undefined]. *)
Definition script_title_readable (result : json) : bool :=
  match get_prop (Some result) (js "script") with
  | Some script =>
      match get_prop script (js "title") with
      | Some _ => true
      | None => false
      end
  | None => false
  end.

(** *** Failures of a track *)

(** What makes a track fail: an [error] event or a thrown value. *)
Definition is_failure (i : Callbacks.TrackInput) : Prop :=
  match i with
  | Callbacks.Yields e => Stream.type e = Stream.error
  | Callbacks.Throws _ => True
  | Callbacks.Returns => False
  end.

(** *** What a failure may not touch

    The cells a failing summary track, a failing script track and a failed
    synthesis call leave as they are; of its own streaming cell a track
    changes the [isStreaming] flag only. *)

Definition summary_failure_frame (p p' : Page.PageState) : Prop :=
  Page.crawlData p' = Page.crawlData p /\
  Page.summaryData p' = Page.summaryData p /\
  Page.scriptData p' = Page.scriptData p /\
  Page.scriptStreaming p' = Page.scriptStreaming p /\
  Page.audioStatus p' = Page.audioStatus p /\
  Page.audioError p' = Page.audioError p /\
  Page.synthesizeData p' = Page.synthesizeData p /\
  Page.audioUrl p' = Page.audioUrl p /\
  Page.withIsStreaming false (Page.streaming p')
  = Page.withIsStreaming false (Page.streaming p).

Definition script_failure_frame (p p' : Page.PageState) : Prop :=
  Page.crawlData p' = Page.crawlData p /\
  Page.summaryData p' = Page.summaryData p /\
  Page.streaming p' = Page.streaming p /\
  Page.error p' = Page.error p /\
  Page.scriptData p' = Page.scriptData p /\
  Page.synthesizeData p' = Page.synthesizeData p /\
  Page.audioUrl p' = Page.audioUrl p /\
  Page.withIsStreaming false (Page.scriptStreaming p')
  = Page.withIsStreaming false (Page.scriptStreaming p).

Definition synthesis_failure_frame (p p' : Page.PageState) : Prop :=
  Page.status p' = Page.status p /\
  Page.error p' = Page.error p /\
  Page.crawlData p' = Page.crawlData p /\
  Page.summaryData p' = Page.summaryData p /\
  Page.scriptData p' = Page.scriptData p /\
  Page.synthesizeData p' = Page.synthesizeData p /\
  Page.audioUrl p' = Page.audioUrl p /\
  Page.streaming p' = Page.streaming p /\
  Page.scriptStreaming p' = Page.scriptStreaming p.

(** *** A heading, without the block around it *)

Definition heading_run (h : jsstring) : Prop :=
  h <> [] /\
  Forall (fun c => isLineTerminator c = false) h /\
  forall j, (0 < j < List.length h)%nat ->
            startsWith (skipn j (h ++ [STAR; STAR])) [STAR; STAR] = false.

(** *** The slots of the parallel synthesis *)

(** The slots after the calls in [settled] have settled. *)
Definition filled (tts : jsstring -> option Audio.audio)
  (segments : list jsstring) (settled : list nat)
  (slots : list (option (option Audio.audio))) : Prop :=
  List.length slots = List.length segments /\
  forall j seg, nth_error segments j = Some seg ->
    nth_error slots j
    = Some (if existsb (Nat.eqb j) settled then Some (tts seg) else None).

End Notions.

(** ** Example inputs *)

Module Examples.

(** Blocks of the event stream. *)
Definition thinking_block : jsstring :=
  Notions.event_block (js "thinking") (js "{}").
Definition done_block : jsstring :=
  Notions.event_block (js "done") (js "{}").
Definition broken_block : jsstring :=
  Notions.event_block (js "content") (js "{oops").

(** Reasoning buffers. *)
Definition buf_first : jsstring := js "**A**" ++ [LF; LF] ++ js "bo".
Definition buf_opening : jsstring :=
  js "**A**" ++ [LF; LF] ++ js "body" ++ [LF; LF] ++ js "**B".
Definition buf_plan : jsstring := js "**Plan**" ++ [LF; LF] ++ js "body".
Definition buf_note : jsstring := js "note " ++ [LF].

(** A platform for the runs below.  None of them converts a value that is
    not a string, and the platform of the crawl result is neither geeknews
    nor medium, so the article identifier is the one made of the hash of
    the URL: the choices made here for [new URL] and [ToString] do not show
    in any result. *)
Definition no_URL : jsstring -> option Api.URL := fun _ => None.
Definition example_new_URL : jsstring -> option Api.URL :=
  fun _ => Some (Api.mkURL (js "/") (fun _ => None)).
Definition example_ToString : jsvalue -> jsstring :=
  fun v => match v with
           | Some (JStr s) => s
           | Some JNull => js "null"
           | Some (JBool true) => js "true"
           | Some (JBool false) => js "false"
           | Some (JObj _) => js "[object Object]"
           | None => js "undefined"
           | _ => []
           end.
Definition example_API_BASE : jsstring := js "http://localhost:8000".

(** What [new URL] gives for an address of each of the two platforms that
    have identifiers of their own. *)
Definition url_geeknews : jsstring := js "https://news.hada.io/topic?id=123".
Definition url_medium : jsstring :=
  js "https://medium.com/@ann/my-post-0123456789ab".
Definition platform_new_URL : jsstring -> option Api.URL :=
  fun u =>
    if str_eqb u url_geeknews then
      Some (Api.mkURL (js "/topic")
              (fun k => if str_eqb k (js "id") then Some (js "123") else None))
    else if str_eqb u url_medium then
      Some (Api.mkURL (js "/@ann/my-post-0123456789ab") (fun _ => None))
    else None.

Definition url_one : jsstring := js "https://example.com/one".
Definition url_two : jsstring := js "https://example.com/two".
Definition crawled_one : json :=
  JObj [(js "title", JStr (js "One")); (js "platform", JStr (js "generic"))].
Definition script_one : json :=
  JObj [(js "user_id", JStr (js "default"));
        (js "article_id", JStr (js "article_1"));
        (js "script", JObj [(js "title", JStr (js "One, narrated"));
                            (js "paragraphs", JArr [JStr (js "Hello.")])])].
Definition tts_one : json := JObj [(js "duration_seconds", JNum false 12 0)].
Definition summary_one : json :=
  JObj [(js "bullet_points", JArr [JStr (js "Point.")]);
        (js "main_topic", JStr (js "One"))].
Definition summary_without_points : json :=
  JObj [(js "bullet_points", JArr []); (js "main_topic", JStr (js "One"))].
Definition script_without_segments : json :=
  JObj [(js "user_id", JStr (js "default"));
        (js "article_id", JStr (js "article_1"));
        (js "script", JObj [(js "title", JStr (js "One, narrated"));
                            (js "paragraphs", JArr [])])].

Definition example_run : list Page.Input -> Page.World :=
  Page.run_inputs example_new_URL Notions.v8_TypeError_message
                  example_ToString example_API_BASE Page.initialWorld.

(** A run with both tracks started. *)
Definition world_generating : Page.World :=
  example_run [Page.Submit url_one; Page.CrawlResolves 0 crawled_one].

(** The same with the script result in place and its synthesis call in
    flight. *)
Definition world_synthesizing : Page.World :=
  example_run
    [Page.Submit url_one; Page.CrawlResolves 0 crawled_one;
     Page.TrackDelivers 1
       (Callbacks.Yields (Stream.mkEvent Stream.done script_one))].

(** The same with the summary result in place as well, after the synthesis
    call has resolved. *)
Definition world_ready : Page.World :=
  example_run
    [Page.Submit url_one; Page.CrawlResolves 0 crawled_one;
     Page.TrackDelivers 0
       (Callbacks.Yields (Stream.mkEvent Stream.done summary_one));
     Page.TrackDelivers 1
       (Callbacks.Yields (Stream.mkEvent Stream.done script_one));
     Page.TtsResolves 0 tts_one].

(** The same with results that break the invariants of the design. *)
Definition world_invalid_results : Page.World :=
  example_run
    [Page.Submit url_one; Page.CrawlResolves 0 crawled_one;
     Page.TrackDelivers 0
       (Callbacks.Yields (Stream.mkEvent Stream.done summary_without_points));
     Page.TrackDelivers 1
       (Callbacks.Yields (Stream.mkEvent Stream.done script_without_segments))].

(** A synthesis call that doubles the first code unit of its segment. *)
Definition example_tts (seg : jsstring) : option Audio.audio :=
  match seg with
  | [] => None
  | c :: _ => Some [c; c]
  end.

End Examples.

(** ** The generator and its callback wrapper together *)

Module Wiring.




End Wiring.

(** ** More notions used in the statements *)

Module Shapes.

(** A block with a line that starts with [data: ]. *)
Definition has_data_line (block : jsstring) : bool :=
  existsb (fun line => startsWith line (js "data: ")) (split_char LF block).

(** What the generator puts in an event: the text of a [thinking] or
    [content] event is the empty string or a truthy value, the [error]
    member of an [error] event is truthy. *)
Definition event_shape (e : Stream.StreamEvent) : Prop :=
  match Stream.type e with
  | Stream.thinking | Stream.content =>
      Stream.data e = JStr [] \/ truthy_json (Stream.data e) = true
  | Stream.done => True
  | Stream.error =>
      exists m, Stream.data e = JObj [(js "error", m)]
                /\ truthy_json m = true
  end.

(** The polynomial in 31 with the code units as coefficients, the first
    code unit with the highest power. *)
Definition poly31 (str : jsstring) : Z :=
  fold_left (fun h c => (31 * h + Z.of_N c)%Z) str 0%Z.

(** A hyphen followed by ten or more lower-case hexadecimal digits. *)
Definition hash_suffix (s : jsstring) : Prop :=
  exists hex, s = 45%N :: hex /\ (10 <= List.length hex)%nat
              /\ forallb Api.is_hex_lower hex = true.

End Shapes.

Module Cells.

(** The streaming cell a track writes to. *)
Definition stream_cell (v : Stream.Variant) (p : Page.PageState)
  : Page.StreamingState :=
  match v with
  | Stream.Summarize => Page.streaming p
  | Stream.Script => Page.scriptStreaming p
  end.

(** The input that delivers one [thinking] event with a text to a track. *)
Definition thinking_input (t : nat) (text : jsstring) : Page.Input :=
  Page.TrackDelivers t
    (Callbacks.Yields (Stream.mkEvent Stream.thinking (JStr text))).

End Cells.

Module Runs.

(** The member [k] of [v] can be read: [v] is neither [null] nor
    [undefined]. *)
Definition readable (v : jsvalue) (k : jsstring) : bool :=
  match get_prop v k with Some _ => true | None => false end.

(** The member, [undefined] when there is none. *)
Definition member (v : json) (k : jsstring) : jsvalue :=
  match get_prop (Some v) k with Some x => x | None => None end.

(** The three things that complete a run once its two tracks have been
    started: the summary track delivers its result, the script track delivers
    its result, and the synthesis call made for that result resolves. *)
Definition summary_arrives (t : nat) (summary : json) : Page.Input :=
  Page.TrackDelivers t
    (Callbacks.Yields (Stream.mkEvent Stream.done summary)).
Definition script_arrives (t : nat) (script : json) : Page.Input :=
  Page.TrackDelivers (S t)
    (Callbacks.Yields (Stream.mkEvent Stream.done script)).
Definition audio_arrives (c : nat) (tts : json) : Page.Input :=
  Page.TtsResolves c tts.

(** The orders in which they can happen: the synthesis call is made when
    the script result arrives. *)
Definition completions (t c : nat) (summary script tts : json)
  : list (list Page.Input) :=
  [[summary_arrives t summary; script_arrives t script; audio_arrives c tts];
   [script_arrives t script; summary_arrives t summary; audio_arrives c tts];
   [script_arrives t script; audio_arrives c tts; summary_arrives t summary]].

(** The page when a run is complete. *)
Definition complete_page (ToString : jsvalue -> jsstring)
  (API_BASE : jsstring) (crawled summary script tts : json)
  : Page.PageState :=
  Page.mkPage Page.status_done None crawled summary script Page.audio_ready
    (Some JNull) tts
    (Some (Page.getAudioUrl ToString API_BASE (member script (js "article_id"))
                       (member script (js "user_id"))))
    Page.emptyStreaming Page.emptyStreaming.

(** A world in which the last run has started its two tracks and they are
    the last two. *)
Definition started (p : Page.PageState) (a s : option nat)
  (T : list Page.Track) (R : list Page.Run) (C : list Page.TtsCall)
  (aid : jsstring) (run : Page.Run) : Page.World :=
  Page.mkWorld p a s
    (T ++ [Page.mkTrack Stream.Summarize (List.length R) aid false false;
           Page.mkTrack Stream.Script (List.length R) aid false false])
    (R ++ [run]) C.

End Runs.

(** ** What the server sends *)

Module Sent.






End Sent.

(** ** The cards ([frontend/components]): the display parsers

    [cleanThinkingText] is defined twice with the same body, in the insight
    card and in the audio player card. *)

Module Cards.

(** [text.replace(re, LF LF)] with [re] the global pattern of a backslash,
    the letter n, a backslash and the letter n: the matches are found from
    left to right and do not overlap. *)
Fixpoint unescape_pairs (s : jsstring) : jsstring :=
  match s with
  | a :: ((b :: c :: d :: s4) as s1) =>
      if ((a =? 92) && (b =? 110) && (c =? 92) && (d =? 110))%N
      then LF :: LF :: unescape_pairs s4
      else a :: unescape_pairs s1
  | a :: s1 => a :: unescape_pairs s1
  | [] => []
  end.

(** [text.replace(re, LF)] with [re] the global pattern of a backslash and
    the letter n. *)
Fixpoint unescape (s : jsstring) : jsstring :=
  match s with
  | a :: ((b :: s2) as s1) =>
      if ((a =? 92) && (b =? 110))%N
      then LF :: unescape s2
      else a :: unescape s1
  | a :: s1 => a :: unescape s1
  | [] => []
  end.

(** [text.replace(re, LF LF)] with [re] the global pattern of three or more
    line feeds: a match starts at a line feed that is followed by two more
    and takes the whole run.  [skipping] says that the scan is inside a run
    that has been matched, whose line feeds are dropped. *)
Fixpoint squeeze (skipping : bool) (s : jsstring) : jsstring :=
  match s with
  | [] => []
  | c :: s' =>
      if N.eqb c LF then
        if skipping then squeeze true s'
        else if startsWith s' [LF; LF] then LF :: LF :: squeeze true s'
        else LF :: squeeze false s'
      else c :: squeeze false s'
  end.

Definition cleanThinkingText (text : jsstring) : jsstring :=
  if negb (truthy text) then []
  else trim (squeeze false (unescape (unescape_pairs text))).

(** The function without its first replacement. *)
Definition clean_in_two_steps (text : jsstring) : jsstring :=
  if negb (truthy text) then []
  else trim (squeeze false (unescape text)).

(** *** The audio player card: the paragraphs of the script *)

(* "[스크립트]" *)
Definition marker_script : jsstring :=
  [91; 49828; 53356; 47549; 53944; 93]%N.

(** The capture of the leftmost match of a marker, white space with a line
    feed, and the rest of the text up to its end (the pattern of
    [Insight.find_summary] with another marker). *)
Fixpoint find_section (marker s : jsstring) : option jsstring :=
  match s with
  | [] => None
  | _ :: s' =>
      if startsWith s marker then
        match Insight.ws_then_LF (skipn (List.length marker) s) None with
        | Some captured => Some captured
        | None => find_section marker s'
        end
      else find_section marker s'
  end.

(** [text.split(re)] with [re] the pattern of two or more line feeds: a
    separator starts at a line feed that is followed by another and takes
    the whole run.  [skipping] says that the scan is inside a separator. *)
Fixpoint split_paragraphs (skipping : bool) (s : jsstring) : list jsstring :=
  match s with
  | [] => [[]]
  | c :: s' =>
      if N.eqb c LF then
        if skipping then split_paragraphs true s'
        else if startsWith s' [LF] then [] :: split_paragraphs true s'
        else cons_head c (split_paragraphs false s')
      else cons_head c (split_paragraphs false s')
  end.

Definition parseStreamingParagraphs (content : jsstring) : list jsstring :=
  if negb (truthy content) then []
  else
    match find_section marker_script content with
    | None => []
    | Some scriptText =>
        filter truthy (List.map trim (split_paragraphs false scriptText))
    end.

(** *** The title of the script and the topic of the summary *)

(* "[제목]" *)
Definition marker_title : jsstring := [91; 51228; 47785; 93]%N.
(* "[주제]" *)
Definition marker_topic : jsstring := [91; 51452; 51228; 93]%N.

(** What ends the line: a blank line, a line feed and an opening bracket,
    or the end of the text. *)
Definition line_ends (rest : jsstring) : bool :=
  startsWith rest [LF; LF] || startsWith rest [LF; 91%N] || negb (truthy rest).

(** The lazy group with the [s] flag and what follows it: the shortest
    non-empty run of code units, line terminators included, after which
    the line ends.  The result is the run and the text after it. *)
Fixpoint lazy_line (s : jsstring) : option (jsstring * jsstring) :=
  match s with
  | [] => None
  | c :: s' =>
      if line_ends s' then Some ([c], s')
      else
        match lazy_line s' with
        | Some (t, r) => Some (c :: t, r)
        | None => None
        end
  end.

(** The greedy white space and the line feed after the marker, when a
    group of one code unit at least has to follow: the white space gives
    back code units until a line feed follows which is not the end of the
    text, so the line feed matched is the last one of the run of white
    space that has text after it.  The result is that text. *)
Fixpoint ws_then_LF_text (s : jsstring) (best : option jsstring)
  : option jsstring :=
  match s with
  | c :: s' =>
      if isWhiteSpace c
      then ws_then_LF_text s'
             (if N.eqb c LF && truthy s' then Some s' else best)
      else best
  | [] => best
  end.

(** The leftmost match of the whole pattern: the captured group and the
    text after it. *)
Fixpoint find_line (marker s : jsstring) : option (jsstring * jsstring) :=
  match s with
  | [] => None
  | _ :: s' =>
      if startsWith s marker then
        match ws_then_LF_text (skipn (List.length marker) s) None with
        | Some text =>
            match lazy_line text with
            | Some m => Some m
            | None => find_line marker s'
            end
        | None => find_line marker s'
        end
      else find_line marker s'
  end.

(** The two functions differ in the marker only; [None] is [null]. *)
Definition parse_line (marker content : jsstring) : option jsstring :=
  if negb (truthy content) then None
  else
    match find_line marker content with
    | Some (captured, _) => Some (trim captured)
    | None => None
    end.

Definition parseStreamingTitle : jsstring -> option jsstring :=
  parse_line marker_title.

Definition parseStreamingMainTopic : jsstring -> option jsstring :=
  parse_line marker_topic.

End Cards.

(** ** Notions about texts *)

Module Texts.

(** [p] occurs in [s]. *)
Fixpoint occurs (p s : jsstring) : bool :=
  startsWith s p
  || match s with
     | [] => false
     | _ :: s' => occurs p s'
     end.

(** A backslash followed by the letter n. *)
Definition escaped_LF : jsstring := [92; 110]%N.

(** No white space at either end. *)
Definition trimmed (s : jsstring) : Prop := trim s = s.

(** A marker whose last code unit is not white space. *)
Definition solid (marker : jsstring) : Prop :=
  marker <> [] /\ isWhiteSpace (last marker 0%N) = false.

(** The text of an optional result with more text after it. *)
Definition extended (more : jsstring) (o : option jsstring) : option jsstring :=
  match o with Some x => Some (x ++ more) | None => None end.

End Texts.

(** ** The layout of the texts the cards parse *)

Module Layout.
Import Cards Texts.

(** A heading: one line that is not empty and has no white space at
    either end. *)
Definition heading (s : jsstring) : Prop :=
  s <> [] /\ trimmed s /\ Notions.LF_free s = true.

(** A paragraph: not empty, no white space at either end and no blank
    line inside. *)
Definition paragraph (p : jsstring) : Prop :=
  p <> [] /\ trimmed p /\ occurs [LF; LF] p = false.

(** The first code unit of a text, if any, is not white space. *)
Definition starts_solid (body : jsstring) : Prop :=
  match body with [] => True | c :: _ => isWhiteSpace c = false end.

(** A text below two markers: the first marker, the heading on the next
    line, a blank line, the second marker, and the body from the next
    line on. *)
Definition card (marker1 h marker2 body : jsstring) : jsstring :=
  marker1 ++ [LF] ++ h ++ [LF; LF] ++ marker2 ++ [LF] ++ body.

(** The text of a script: the title and the paragraphs with blank lines
    between them. *)
Definition script_card (title : jsstring) (paragraphs : list jsstring)
  : jsstring :=
  card marker_title title marker_script (Notions.join_blocks paragraphs).

(** The lines put together again with the line feeds between them. *)
Fixpoint join_lines (ls : list jsstring) : jsstring :=
  match ls with
  | [] => []
  | l :: ls' =>
      match ls' with
      | [] => l
      | _ :: _ => l ++ [LF] ++ join_lines ls'
      end
  end.

(** A line of the summary: the bullet, a space and the point. *)
Definition bullet_line (b : N * jsstring) : jsstring :=
  fst b :: 32%N :: snd b.

Definition bullet (b : N * jsstring) : Prop :=
  Insight.is_bullet (fst b) = true /\ heading (snd b).

(** The text of a summary: the topic and one line for each point. *)
Definition summary_card (topic : jsstring) (bullets : list (N * jsstring))
  : jsstring :=
  card marker_topic topic Insight.marker_summary
       (join_lines (List.map bullet_line bullets)).

End Layout.

(** ** The two forms ([frontend/components/header.tsx] and the welcome
    form of [frontend/components/welcome-input.tsx]) *)

Module Forms.

Inductive ValidationState :=
| validation_idle | validation_validating | validation_valid
| validation_invalid.

Definition is_invalid (v : ValidationState) : bool :=
  match v with validation_invalid => true | _ => false end.

(** [handleSubmit] of the header: the argument [onSubmit] is called with,
    if it is called.  [hasOnSubmit] says that the optional [onSubmit] is
    given. *)
Definition header_handleSubmit (url : jsstring) (isLoading hasOnSubmit : bool)
  : option jsstring :=
  if truthy (trim url) && negb isLoading && hasOnSubmit
  then Some (trim url)
  else None.

(** The [disabled] attribute of the header's button. *)
Definition header_disabled (url : jsstring) (isLoading : bool) : bool :=
  isLoading || negb (truthy (trim url)).

(** [handleSubmit] of the welcome form. *)
Definition welcome_handleSubmit (url : jsstring) (isLoading : bool)
  (validationState : ValidationState) : option jsstring :=
  if truthy (trim url) && negb isLoading
     && negb (is_invalid validationState)
  then Some (trim url)
  else None.

Definition isSubmitDisabled (url : jsstring) (isLoading : bool)
  (validationState : ValidationState) : bool :=
  isLoading || negb (truthy (trim url)) || is_invalid validationState.

(** The [isLoading] the page gives the header. *)
Definition header_isLoading (p : Page.PageState) : bool :=
  match Page.status p with
  | Page.status_crawling | Page.status_processing => true
  | _ => false
  end.

End Forms.

Module Stages.

(** The stage of the error shown is not [script]. *)
Definition not_script (e : option Page.ErrorInfo) : Prop :=
  match e with
  | Some i => Page.stage i <> Page.stage_script
  | None => True
  end.

Definition stage_eqb (a b : Page.Stage) : bool :=
  match a, b with
  | Page.stage_crawl, Page.stage_crawl
  | Page.stage_summarize, Page.stage_summarize
  | Page.stage_script, Page.stage_script => true
  | _, _ => false
  end.

(** The [error] prop [ContentPanel] gives the source panel (for the stage
    [crawl]) and the insight card (for the stage [summarize]): the message
    when the stage of the error is that of the panel, [undefined]
    otherwise. *)
Definition panel_error (st : Page.Stage) (e : option Page.ErrorInfo)
  : jsvalue :=
  match e with
  | Some i => if stage_eqb (Page.stage i) st then Page.message i else None
  | None => None
  end.

(** The input that delivers one event to a track. *)
Definition event_input (te : nat * Stream.StreamEvent) : Page.Input :=
  Page.TrackDelivers (fst te) (Callbacks.Yields (snd te)).

(** The track is the one a ref of the page holds. *)
Definition held (w : Page.World) (t : nat) : Prop :=
  Page.abortControllerRef w = Some t \/ Page.scriptAbortControllerRef w = Some t.

(** The tracks the refs of [w0] hold are aborted in [ts]. *)
Definition silenced (w0 : Page.World) (ts : list Page.Track) : Prop :=
  forall t k, held w0 t -> nth_error ts t = Some k -> Page.aborted k = true.

End Stages.

(** * Properties *)

Unset Implicit Arguments.

(** ** Strings *)

Module JSFacts.

Lemma str_eqb_eq (a b : jsstring) : str_eqb a b = true <-> a = b.
Proof.
  revert b; induction a as [|x a IH]; intros [|y b]; simpl; split;
    try congruence; try reflexivity.
  - intros H. apply andb_true_iff in H as [Hx Hab].
    apply N.eqb_eq in Hx. apply IH in Hab. congruence.
  - intros H. injection H as -> ->. rewrite N.eqb_refl. simpl.
    now apply IH.
Qed.

Lemma truthy_nonempty (s : jsstring) : truthy s = true <-> s <> [].
Proof. destruct s; simpl; split; congruence. Qed.

Lemma ToInt32_range (x : Z) : (- 2 ^ 31 <= ToInt32 x < 2 ^ 31)%Z.
Proof.
  unfold ToInt32.
  pose proof (Z.mod_pos_bound (x + 2 ^ 31) (2 ^ 32) ltac:(lia)). lia.
Qed.


Lemma cons_head_nonempty c ps : cons_head c ps <> [].
Proof. destruct ps; simpl; congruence. Qed.

Lemma last_cons_head c ps :
  (1 < List.length ps)%nat -> last (cons_head c ps) [] = last ps [].
Proof. destruct ps as [|p [|q ps]]; simpl; intros; try lia; reflexivity. Qed.

(** Induction on lists, two elements at a time. *)
Lemma list_ind2 {A} (P : list A -> Prop) :
  P [] -> (forall a, P [a]) ->
  (forall a b l, P l -> P (b :: l) -> P (a :: b :: l)) ->
  forall l, P l.
Proof.
  intros H0 H1 H2 l.
  assert (H : P l /\ forall a, P (a :: l)).
  { induction l as [|b l [IHl IHbl]]; split; auto. }
  apply H.
Qed.

Lemma removelast_app_r {A} (l l' : list A) :
  l' <> [] -> removelast (l ++ l') = l ++ removelast l'.
Proof. intros H. now apply removelast_app. Qed.

Lemma startsWith_split s p :
  startsWith s p = true -> s = p ++ skipn (List.length p) s.
Proof.
  revert s; induction p as [|y p IH]; intros s H; [reflexivity|].
  destruct s as [|x s]; simpl in H; [discriminate|].
  apply andb_true_iff in H as [Hx Hs]. apply N.eqb_eq in Hx. subst y.
  simpl. f_equal. now apply IH.
Qed.

Lemma startsWith_prefix p rest : startsWith (p ++ rest) p = true.
Proof.
  induction p as [|y p IH]; [now destruct rest|].
  simpl. now rewrite N.eqb_refl.
Qed.

Lemma startsWith_app s b p :
  (List.length p <= List.length s)%nat ->
  startsWith (s ++ b) p = startsWith s p.
Proof.
  revert s; induction p as [|y p IH]; intros s H.
  { destruct s; [now destruct b|reflexivity]. }
  destruct s as [|x s]; simpl in H; [lia|].
  simpl. rewrite IH by lia. reflexivity.
Qed.

Lemma startsWith_true_app s b p :
  startsWith s p = true -> startsWith (s ++ b) p = true.
Proof.
  revert s; induction p as [|y p IH]; intros s H.
  { destruct s; [now destruct b|reflexivity]. }
  destruct s as [|x s]; simpl in H; [discriminate|].
  apply andb_true_iff in H as [Hx Hs]. simpl. rewrite Hx. now apply IH.
Qed.

Lemma startsWith_length s p :
  startsWith s p = true -> (List.length p <= List.length s)%nat.
Proof.
  revert s; induction p as [|y p IH]; intros s H; simpl; [lia|].
  destruct s as [|x s]; simpl in H; [discriminate|].
  apply andb_true_iff in H as [_ Hs]. apply IH in Hs. simpl. lia.
Qed.

End JSFacts.

(** ** The JSON parser's fuel *)

Module JsonFacts.

Lemma skip_ws_length s : (List.length (skip_ws s) <= List.length s)%nat.
Proof.
  induction s as [|c s IH]; simpl; [lia|].
  destruct (is_ws c); simpl; lia.
Qed.

Lemma skip_ws_cons s c r :
  skip_ws s = c :: r -> (List.length r < List.length s)%nat.
Proof.
  intros H. pose proof (skip_ws_length s) as Hl. rewrite H in Hl.
  simpl in Hl. lia.
Qed.

Lemma parse_string_chars_length n : forall s acc str r,
  (List.length s <= n)%nat ->
  parse_string_chars s acc = Some (str, r) ->
  (List.length r < List.length s)%nat.
Proof.
  induction n as [|n IH]; intros s acc str r Hn.
  - destruct s; [discriminate|simpl in Hn; lia].
  - destruct s as [|c rest]; [discriminate|].
    cbn [parse_string_chars]. simpl in Hn.
    destruct (c =? 34)%N.
    + intros H. injection H as _ <-. simpl. lia.
    + destruct (c =? 92)%N.
      * destruct rest as [|e rest']; [discriminate|].
        destruct (e =? 117)%N.
        -- destruct rest' as [|h1 [|h2 [|h3 [|h4 rest'']]]]; try discriminate.
           destruct (hex4 h1 h2 h3 h4); [|discriminate].
           intros H. apply IH in H; simpl in *; lia.
        -- destruct (escape_char e); [|discriminate].
           intros H. apply IH in H; simpl in *; lia.
      * destruct (c <? 32)%N; [discriminate|].
        intros H. apply IH in H; simpl in *; lia.
Qed.

Lemma take_digits_length s : forall acc count m count' r,
  take_digits s acc count = (m, count', r) ->
  (List.length r + count' = List.length s + count)%nat /\
  (List.length r <= List.length s)%nat.
Proof.
  induction s as [|c s IH]; intros acc count m count' r; simpl.
  - intros H. injection H as _ <- <-. split; reflexivity.
  - destruct (is_digit c).
    + intros H. apply IH in H. lia.
    + intros H. injection H as _ <- <-. split; reflexivity.
Qed.

Lemma parse_exponent_length s e r :
  parse_exponent s = Some (e, r) -> (List.length r <= List.length s)%nat.
Proof.
  unfold parse_exponent.
  destruct s as [|c s]; [intros H; now injection H as _ <-|].
  destruct ((c =? 101) || (c =? 69))%N;
    [|intros H; now injection H as _ <-].
  set (sr := match s with
             | d :: r' =>
                 if (d =? 45)%N then ((-1)%Z, r')
                 else if (d =? 43)%N then (1%Z, r')
                 else (1%Z, s)
             | [] => (1%Z, s)
             end).
  assert (Hsr : (List.length (snd sr) <= List.length s)%nat).
  { subst sr. destruct s as [|d r']; simpl; [lia|].
    destruct (d =? 45)%N; [simpl; lia|].
    destruct (d =? 43)%N; simpl; lia. }
  destruct sr as [sign r1]. simpl in Hsr.
  destruct (take_digits r1 0%N 0%nat) as [[e0 n] r2] eqn:E.
  apply take_digits_length in E.
  destruct n; [discriminate|].
  intros H. injection H as _ <-. simpl. lia.
Qed.

Lemma parse_fraction_length mant s m n r :
  parse_fraction mant s = Some (m, n, r) ->
  (List.length r <= List.length s)%nat.
Proof.
  unfold parse_fraction. destruct s as [|c s]; [intros H; now injection H as _ _ <-|].
  destruct (c =? 46)%N; [|intros H; now injection H as _ _ <-].
  destruct (take_digits s mant 0%nat) as [[m0 n0] r1] eqn:E.
  apply take_digits_length in E.
  destruct n0; [discriminate|].
  intros H. injection H as _ _ <-. simpl. lia.
Qed.

Lemma parse_number_length s v r :
  parse_number s = Some (v, r) -> (List.length r < List.length s)%nat.
Proof.
  unfold parse_number.
  set (ns := match s with
             | c :: r0 => if (c =? 45)%N then (true, r0) else (false, s)
             | [] => (false, s)
             end).
  assert (Hns : (List.length (snd ns) <= List.length s)%nat).
  { subst ns. destruct s as [|c r0]; simpl; [lia|].
    destruct (c =? 45)%N; simpl; lia. }
  destruct ns as [neg s1]. simpl in Hns.
  assert (Hint : forall m r1,
    match s1 with
    | c :: r0 =>
        if (c =? 48)%N then Some (0%N, r0)
        else if is_digit c then
          let '(m, _, r1) := take_digits s1 0%N 0%nat in Some (m, r1)
        else None
    | [] => None
    end = Some (m, r1) -> (List.length r1 < List.length s1)%nat).
  { intros m r1. destruct s1 as [|c r0]; [discriminate|].
    destruct (c =? 48)%N.
    - intros H. injection H as _ <-. simpl. lia.
    - destruct (is_digit c) eqn:Hd; [|discriminate].
      cbn [take_digits]. rewrite Hd.
      destruct (take_digits r0 _ 1%nat) as [[m0 n0] r2] eqn:E.
      apply take_digits_length in E.
      intros H. injection H as _ <-. simpl. lia. }
  destruct (match s1 with
            | c :: r0 =>
                if (c =? 48)%N then Some (0%N, r0)
                else if is_digit c then
                  let '(m, _, r1) := take_digits s1 0%N 0%nat in Some (m, r1)
                else None
            | [] => None
            end) as [[m r1]|] eqn:E; [|discriminate].
  specialize (Hint m r1 eq_refl).
  destruct (parse_fraction m r1) as [[[m' n] r2]|] eqn:Ef; [|discriminate].
  apply parse_fraction_length in Ef.
  destruct (parse_exponent r2) as [[e r3]|] eqn:Ee; [|discriminate].
  apply parse_exponent_length in Ee.
  intros H. injection H as _ <-. lia.
Qed.

Lemma expect_length lit v s v' r :
  lit <> [] -> expect lit v s = Some (v', r) ->
  (List.length r < List.length s)%nat.
Proof.
  unfold expect. intros Hne.
  destruct (startsWith s lit) eqn:Hs; [|discriminate].
  intros H. injection H as _ <-.
  apply JSFacts.startsWith_length in Hs. rewrite length_skipn.
  destruct lit; [congruence|simpl in *; lia].
Qed.

(** What a parser has accepted is a non-empty part of the text. *)
Lemma parse_value_length fuel :
  (forall s v r, parse_value fuel s = Parsed v r ->
                 (List.length r < List.length s)%nat) /\
  (forall s acc v r, parse_members fuel s acc = Parsed v r ->
                     (List.length r < List.length s)%nat) /\
  (forall s acc v r, parse_elements fuel s acc = Parsed v r ->
                     (List.length r < List.length s)%nat).
Proof.
  induction fuel as [|f (IHv & IHm & IHe)].
  - repeat split; intros; discriminate.
  - split; [|split].
    + intros s v r. cbn [parse_value].
      destruct (skip_ws s) as [|c rest] eqn:Es; [discriminate|].
      apply skip_ws_cons in Es.
      destruct (c =? 123)%N.
      { destruct (skip_ws rest) as [|d r0] eqn:Er; [discriminate|].
        apply skip_ws_cons in Er.
        destruct (d =? 125)%N.
        - intros H. injection H as _ <-. lia.
        - intros H. apply IHm in H. lia. }
      destruct (c =? 91)%N.
      { destruct (skip_ws rest) as [|d r0] eqn:Er; [discriminate|].
        apply skip_ws_cons in Er.
        destruct (d =? 93)%N.
        - intros H. injection H as _ <-. lia.
        - intros H. apply IHe in H. lia. }
      destruct (c =? 34)%N.
      { destruct (parse_string_chars rest []) as [[str r0]|] eqn:Ep;
          [|discriminate].
        apply (parse_string_chars_length (List.length rest)) in Ep; [|lia].
        intros H. injection H as _ <-. lia. }
      assert (Hopt : forall o, of_option o = Parsed v r -> o = Some (v, r)).
      { intros [[v0 r0]|]; simpl; [|discriminate].
        intros H. now injection H as -> ->. }
      destruct (c =? 116)%N.
      { intros H. apply Hopt, expect_length in H; [simpl in H; lia|discriminate]. }
      destruct (c =? 102)%N.
      { intros H. apply Hopt, expect_length in H; [simpl in H; lia|discriminate]. }
      destruct (c =? 110)%N.
      { intros H. apply Hopt, expect_length in H; [simpl in H; lia|discriminate]. }
      intros H. apply Hopt, parse_number_length in H. simpl in H. lia.
    + intros s acc v r. cbn [parse_members].
      destruct (skip_ws s) as [|q r0] eqn:Es; [discriminate|].
      apply skip_ws_cons in Es.
      destruct (q =? 34)%N; [|discriminate].
      destruct (parse_string_chars r0 []) as [[k r1]|] eqn:Ep; [|discriminate].
      apply (parse_string_chars_length (List.length r0)) in Ep; [|lia].
      destruct (skip_ws r1) as [|colon r2] eqn:E1; [discriminate|].
      apply skip_ws_cons in E1.
      destruct (colon =? 58)%N; [|discriminate].
      destruct (parse_value f r2) as [v0 r3| |] eqn:Ev; try discriminate.
      apply IHv in Ev.
      destruct (skip_ws r3) as [|d r4] eqn:E3; [discriminate|].
      apply skip_ws_cons in E3.
      destruct (d =? 44)%N.
      * intros H. apply IHm in H. lia.
      * destruct (d =? 125)%N; [|discriminate].
        intros H. injection H as _ <-. lia.
    + intros s acc v r. cbn [parse_elements].
      destruct (parse_value f s) as [v0 r0| |] eqn:Ev; try discriminate.
      apply IHv in Ev.
      destruct (skip_ws r0) as [|d r1] eqn:E0; [discriminate|].
      apply skip_ws_cons in E0.
      destruct (d =? 44)%N.
      * intros H. apply IHe in H. lia.
      * destruct (d =? 93)%N; [|discriminate].
        intros H. injection H as _ <-. lia.
Qed.

Lemma of_option_fuel o : of_option o <> OutOfFuel.
Proof. destruct o as [[v r]|]; discriminate. Qed.

(** With twice the length of the text as fuel no parser runs out of it. *)
Lemma parse_value_fuel fuel :
  (forall s, (2 * List.length s + 1 <= fuel)%nat ->
             parse_value fuel s <> OutOfFuel) /\
  (forall s acc, (2 * List.length s + 1 <= fuel)%nat ->
                 parse_members fuel s acc <> OutOfFuel) /\
  (forall s acc, (2 * List.length s + 2 <= fuel)%nat ->
                 parse_elements fuel s acc <> OutOfFuel).
Proof.
  induction fuel as [|f (IHv & IHm & IHe)].
  - repeat split; intros; lia.
  - split; [|split].
    + intros s Hf. cbn [parse_value].
      destruct (skip_ws s) as [|c rest] eqn:Es; [discriminate|].
      apply skip_ws_cons in Es.
      destruct (c =? 123)%N.
      { destruct (skip_ws rest) as [|d r0] eqn:Er; [discriminate|].
        destruct (d =? 125)%N; [discriminate|]. apply IHm. lia. }
      destruct (c =? 91)%N.
      { destruct (skip_ws rest) as [|d r0] eqn:Er; [discriminate|].
        destruct (d =? 93)%N; [discriminate|]. apply IHe. lia. }
      destruct (c =? 34)%N.
      { destruct (parse_string_chars rest []) as [[str r0]|]; discriminate. }
      destruct (c =? 116)%N; [apply of_option_fuel|].
      destruct (c =? 102)%N; [apply of_option_fuel|].
      destruct (c =? 110)%N; apply of_option_fuel.
    + intros s acc Hf. cbn [parse_members].
      destruct (skip_ws s) as [|q r0] eqn:Es; [discriminate|].
      apply skip_ws_cons in Es.
      destruct (q =? 34)%N; [|discriminate].
      destruct (parse_string_chars r0 []) as [[k r1]|] eqn:Ep; [|discriminate].
      apply (parse_string_chars_length (List.length r0)) in Ep; [|lia].
      destruct (skip_ws r1) as [|colon r2] eqn:E1; [discriminate|].
      apply skip_ws_cons in E1.
      destruct (colon =? 58)%N; [|discriminate].
      destruct (parse_value f r2) as [v0 r3| |] eqn:Ev.
      * apply (proj1 (parse_value_length f)) in Ev.
        destruct (skip_ws r3) as [|d r4] eqn:E3; [discriminate|].
        apply skip_ws_cons in E3.
        destruct (d =? 44)%N; [apply IHm; lia|].
        destruct (d =? 125)%N; discriminate.
      * discriminate.
      * exfalso. revert Ev. apply IHv. lia.
    + intros s acc Hf. cbn [parse_elements].
      destruct (parse_value f s) as [v0 r0| |] eqn:Ev.
      * apply (proj1 (parse_value_length f)) in Ev.
        destruct (skip_ws r0) as [|d r1] eqn:E0; [discriminate|].
        apply skip_ws_cons in E0.
        destruct (d =? 44)%N; [apply IHe; lia|].
        destruct (d =? 93)%N; discriminate.
      * discriminate.
      * exfalso. revert Ev. apply IHv. lia.
Qed.

(** [parse] never stops for lack of fuel: its [None] is a SyntaxError. *)
Lemma parse_fuel s : parse_value (2 * List.length s + 1) s <> OutOfFuel.
Proof. apply (proj1 (parse_value_fuel _)). lia. Qed.

End JsonFacts.

(** ** Article identifiers *)

Module ApiFacts.
Import Api JSFacts Examples.

Lemma hashCode_range (str : jsstring) : (- 2 ^ 31 <= hashCode str < 2 ^ 31)%Z.
Proof.
  unfold hashCode.
  assert (H : forall l h, (- 2 ^ 31 <= h < 2 ^ 31)%Z ->
     (- 2 ^ 31 <= fold_left
        (fun hash char => ToInt32 (ToInt32 (hash * 32) - hash + Z.of_N char)%Z)
        l h < 2 ^ 31)%Z).
  { induction l as [|c l IH]; intros h Hh; simpl; [exact Hh|].
    apply IH, ToInt32_range. }
  apply H. lia.
Qed.

Lemma firstn_nonempty {A} (n : nat) (l : list A) :
  (0 < n)%nat -> l <> [] -> firstn n l <> [].
Proof. destruct n, l; simpl; intros; try lia; congruence. Qed.

Lemma fallback_id_nonempty (url : jsstring) : fallback_id url <> [].
Proof. unfold fallback_id. simpl. congruence. Qed.

End ApiFacts.

(** ** The event stream *)

Module StreamFacts.
Import Stream Notions JSFacts Examples.

Lemma split_blank_nonempty s : split_blank s <> [].
Proof.
  destruct s as [|c [|d s]]; simpl; try congruence.
  destruct (N.eqb c LF && N.eqb d LF); [congruence|apply cons_head_nonempty].
Qed.

Lemma removelast_cons_head c ps :
  ps <> [] ->
  (removelast (cons_head c ps) = [] /\ List.length ps = 1%nat) \/
  (removelast (cons_head c ps) = cons_head c (removelast ps) /\
   (1 < List.length ps)%nat).
Proof.
  destruct ps as [|p [|q ps]]; simpl; intros H; try congruence.
  - left; auto.
  - right; split; [reflexivity|lia].
Qed.

(** A split with a single piece has found no delimiter. *)
Lemma split_blank_single s p : split_blank s = [p] -> p = s.
Proof.
  revert p. induction s as [| a | a b l IHl IHbl] using list_ind2; intros p.
  - simpl. congruence.
  - simpl. congruence.
  - change (split_blank (a :: b :: l))
      with (if N.eqb a LF && N.eqb b LF then [] :: split_blank l
            else cons_head a (split_blank (b :: l))).
    destruct (N.eqb a LF && N.eqb b LF).
    + intros H. injection H as _ H. now apply split_blank_nonempty in H.
    + destruct (split_blank (b :: l)) as [|q [|r qs]] eqn:E; simpl;
        intros H; try congruence.
      * now apply split_blank_nonempty in E.
      * injection H as <-. f_equal. now apply IHbl.
Qed.

Lemma split_blank_cons_head a b l :
  N.eqb a LF && N.eqb b LF = false ->
  split_blank (a :: b :: l) = cons_head a (split_blank (b :: l)).
Proof.
  intros H. change (split_blank (a :: b :: l))
      with (if N.eqb a LF && N.eqb b LF then [] :: split_blank l
            else cons_head a (split_blank (b :: l))).
  now rewrite H.
Qed.

Lemma split_blank_delim l :
  split_blank (LF :: LF :: l) = [] :: split_blank l.
Proof. reflexivity. Qed.

(** Reading on after a split: only the last piece is looked at again. *)
Lemma split_blank_app a b :
  split_blank (a ++ b)
  = removelast (split_blank a) ++ split_blank (last (split_blank a) [] ++ b).
Proof.
  induction a as [| x | x y l IHl IHyl] using list_ind2.
  - reflexivity.
  - reflexivity.
  - destruct (N.eqb x LF && N.eqb y LF) eqn:E.
    + apply andb_true_iff in E as [Ex Ey].
      apply N.eqb_eq in Ex, Ey. subst x y.
      change ((LF :: LF :: l) ++ b) with (LF :: LF :: (l ++ b)).
      rewrite !split_blank_delim, IHl.
      destruct (split_blank l) as [|p ps] eqn:El;
        [now apply split_blank_nonempty in El|].
      reflexivity.
    + change ((x :: y :: l) ++ b) with (x :: y :: (l ++ b)).
      rewrite !split_blank_cons_head by exact E.
      change (y :: l ++ b) with ((y :: l) ++ b). rewrite IHyl.
      destruct (removelast_cons_head x _ (split_blank_nonempty (y :: l)))
        as [[Hr Hlen]|[Hr Hlen]].
      * destruct (split_blank (y :: l)) as [|p [|q ps]] eqn:El;
          simpl in Hlen; try lia.
        apply split_blank_single in El. subst p.
        change (removelast (cons_head x [y :: l])) with (@nil jsstring).
        change (last (cons_head x [y :: l]) []) with (x :: y :: l).
        change (removelast [y :: l]) with (@nil jsstring).
        change (last [y :: l] []) with (y :: l).
        rewrite !app_nil_l.
        change ((x :: y :: l) ++ b) with (x :: y :: (l ++ b)).
        now rewrite split_blank_cons_head.
      * rewrite Hr, last_cons_head by exact Hlen.
        destruct (split_blank (y :: l)) as [|p [|q ps]] eqn:El;
          simpl in Hlen; try lia.
        reflexivity.
Qed.

Lemma split_blank_last_stable s :
  split_blank (last (split_blank s) []) = [last (split_blank s) []].
Proof.
  induction s as [| x | x y l IHl IHyl] using list_ind2.
  - reflexivity.
  - reflexivity.
  - destruct (N.eqb x LF && N.eqb y LF) eqn:E.
    + apply andb_true_iff in E as [Ex Ey].
      apply N.eqb_eq in Ex, Ey. subst x y.
      rewrite split_blank_delim.
      destruct (split_blank l) as [|p ps] eqn:El;
        [now apply split_blank_nonempty in El|].
      exact IHl.
    + rewrite split_blank_cons_head by exact E.
      destruct (split_blank (y :: l)) as [|p [|q ps]] eqn:El.
      * now apply split_blank_nonempty in El.
      * pose proof (split_blank_single _ _ El) as Hp. subst p.
        change (last (cons_head x [y :: l]) []) with (x :: y :: l).
        rewrite split_blank_cons_head by exact E.
        now rewrite El.
      * exact IHyl.
Qed.

Section Demux.
Variable JSON_parse : jsstring -> option json.

(** The loop over the chunks does what one split of the whole text does:
    every piece but the last is processed, in order. *)
Lemma read_loop_whole chunks : forall buffer,
  split_blank buffer = [buffer] ->
  read_loop JSON_parse buffer chunks
  = flat_map (process_event JSON_parse)
             (removelast (split_blank (buffer ++ List.concat chunks))).
Proof.
  induction chunks as [|value chunks IH]; intros buffer Hb.
  - simpl. rewrite app_nil_r, Hb. reflexivity.
  - simpl. rewrite IH by apply split_blank_last_stable.
    rewrite app_assoc, (split_blank_app (buffer ++ value)).
    rewrite removelast_app_r by apply split_blank_nonempty.
    now rewrite flat_map_app.
Qed.

Lemma split_blank_framed b rest :
  no_blank_line b = true ->
  split_blank (framed b ++ rest) = b :: split_blank rest.
Proof.
  unfold framed. induction b as [| x | x y l IHl IHyl] using list_ind2;
    intros H.
  - reflexivity.
  - simpl in H. apply negb_true_iff in H.
    change (([x] ++ [LF; LF]) ++ rest) with (x :: LF :: LF :: rest).
    rewrite split_blank_cons_head by (now rewrite H).
    rewrite split_blank_delim. reflexivity.
  - change (no_blank_line (x :: y :: l))
      with (negb (N.eqb x LF && N.eqb y LF) && no_blank_line (y :: l)) in H.
    apply andb_true_iff in H as [H1 H2]. apply negb_true_iff in H1.
    change (((x :: y :: l) ++ [LF; LF]) ++ rest)
      with (x :: y :: ((l ++ [LF; LF]) ++ rest)).
    rewrite split_blank_cons_head by exact H1.
    change (y :: (l ++ [LF; LF]) ++ rest)
      with (((y :: l) ++ [LF; LF]) ++ rest).
    rewrite IHyl by exact H2. reflexivity.
Qed.

Lemma split_blank_wire blocks :
  Forall (fun b => no_blank_line b = true) blocks ->
  split_blank (wire blocks) = blocks ++ [[]].
Proof.
  induction 1 as [|b blocks Hb _ IH]; [reflexivity|].
  unfold wire in *. simpl. rewrite split_blank_framed by exact Hb.
  now rewrite IH.
Qed.

(** Whatever the chunks, a text of terminated blocks is processed block
    by block. *)
Lemma read_loop_wire chunks blocks :
  Forall (fun b => no_blank_line b = true) blocks ->
  List.concat chunks = wire blocks ->
  read_loop JSON_parse [] chunks
  = flat_map (process_event JSON_parse) blocks.
Proof.
  intros Hb Hc. rewrite read_loop_whole by reflexivity.
  simpl. rewrite Hc, split_blank_wire by exact Hb.
  now rewrite removelast_last.
Qed.

(** A text without a blank line is one piece. *)
Lemma split_blank_undelimited s :
  Texts.occurs [LF; LF] s = false -> split_blank s = [s].
Proof.
  induction s as [| x | x y l IHl IHyl] using list_ind2; intros H.
  - reflexivity.
  - reflexivity.
  - change (Texts.occurs [LF; LF] (x :: y :: l))
      with (N.eqb x LF && (N.eqb y LF && true)
            || Texts.occurs [LF; LF] (y :: l)) in H.
    apply orb_false_iff in H as [H1 H2]. rewrite andb_true_r in H1.
    rewrite split_blank_cons_head by exact H1.
    now rewrite (IHyl H2).
Qed.

Lemma no_blank_line_undelimited b :
  no_blank_line b = true -> Texts.occurs [LF; LF] b = false.
Proof.
  induction b as [| x | x y l IHl IHyl] using list_ind2; intros H.
  - reflexivity.
  - change (Texts.occurs [LF; LF] [x]) with (N.eqb x LF && false || false).
    now rewrite andb_false_r.
  - change (no_blank_line (x :: y :: l))
      with (negb (N.eqb x LF && N.eqb y LF) && no_blank_line (y :: l)) in H.
    apply andb_true_iff in H as [H1 H2]. apply negb_true_iff in H1.
    change (Texts.occurs [LF; LF] (x :: y :: l))
      with (N.eqb x LF && (N.eqb y LF && true)
            || Texts.occurs [LF; LF] (y :: l)).
    now rewrite andb_true_r, H1, (IHyl H2).
Qed.

Lemma split_blank_wire_rest blocks rest :
  Forall (fun b => no_blank_line b = true) blocks ->
  split_blank (wire blocks ++ rest) = blocks ++ split_blank rest.
Proof.
  induction 1 as [|b blocks Hb _ IH]; [reflexivity|].
  unfold wire in *. simpl.
  rewrite <- app_assoc, split_blank_framed by exact Hb.
  now rewrite IH.
Qed.

(** Whatever the chunks, the text after the last delimiter is left in the
    buffer: the blocks before it are processed, and nothing else. *)
Lemma read_loop_wire_rest chunks blocks rest :
  Forall (fun b => no_blank_line b = true) blocks ->
  Texts.occurs [LF; LF] rest = false ->
  List.concat chunks = wire blocks ++ rest ->
  read_loop JSON_parse [] chunks
  = flat_map (process_event JSON_parse) blocks.
Proof.
  intros Hb Hr Hc. rewrite read_loop_whole by reflexivity.
  simpl. rewrite Hc, split_blank_wire_rest by exact Hb.
  rewrite split_blank_undelimited by exact Hr.
  now rewrite removelast_last.
Qed.

End Demux.


Lemma yields_app es es' : yields (es ++ es') = yields es ++ yields es'.
Proof. unfold yields. apply flat_map_app. Qed.

Lemma yields_flat_map {A} (f : A -> list Emit) (l : list A) :
  yields (flat_map f l) = flat_map (fun x => yields (f x)) l.
Proof.
  induction l as [|x l IH]; [reflexivity|].
  simpl. now rewrite yields_app, IH.
Qed.

Lemma valid_blocks_delimited JSON_parse blocks :
  Forall (valid_block JSON_parse) blocks ->
  Forall (fun b => no_blank_line b = true) blocks.
Proof. apply Forall_impl. now intros b [H _]. Qed.

Lemma valid_blocks_count JSON_parse blocks :
  Forall (valid_block JSON_parse) blocks ->
  List.length (flat_map (fun b => yields (process_event JSON_parse b)) blocks)
  = List.length blocks.
Proof.
  induction 1 as [|b blocks [_ [e He]] _ IH]; [reflexivity|].
  simpl. rewrite He, length_app, IH. reflexivity.
Qed.

(** *** Blocks as the server writes them *)

Lemma split_char_LF_free s : LF_free s = true -> split_char LF s = [s].
Proof.
  induction s as [|c s IH]; [reflexivity|].
  simpl. intros H. apply andb_true_iff in H as [Hc Hs].
  apply negb_true_iff in Hc. rewrite Hc, IH by exact Hs. reflexivity.
Qed.

Lemma split_char_LF_app a b :
  LF_free a = true -> split_char LF (a ++ [LF] ++ b) = a :: split_char LF b.
Proof.
  induction a as [|c a IH]; [reflexivity|].
  intros H. simpl in H. apply andb_true_iff in H as [Hc Ha].
  apply negb_true_iff in Hc.
  change ((c :: a) ++ [LF] ++ b) with (c :: (a ++ [LF] ++ b)).
  cbn [split_char]. rewrite Hc, IH by exact Ha. reflexivity.
Qed.

Lemma LF_free_app a b : LF_free (a ++ b) = LF_free a && LF_free b.
Proof. apply forallb_app. Qed.

Lemma scan_lines_event_block ty payload :
  LF_free ty = true -> LF_free payload = true ->
  scan_lines (event_block ty payload) = (ty, payload).
Proof.
  intros Hty Hp. unfold scan_lines, event_block.
  rewrite app_assoc, split_char_LF_app
    by (rewrite LF_free_app, Hty; reflexivity).
  rewrite split_char_LF_free by (rewrite LF_free_app, Hp; reflexivity).
  reflexivity.
Qed.

Lemma trimStart_keeps c s :
  In c s -> isWhiteSpace c = false -> trimStart s <> [].
Proof.
  induction s as [|x s IH]; [contradiction|].
  intros [->|Hin] Hc; simpl.
  - rewrite Hc. congruence.
  - destruct (isWhiteSpace x); [now apply IH|congruence].
Qed.

Lemma trim_nonempty c s : isWhiteSpace c = false -> trim (c :: s) <> [].
Proof.
  intros Hc. unfold trim, trimEnd. cbn [trimStart]. rewrite Hc.
  intros H. apply (f_equal (@rev N)) in H. rewrite rev_involutive in H.
  revert H. apply (trimStart_keeps c); [|exact Hc].
  apply -> in_rev. now left.
Qed.

Lemma trim_event_block ty payload :
  truthy (trim (event_block ty payload)) = true.
Proof. apply truthy_nonempty. now apply trim_nonempty. Qed.

Lemma no_blank_line_LF_free s :
  LF_free s = true -> no_blank_line s = true.
Proof.
  induction s as [| x | x y l IHl IHyl] using list_ind2; intros H.
  - reflexivity.
  - simpl in *. now rewrite andb_true_r in H.
  - change (no_blank_line (x :: y :: l))
      with (negb (N.eqb x LF && N.eqb y LF) && no_blank_line (y :: l)).
    simpl in H. apply andb_true_iff in H as [Hx H].
    apply negb_true_iff in Hx. rewrite Hx. simpl.
    apply IHyl. exact H.
Qed.

Lemma no_blank_line_app a c b :
  LF_free a = true -> N.eqb c LF = false -> no_blank_line (c :: b) = true ->
  no_blank_line (a ++ LF :: c :: b) = true.
Proof.
  intros Ha Hc Hb.
  induction a as [| x | x y l IHl IHyl] using list_ind2.
  - change (no_blank_line ([] ++ LF :: c :: b))
      with (negb (N.eqb LF LF && N.eqb c LF) && no_blank_line (c :: b)).
    rewrite Hc, Hb. reflexivity.
  - simpl in Ha. rewrite andb_true_r in Ha. apply negb_true_iff in Ha.
    change (no_blank_line ([x] ++ LF :: c :: b))
      with (negb (N.eqb x LF && N.eqb LF LF)
            && (negb (N.eqb LF LF && N.eqb c LF) && no_blank_line (c :: b))).
    rewrite Ha, Hc, Hb. reflexivity.
  - simpl in Ha. apply andb_true_iff in Ha as [Hx Ha].
    apply negb_true_iff in Hx.
    change (no_blank_line ((x :: y :: l) ++ LF :: c :: b))
      with (negb (N.eqb x LF && N.eqb y LF)
            && no_blank_line ((y :: l) ++ LF :: c :: b)).
    rewrite Hx. simpl. apply IHyl. exact Ha.
Qed.

Lemma no_blank_line_event_block ty payload :
  LF_free ty = true -> LF_free payload = true ->
  no_blank_line (event_block ty payload) = true.
Proof.
  intros Hty Hp. unfold event_block. rewrite app_assoc.
  change ([LF] ++ js "data: " ++ payload)
    with (LF :: 100%N :: (js "ata: " ++ payload)).
  apply no_blank_line_app.
  - rewrite LF_free_app, Hty. reflexivity.
  - reflexivity.
  - apply no_blank_line_LF_free.
    change (100%N :: js "ata: " ++ payload) with (js "data: " ++ payload).
    rewrite LF_free_app, Hp. reflexivity.
Qed.

(** A block of the four event types with a payload that decodes (to
    something other than [null] where a member of it is read) is valid. *)
Lemma event_block_valid JSON_parse ty payload parsed :
  In ty [js "thinking"; js "content"; js "done"; js "error"] ->
  payload <> [] -> LF_free payload = true ->
  JSON_parse payload = Some parsed ->
  (ty <> js "done" -> parsed <> JNull) ->
  valid_block JSON_parse (event_block ty payload).
Proof.
  intros Hty Hne Hfree Hparse Hnull.
  assert (Hfty : LF_free ty = true).
  { destruct Hty as [<-|[<-|[<-|[<-|[]]]]]; reflexivity. }
  split; [now apply no_blank_line_event_block|].
  unfold process_event.
  rewrite trim_event_block, scan_lines_event_block by assumption.
  simpl negb. cbv iota.
  destruct payload as [|c0 payload]; [congruence|].
  simpl truthy. simpl negb. cbv iota. rewrite Hparse.
  destruct Hty as [<-|[<-|[<-|[<-|[]]]]].
  - assert (Hn : parsed <> JNull) by (apply Hnull; discriminate).
    simpl. destruct parsed; try congruence; eexists; reflexivity.
  - assert (Hn : parsed <> JNull) by (apply Hnull; discriminate).
    simpl. destruct parsed; try congruence; eexists; reflexivity.
  - simpl. eexists; reflexivity.
  - assert (Hn : parsed <> JNull) by (apply Hnull; discriminate).
    simpl. destruct parsed; try congruence; eexists; reflexivity.
Qed.

Lemma done_block_valid JSON_parse payload parsed :
  payload <> [] -> LF_free payload = true ->
  JSON_parse payload = Some parsed ->
  valid_done_block JSON_parse (event_block (js "done") payload).
Proof.
  intros Hne Hfree Hparse.
  split; [now apply no_blank_line_event_block|].
  unfold process_event.
  rewrite trim_event_block, scan_lines_event_block by (assumption || reflexivity).
  simpl negb. cbv iota.
  destruct payload as [|c0 payload]; [congruence|].
  simpl truthy. simpl negb. cbv iota. rewrite Hparse.
  exists parsed. reflexivity.
Qed.

(** C3, as amended: when every block, the trailing [done] block included,
    is followed by its blank-line delimiter, the generator yields one event
    per block, in the order of the blocks and ending with the [done] event,
    however the text is cut into chunks.  When the trailing [done] block is
    not followed by the delimiter before the end of the input, alone or with
    more text that holds no blank line after it, the generator yields the
    events of the blocks before it and nothing for the trailing block,
    however the text is cut into chunks. *)
Theorem demux_terminated_blocks :
  forall JSON_parse tem (v : Variant) (chunks blocks : list jsstring)
         (final : jsstring),
    Forall (valid_block JSON_parse) blocks ->
    valid_done_block JSON_parse final ->
    let out := yields (fst (stream JSON_parse tem v (Body chunks None))) in
    (List.concat chunks = wire (blocks ++ [final]) ->
     out = flat_map (fun b => yields (process_event JSON_parse b))
                    (blocks ++ [final]) /\
     List.length out = S (List.length blocks) /\
     exists payload, last out (mkEvent done JNull) = mkEvent done payload) /\
    (List.concat chunks = wire blocks ++ final ->
     out = flat_map (fun b => yields (process_event JSON_parse b)) blocks /\
     List.length out = List.length blocks) /\
    (forall tail : jsstring,
        Texts.occurs [LF; LF] (final ++ tail) = false ->
        List.concat chunks = wire blocks ++ final ++ tail ->
        out = flat_map (fun b => yields (process_event JSON_parse b)) blocks /\
        List.length out = List.length blocks).
Proof.
  intros JSON_parse tem v chunks blocks final Hblocks [Hfd [payload Hfp]] out.
  assert (Hrest : forall rest,
             Texts.occurs [LF; LF] rest = false ->
             List.concat chunks = wire blocks ++ rest ->
             out = flat_map (fun b => yields (process_event JSON_parse b)) blocks /\
             List.length out = List.length blocks).
  { intros rest Hr Hc.
    assert (Hout : out = flat_map (fun b => yields (process_event JSON_parse b))
                                  blocks).
    { subst out. simpl.
      rewrite (read_loop_wire_rest JSON_parse chunks blocks rest).
      - apply yields_flat_map.
      - now apply valid_blocks_delimited with JSON_parse.
      - exact Hr.
      - exact Hc. }
    split; [exact Hout|].
    rewrite Hout. now apply valid_blocks_count. }
  split; [|split].
  - intros Hc.
    assert (Hout : out = flat_map (fun b => yields (process_event JSON_parse b))
                                  (blocks ++ [final])).
    { subst out. simpl.
      rewrite (read_loop_wire JSON_parse chunks (blocks ++ [final])).
      - apply yields_flat_map.
      - apply Forall_app; split.
        + now apply valid_blocks_delimited with JSON_parse.
        + now constructor.
      - exact Hc. }
    split; [exact Hout|].
    rewrite Hout, flat_map_app. simpl. rewrite Hfp. simpl.
    split.
    + rewrite length_app, valid_blocks_count by exact Hblocks. simpl. lia.
    + exists payload. now rewrite last_last.
  - intros Hc. apply (Hrest final); [|exact Hc].
    now apply no_blank_line_undelimited.
  - intros tail Hr Hc. now apply (Hrest (final ++ tail)).
Qed.

Lemma demux_terminated_blocks_witness :
  Forall (valid_block Json.parse) [thinking_block] /\
  valid_done_block Json.parse done_block /\
  List.concat [js "event: thin"; js "king" ++ [LF] ++ js "data: {}" ++ [LF];
               [LF] ++ js "event: done" ++ [LF] ++ js "data: {}" ++ [LF; LF]]
  = wire ([thinking_block] ++ [done_block]) /\
  List.length
    (yields (fst (stream Json.parse v8_TypeError_message Summarize
       (Body [js "event: thin"; js "king" ++ [LF] ++ js "data: {}" ++ [LF];
              [LF] ++ js "event: done" ++ [LF] ++ js "data: {}" ++ [LF; LF]]
             None))))
  = 2%nat /\
  List.length
    (yields (fst (stream Json.parse v8_TypeError_message Script
       (Body [framed thinking_block; done_block ++ [LF]] None))))
  = 1%nat.
Proof.
  assert (H1 : Forall (valid_block Json.parse) [thinking_block]).
  { constructor; [|constructor]. split; [reflexivity|].
    eexists. vm_compute. reflexivity. }
  assert (H2 : valid_done_block Json.parse done_block).
  { split; [reflexivity|]. eexists. vm_compute. reflexivity. }
  assert (H3 : List.concat
                 [js "event: thin"; js "king" ++ [LF] ++ js "data: {}" ++ [LF];
                  [LF] ++ js "event: done" ++ [LF] ++ js "data: {}" ++ [LF; LF]]
               = wire ([thinking_block] ++ [done_block])) by reflexivity.
  refine (conj H1 (conj H2 (conj H3 (conj _ _)))).
  - exact (proj1 (proj2 (proj1 (demux_terminated_blocks
                                  Json.parse v8_TypeError_message Summarize
                                  _ _ _ H1 H2) H3))).
  - exact (proj2 (proj2 (proj2 (demux_terminated_blocks
                                  Json.parse v8_TypeError_message Script
                                  [framed thinking_block; done_block ++ [LF]]
                                  [thinking_block] done_block H1 H2))
                        [LF] eq_refl eq_refl)).
Defined.

(** C3, counterexample: a trailing [done] block that is not followed by the
    blank line before the end of the input is never yielded; here one valid
    block and the valid trailing block give one event, not two. *)
Lemma demux_unterminated_final_block_lost :
  valid_block Json.parse thinking_block /\
  valid_done_block Json.parse done_block /\
  yields (fst (summarizeStream Json.parse v8_TypeError_message
                 (Body [framed thinking_block ++ done_block] None)))
  = [mkEvent thinking (JStr [])] /\
  yields (fst (generateScriptStream Json.parse v8_TypeError_message
                 (Body [framed thinking_block; done_block] None)))
  = [mkEvent thinking (JStr [])].
Proof.
  split; [|split; [|split]].
  - split; [reflexivity|]. eexists. vm_compute. reflexivity.
  - split; [reflexivity|]. eexists. vm_compute. reflexivity.
  - vm_compute. reflexivity.
  - vm_compute. reflexivity.
Qed.

(** C8: a block whose payload [JSON.parse] refuses gives the diagnostic and
    no event; the generator does not throw, and the blocks before and after
    it are processed as if it were not there. *)
Theorem undecodable_block_dropped :
  forall JSON_parse tem (v : Variant) (chunks pre post : list jsstring)
         (bad payload : jsstring),
    Forall (fun b => no_blank_line b = true) (pre ++ post) ->
    undecodable_block JSON_parse bad payload ->
    List.concat chunks = wire (pre ++ bad :: post) ->
    let r := stream JSON_parse tem v (Body chunks None) in
    snd r = Returned /\
    process_event JSON_parse bad = [Warn payload] /\
    fst r = flat_map (process_event JSON_parse) pre ++ [Warn payload]
            ++ flat_map (process_event JSON_parse) post /\
    yields (fst r)
    = yields (flat_map (process_event JSON_parse) (pre ++ post)).
Proof.
  intros JSON_parse tem v chunks pre post bad payload Hfree
         (Hbad & Htrim & Hscan & Hne & Hparse) Hc r.
  assert (Hpe : process_event JSON_parse bad = [Warn payload]).
  { unfold process_event. rewrite Htrim. simpl.
    destruct (scan_lines bad) as [ty d]. simpl in Hscan. subst d.
    destruct payload as [|c payload]; [congruence|]. simpl.
    now rewrite Hparse. }
  apply Forall_app in Hfree as [Hpre Hpost].
  assert (Hfst : fst r = flat_map (process_event JSON_parse) pre
                         ++ [Warn payload]
                         ++ flat_map (process_event JSON_parse) post).
  { subst r. simpl.
    rewrite (read_loop_wire JSON_parse chunks (pre ++ bad :: post)).
    - rewrite flat_map_app. simpl. now rewrite Hpe.
    - apply Forall_app; split; [exact Hpre|now constructor].
    - exact Hc. }
  split; [reflexivity|split; [exact Hpe|split; [exact Hfst|]]].
  rewrite Hfst, flat_map_app, !yields_app. reflexivity.
Qed.

Lemma undecodable_block_dropped_witness :
  Forall (fun b => no_blank_line b = true) ([thinking_block] ++ [done_block]) /\
  undecodable_block Json.parse broken_block (js "{oops") /\
  List.concat [framed thinking_block ++ js "event: content" ++ [LF];
               js "data: {oo"; js "ps" ++ [LF]; [LF] ++ framed done_block]
  = wire ([thinking_block] ++ broken_block :: [done_block]) /\
  yields (fst (stream Json.parse v8_TypeError_message Script
     (Body [framed thinking_block ++ js "event: content" ++ [LF];
            js "data: {oo"; js "ps" ++ [LF]; [LF] ++ framed done_block] None)))
  = [mkEvent thinking (JStr []); mkEvent done (JObj [])].
Proof.
  assert (H1 : Forall (fun b => no_blank_line b = true)
                      ([thinking_block] ++ [done_block])).
  { repeat constructor. }
  assert (H2 : undecodable_block Json.parse broken_block (js "{oops")).
  { repeat split; try reflexivity. discriminate. }
  assert (H3 : List.concat
                 [framed thinking_block ++ js "event: content" ++ [LF];
                  js "data: {oo"; js "ps" ++ [LF]; [LF] ++ framed done_block]
               = wire ([thinking_block] ++ broken_block :: [done_block]))
    by reflexivity.
  refine (conj H1 (conj H2 (conj H3 _))).
  destruct (undecodable_block_dropped
              Json.parse v8_TypeError_message Script _ _ _ _ _ H1 H2 H3)
    as (_ & _ & _ & H).
  rewrite H. vm_compute. reflexivity.
Defined.

End StreamFacts.

(** ** The reasoning sub-parser *)

Module ThinkFacts.
Import Think Notions JSFacts Examples.

(** *** The split into blocks *)

Lemma split_blocks_step a b l :
  split_blocks (a :: b :: l)
  = if N.eqb a LF && N.eqb b LF && startsWith l [STAR; STAR]
    then [] :: split_blocks l
    else cons_head a (split_blocks (b :: l)).
Proof. reflexivity. Qed.

Lemma split_blocks_nonempty s : split_blocks s <> [].
Proof.
  destruct s as [|c [|d s]]; try (simpl; congruence).
  rewrite split_blocks_step.
  destruct (_ && _); [congruence|apply cons_head_nonempty].
Qed.

Lemma split_blocks_single s p : split_blocks s = [p] -> p = s.
Proof.
  revert p. induction s as [| a | a b l IHl IHbl] using list_ind2; intros p.
  - simpl. congruence.
  - simpl. congruence.
  - rewrite split_blocks_step. destruct (_ && _).
    + intros H. injection H as _ H. now apply split_blocks_nonempty in H.
    + destruct (split_blocks (b :: l)) as [|q [|r qs]] eqn:E; simpl;
        intros H; try congruence.
      * now apply split_blocks_nonempty in E.
      * injection H as <-. f_equal. now apply IHbl.
Qed.

Lemma split_blocks_short s :
  (List.length s <= 3)%nat -> split_blocks s = [s].
Proof.
  destruct s as [|a [|b [|c [|d s]]]]; simpl; intros H; try lia;
    try reflexivity.
  - destruct (N.eqb a LF), (N.eqb b LF); reflexivity.
  - destruct (N.eqb a LF), (N.eqb b LF), (N.eqb c LF), (N.eqb c STAR);
      reflexivity.
Qed.

Lemma split_blocks_several_length s p q ps :
  split_blocks s = p :: q :: ps -> (4 <= List.length s)%nat.
Proof.
  intros H. destruct (Nat.le_gt_cases (List.length s) 3) as [Hle|Hgt]; [|lia].
  rewrite split_blocks_short in H by exact Hle. discriminate.
Qed.

(** Reading on after a split: only the last block is looked at again. *)
Lemma split_blocks_app a b :
  split_blocks (a ++ b)
  = removelast (split_blocks a)
    ++ split_blocks (last (split_blocks a) [] ++ b).
Proof.
  induction a as [| x | x y l IHl IHyl] using list_ind2.
  - reflexivity.
  - reflexivity.
  - destruct (split_blocks (x :: y :: l)) as [|p [|q ps]] eqn:Ea.
    + now apply split_blocks_nonempty in Ea.
    + apply split_blocks_single in Ea. subst p. reflexivity.
    + pose proof (split_blocks_several_length _ _ _ _ Ea) as Hlen.
      simpl in Hlen.
      revert Ea. rewrite split_blocks_step.
      change ((x :: y :: l) ++ b) with (x :: y :: (l ++ b)).
      rewrite split_blocks_step.
      rewrite (startsWith_app l b [STAR; STAR]) by (simpl; lia).
      destruct (N.eqb x LF && N.eqb y LF && startsWith l [STAR; STAR]).
      * intros Ea. injection Ea as <- Ea. rewrite IHl, Ea.
        destruct ps; reflexivity.
      * change (y :: l ++ b) with ((y :: l) ++ b). rewrite IHyl.
        destruct (split_blocks (y :: l)) as [|p' [|q' ps']] eqn:El.
        -- now apply split_blocks_nonempty in El.
        -- simpl. discriminate.
        -- simpl. intros Ea. injection Ea as <- <- <-. reflexivity.
Qed.

Lemma join_blocks_cons b bs :
  bs <> [] -> join_blocks (b :: bs) = b ++ [LF; LF] ++ join_blocks bs.
Proof. destruct bs; [congruence|reflexivity]. Qed.

Lemma join_blocks_cons_head c bs :
  bs <> [] -> join_blocks (cons_head c bs) = c :: join_blocks bs.
Proof. destruct bs as [|b [|b' bs]]; try congruence; reflexivity. Qed.

(** The blocks, put together with blank lines, give the buffer back. *)
Lemma join_split_blocks s : join_blocks (split_blocks s) = s.
Proof.
  induction s as [| x | x y l IHl IHyl] using list_ind2.
  - reflexivity.
  - reflexivity.
  - rewrite split_blocks_step.
    destruct (N.eqb x LF && N.eqb y LF && startsWith l [STAR; STAR]) eqn:E.
    + apply andb_true_iff in E as [E _]. apply andb_true_iff in E as [Ex Ey].
      apply N.eqb_eq in Ex, Ey. subst x y.
      rewrite join_blocks_cons by apply split_blocks_nonempty.
      now rewrite IHl.
    + rewrite join_blocks_cons_head by apply split_blocks_nonempty.
      now rewrite IHyl.
Qed.

(** Every block after the first starts with the two asterisks. *)
Lemma split_blocks_tail_starred s :
  Forall (fun b => startsWith b [STAR; STAR] = true) (tl (split_blocks s)).
Proof.
  induction s as [| x | x y l IHl IHyl] using list_ind2.
  - constructor.
  - constructor.
  - rewrite split_blocks_step.
    destruct (N.eqb x LF && N.eqb y LF && startsWith l [STAR; STAR]) eqn:E.
    + apply andb_true_iff in E as [_ E]. simpl.
      destruct (split_blocks l) as [|p ps] eqn:El;
        [now apply split_blocks_nonempty in El|].
      constructor; [|exact IHl].
      (* the first block of [l] starts like [l] *)
      clear IHl IHyl. apply startsWith_split in E.
      remember (skipn (List.length [STAR; STAR]) l) as l' eqn:El'.
      clear El'. subst l. simpl app in El.
      revert p ps El. rename l' into l.
      intros p ps. rewrite split_blocks_step.
      change (N.eqb STAR LF) with false. simpl andb. cbv iota.
      destruct l as [|s3 l].
      * simpl. intros H. injection H as <- <-. reflexivity.
      * rewrite split_blocks_step.
        change (N.eqb STAR LF) with false. simpl andb. cbv iota.
        destruct (split_blocks (s3 :: l)) as [|p' ps'] eqn:E3;
          [now apply split_blocks_nonempty in E3|].
        simpl. intros H. injection H as <- <-.
        apply (startsWith_prefix [STAR; STAR] p').
    + destruct (split_blocks (y :: l)) as [|p ps] eqn:El;
        [now apply split_blocks_nonempty in El|].
      exact IHyl.
Qed.

(** A buffer without a heading boundary is one block. *)
Lemma split_blocks_no_boundary s :
  has_boundary s = false -> split_blocks s = [s].
Proof.
  induction s as [| x | x y l IHl IHyl] using list_ind2; intros H.
  - reflexivity.
  - reflexivity.
  - rewrite split_blocks_step.
    change (has_boundary (x :: y :: l))
      with (startsWith (x :: y :: l) boundary || has_boundary (y :: l)) in H.
    apply orb_false_iff in H as [H1 H2].
    change (startsWith (x :: y :: l) boundary)
      with (N.eqb x LF && (N.eqb y LF && startsWith l [STAR; STAR])) in H1.
    rewrite <- andb_assoc, H1, IHyl by exact H2. reflexivity.
Qed.

(** No block holds a heading boundary: the split is made at each of them. *)
Lemma first_block_prefix s :
  exists rest, s = hd [] (split_blocks s) ++ rest.
Proof.
  induction s as [| x | x y l IHl IHyl] using list_ind2.
  - exists []. reflexivity.
  - exists []. reflexivity.
  - rewrite split_blocks_step. destruct (_ && _).
    + exists (x :: y :: l). reflexivity.
    + destruct IHyl as [rest Hr].
      destruct (split_blocks (y :: l)) as [|p ps] eqn:El;
        [now apply split_blocks_nonempty in El|].
      simpl in *. exists rest. now rewrite Hr at 1.
Qed.

Lemma split_blocks_boundary_free s :
  Forall (fun b => has_boundary b = false) (split_blocks s).
Proof.
  induction s as [| x | x y l IHl IHyl] using list_ind2.
  - repeat constructor.
  - constructor; [|constructor]. simpl. now destruct (N.eqb x LF).
  - rewrite split_blocks_step.
    destruct (N.eqb x LF && N.eqb y LF && startsWith l [STAR; STAR]) eqn:E.
    + constructor; [reflexivity|exact IHl].
    + destruct (first_block_prefix (y :: l)) as [rest Hr].
      destruct (split_blocks (y :: l)) as [|p ps] eqn:El;
        [now apply split_blocks_nonempty in El|].
      simpl in Hr. simpl cons_head.
      inversion IHyl as [|? ? Hp Hps]; subst.
      constructor; [|exact Hps].
      destruct p as [|p0 p]; [simpl; now destruct (N.eqb x LF)|].
      change (has_boundary (x :: p0 :: p))
        with (startsWith (x :: p0 :: p) boundary || has_boundary (p0 :: p)).
      rewrite Hp, orb_false_r.
      destruct (startsWith (x :: p0 :: p) boundary) eqn:Hs; [|reflexivity].
      apply (startsWith_true_app _ rest) in Hs.
      change ((x :: p0 :: p) ++ rest) with (x :: ((p0 :: p) ++ rest)) in Hs.
      rewrite <- Hr in Hs.
      change (startsWith (x :: y :: l) boundary)
        with (N.eqb x LF && (N.eqb y LF && startsWith l [STAR; STAR])) in Hs.
      rewrite andb_assoc in Hs. congruence.
Qed.


(** *** The heading of a block *)

Lemma heading_run_tail c t :
  t <> [] -> heading_run (c :: t) ->
  heading_run t /\ startsWith (t ++ [STAR; STAR]) [STAR; STAR] = false.
Proof.
  intros Ht (_ & Hall & Hmin). inversion Hall as [|? ? Hc Ht']; subst.
  split; [split; [exact Ht|split; [exact Ht'|]]|].
  - intros j Hj. apply (Hmin (S j)). simpl. lia.
  - apply (Hmin 1%nat). destruct t; [congruence|simpl; lia].
Qed.

Lemma lazy_dots_sound s h rest :
  lazy_dots s = Some (h, rest) ->
  s = h ++ [STAR; STAR] ++ rest /\ heading_run h.
Proof.
  revert h rest. induction s as [|c s IH]; intros h rest; [discriminate|].
  cbn [lazy_dots]. destruct (isLineTerminator c) eqn:Hc; [discriminate|].
  destruct (startsWith s [STAR; STAR]) eqn:Hs.
  - intros H. injection H as <- <-.
    apply startsWith_split in Hs.
    split; [simpl; f_equal; exact Hs|].
    split; [congruence|split; [now repeat constructor|]].
    simpl. intros j Hj. lia.
  - destruct (lazy_dots s) as [[t r]|] eqn:Hl; [|discriminate].
    intros H. injection H as <- <-.
    destruct (IH t r eq_refl) as (Hst & Hne & Hall & Hmin).
    split; [simpl; f_equal; exact Hst|].
    split; [congruence|split; [now constructor|]].
    intros [|[|j]] Hj; [lia| |].
    + simpl. rewrite Hst in Hs.
      rewrite app_assoc, startsWith_app in Hs; [exact Hs|].
      rewrite length_app. simpl. lia.
    + apply (Hmin (S j)). simpl in Hj. lia.
Qed.

Lemma lazy_dots_complete h rest :
  heading_run h -> lazy_dots (h ++ [STAR; STAR] ++ rest) = Some (h, rest).
Proof.
  induction h as [|c t IH]; intros Hrun; [now destruct Hrun|].
  destruct Hrun as (Hne & Hall & Hmin) eqn:Erun.
  inversion Hall as [|? ? Hc Ht]; subst.
  change ((c :: t) ++ [STAR; STAR] ++ rest)
    with (c :: (t ++ [STAR; STAR] ++ rest)).
  cbn [lazy_dots]. rewrite Hc.
  destruct t as [|d t].
  - change ([] ++ [STAR; STAR] ++ rest) with ([STAR; STAR] ++ rest).
    rewrite startsWith_prefix. reflexivity.
  - destruct (heading_run_tail c (d :: t)) as [Hrun' Hs];
      [congruence|repeat split; assumption|].
    rewrite app_assoc, startsWith_app, Hs
      by (rewrite length_app; simpl; lia).
    rewrite <- app_assoc, IH by exact Hrun'. reflexivity.
Qed.

Lemma is_heading_run block h rest :
  is_heading block h rest <->
  block = [STAR; STAR] ++ h ++ [STAR; STAR] ++ rest /\ heading_run h.
Proof. unfold is_heading, heading_run. tauto. Qed.

(** [heading_match] finds the heading of a block, and only that. *)
Lemma heading_match_spec block h rest :
  heading_match block = Some (h, rest) <-> is_heading block h rest.
Proof.
  rewrite is_heading_run. unfold heading_match. split.
  - destruct (startsWith block [STAR; STAR]) eqn:Hs; [|discriminate].
    intros H. apply lazy_dots_sound in H as [Hb Hrun].
    apply startsWith_split in Hs. split; [|exact Hrun].
    rewrite Hs. simpl. simpl in Hb. now rewrite Hb.
  - intros [-> Hrun]. rewrite startsWith_prefix.
    change (skipn 2 ([STAR; STAR] ++ h ++ [STAR; STAR] ++ rest))
      with (h ++ [STAR; STAR] ++ rest).
    now apply lazy_dots_complete.
Qed.

(** A heading once complete is not changed by what follows the block. *)
Lemma heading_match_extend block h rest more :
  heading_match block = Some (h, rest) ->
  heading_match (block ++ more) = Some (h, rest ++ more).
Proof.
  rewrite !heading_match_spec, !is_heading_run. intros [-> Hrun].
  split; [|exact Hrun]. now rewrite <- !app_assoc.
Qed.

(** *** The parser *)

Lemma parseLatestThinkBlock_unfold buf :
  parseLatestThinkBlock buf
  = let lastBlock := last (split_blocks buf) [] in
    mkThinkBlock
      (match heading_match lastBlock with Some (t, _) => t | None => [] end)
      (trim (match heading_match lastBlock with
             | Some (_, rest) => drop_LF rest
             | None => lastBlock
             end)).
Proof. destruct buf; reflexivity. Qed.

Lemma last_split_blocks_app buf more :
  List.length (split_blocks (buf ++ more)) = List.length (split_blocks buf) ->
  last (split_blocks (buf ++ more)) [] = last (split_blocks buf) [] ++ more.
Proof.
  rewrite split_blocks_app. intros Hlen.
  destruct (@exists_last _ (split_blocks buf) (split_blocks_nonempty buf))
    as [bs [b Hb]].
  rewrite Hb in *. rewrite removelast_last, last_last in *.
  rewrite !length_app in Hlen. simpl in Hlen.
  destruct (split_blocks (b ++ more)) as [|p [|q ps]] eqn:E;
    simpl in Hlen; try lia.
  apply split_blocks_single in E. subst p.
  now rewrite last_last.
Qed.

Lemma completed_headings_app buf more :
  List.length (split_blocks (buf ++ more)) = List.length (split_blocks buf) ->
  exists hs,
    completed_headings buf
    = hs ++ match heading_match (last (split_blocks buf) []) with
            | Some (t, _) => [t] | None => [] end /\
    completed_headings (buf ++ more)
    = hs ++ match heading_match (last (split_blocks (buf ++ more)) []) with
            | Some (t, _) => [t] | None => [] end.
Proof.
  intros Hlen. pose proof (last_split_blocks_app buf more Hlen) as Hlast.
  unfold completed_headings. revert Hlen Hlast.
  rewrite split_blocks_app.
  destruct (@exists_last _ (split_blocks buf) (split_blocks_nonempty buf))
    as [bs [b Hb]].
  rewrite Hb. rewrite removelast_last, !last_last.
  rewrite !length_app. simpl. intros Hlen.
  destruct (split_blocks (b ++ more)) as [|p [|q ps]] eqn:E;
    simpl in Hlen; try lia.
  rewrite last_last. intros ->.
  eexists. rewrite !flat_map_app. simpl. rewrite !app_nil_r.
  split; reflexivity.
Qed.

(** C7, as amended: the parsers are functions of the buffer alone; and when
    a buffer grows without a new heading boundary appearing and without a
    heading being newly completed, the parsed heading stays the same.  A
    heading that has been parsed is kept in any case until the next boundary
    appears. *)
Theorem heading_stable_without_new_marker :
  forall buf1 more : jsstring,
    let buf2 := buf1 ++ more in
    List.length (split_blocks buf2) = List.length (split_blocks buf1) ->
    (completed_headings buf2 = completed_headings buf1 ->
     title (parseLatestThinkBlock buf2) = title (parseLatestThinkBlock buf1)) /\
    (title (parseLatestThinkBlock buf1) <> [] ->
     title (parseLatestThinkBlock buf2) = title (parseLatestThinkBlock buf1)) /\
    (forall buf, buf = buf1 ->
       parseLatestThinkBlock buf = parseLatestThinkBlock buf1 /\
       Insight.parseStreamingBulletPoints buf
       = Insight.parseStreamingBulletPoints buf1).
Proof.
  intros buf1 more buf2 Hlen. subst buf2.
  split; [|split].
  - intros Hc. destruct (completed_headings_app buf1 more Hlen) as (hs & H1 & H2).
    rewrite H1, H2 in Hc. apply app_inv_head in Hc.
    rewrite !parseLatestThinkBlock_unfold. simpl.
    destruct (heading_match (last (split_blocks (buf1 ++ more)) []))
      as [[t2 r2]|];
      destruct (heading_match (last (split_blocks buf1) [])) as [[t1 r1]|];
      congruence.
  - rewrite !parseLatestThinkBlock_unfold. simpl.
    rewrite (last_split_blocks_app buf1 more Hlen).
    destruct (heading_match (last (split_blocks buf1) [])) as [[t1 r1]|] eqn:E1;
      [|congruence].
    intros _. now rewrite (heading_match_extend _ _ _ more E1).
  - intros buf ->. split; reflexivity.
Qed.


Lemma heading_stable_without_new_marker_witness :
  List.length (split_blocks (buf_first ++ js "dy"))
  = List.length (split_blocks buf_first) /\
  completed_headings (buf_first ++ js "dy") = completed_headings buf_first /\
  title (parseLatestThinkBlock buf_first) <> [] /\
  title (parseLatestThinkBlock (buf_first ++ js "dy"))
  = title (parseLatestThinkBlock buf_first).
Proof.
  assert (H1 : List.length (split_blocks (buf_first ++ js "dy"))
               = List.length (split_blocks buf_first)) by reflexivity.
  assert (H2 : completed_headings (buf_first ++ js "dy")
               = completed_headings buf_first) by reflexivity.
  assert (H3 : title (parseLatestThinkBlock buf_first) <> [])
    by (vm_compute; discriminate).
  refine (conj H1 (conj H2 (conj H3 _))).
  exact (proj1 (heading_stable_without_new_marker buf_first (js "dy") H1) H2).
Defined.

(** C7, counterexample: the buffer grows by a heading boundary whose heading
    is not complete yet; no heading has been newly completed, but the parsed
    heading falls back from "A" to the empty string. *)
Lemma heading_lost_at_new_boundary :
  buf_opening = (js "**A**" ++ [LF; LF] ++ js "body") ++ [LF; LF] ++ js "**B" /\
  completed_headings (js "**A**" ++ [LF; LF] ++ js "body") = [js "A"] /\
  completed_headings buf_opening = [js "A"] /\
  title (parseLatestThinkBlock (js "**A**" ++ [LF; LF] ++ js "body")) = js "A" /\
  title (parseLatestThinkBlock buf_opening) = [].
Proof. repeat split; reflexivity. Qed.

Lemma trimStart_drop_LF s : trimStart (drop_LF s) = trimStart s.
Proof.
  induction s as [|c s IH]; [reflexivity|].
  simpl. destruct (N.eqb c LF) eqn:E.
  - apply N.eqb_eq in E. subst c. simpl. exact IH.
  - reflexivity.
Qed.

Lemma trim_drop_LF s : trim (drop_LF s) = trim s.
Proof. unfold trim. now rewrite trimStart_drop_LF. Qed.

(** C9, as amended: the buffer is split at every heading boundary; the
    result is the heading of the last block, empty when the block does not
    start with a complete heading, and the text after that heading, trimmed
    (the whole block, trimmed, without a heading).  Without a boundary in
    the buffer the last block is the buffer itself. *)
Theorem parseLatestThinkBlock_last_block :
  forall buf : jsstring,
    let blocks := split_blocks buf in
    let lastBlock := last blocks [] in
    let r := parseLatestThinkBlock buf in
    join_blocks blocks = buf /\
    Forall (fun b => startsWith b [STAR; STAR] = true) (tl blocks) /\
    Forall (fun b => has_boundary b = false) blocks /\
    ((exists h rest,
         is_heading lastBlock h rest /\
         title r = h /\ content r = trim rest) \/
     ((forall h rest, ~ is_heading lastBlock h rest) /\
      title r = [] /\ content r = trim lastBlock)) /\
    (has_boundary buf = false -> lastBlock = buf).
Proof.
  intros buf blocks lastBlock r.
  split; [apply join_split_blocks|].
  split; [apply split_blocks_tail_starred|].
  split; [apply split_blocks_boundary_free|].
  split.
  - subst r. rewrite parseLatestThinkBlock_unfold. fold blocks lastBlock.
    cbv zeta. destruct (heading_match lastBlock) as [[h rest]|] eqn:E.
    + left. exists h, rest. split; [now apply heading_match_spec|].
      split; [reflexivity|]. simpl. apply trim_drop_LF.
    + right. split; [|split; reflexivity].
      intros h rest Hh. apply heading_match_spec in Hh. congruence.
  - intros Hb. subst lastBlock blocks.
    now rewrite split_blocks_no_boundary.
Qed.

Lemma parseLatestThinkBlock_last_block_witness :
  has_boundary buf_plan = false /\
  last (split_blocks buf_plan) [] = buf_plan.
Proof.
  split; [reflexivity|].
  destruct (parseLatestThinkBlock_last_block buf_plan) as (_ & _ & _ & _ & H).
  apply H. reflexivity.
Defined.

(** C9, counterexample: two buffers without a heading boundary.  The first
    starts with a heading, which is returned although there is no boundary,
    and its body is not the whole buffer; the second has no heading at all
    and its body is the buffer without the white space around it. *)
Lemma no_boundary_heading_and_body :
  has_boundary buf_plan = false /\
  title (parseLatestThinkBlock buf_plan) = js "Plan" /\
  content (parseLatestThinkBlock buf_plan) = js "body" /\
  content (parseLatestThinkBlock buf_plan) <> buf_plan /\
  has_boundary buf_note = false /\
  title (parseLatestThinkBlock buf_note) = [] /\
  content (parseLatestThinkBlock buf_note) = js "note" /\
  content (parseLatestThinkBlock buf_note) <> buf_note.
Proof. repeat split; try reflexivity; vm_compute; discriminate. Qed.

End ThinkFacts.

(** ** The pipeline *)

Module PageFacts.
Import Page Notions Examples.

Section Pipeline.
Variable new_URL : jsstring -> option Api.URL.
Variable tem : jsstring -> jsstring.
Variable ToString : jsvalue -> jsstring.
Variable API_BASE : jsstring.

Lemma checkAllDone_page r w :
  page (checkAllDone r w) = page w \/
  page (checkAllDone r w) = setStatus status_done (page w).
Proof.
  unfold checkAllDone. destruct (nth_error (runs w) r) as [k|]; [|now left].
  destruct (summaryDone k && scriptDone k); [now right|now left].
Qed.

Lemma summaryOnError_frame r m w :
  summary_failure_frame (page w) (page (summaryOnError r m w)).
Proof.
  unfold summaryOnError.
  destruct (checkAllDone_page r
    (withRuns (markSummaryDone r)
       (withPage (setStreaming (withIsStreaming false))
          (withPage (setError (Some (mkErrorInfo stage_summarize m))) w))))
    as [H|H]; rewrite H; repeat split.
Qed.

Lemma summaryOnError_stops r m w :
  isStreaming (streaming (page (summaryOnError r m w))) = false.
Proof.
  unfold summaryOnError.
  match goal with |- context [checkAllDone r ?x] =>
    destruct (checkAllDone_page r x) as [H|H]; rewrite H; reflexivity end.
Qed.

Lemma scriptOnError_frame r m w :
  script_failure_frame (page w) (page (scriptOnError r m w)).
Proof.
  unfold scriptOnError.
  match goal with |- context [checkAllDone r ?x] =>
    destruct (checkAllDone_page r x) as [H|H]; rewrite H; repeat split end.
Qed.

Lemma summary_failure_frame_refl p : summary_failure_frame p p.
Proof. repeat split. Qed.
Lemma script_failure_frame_refl p : script_failure_frame p p.
Proof. repeat split. Qed.
Lemma synthesis_failure_frame_refl p : synthesis_failure_frame p p.
Proof. repeat split. Qed.

(** A failure delivered to a track runs the track's [onError] at most,
    and nothing else. *)
Lemma failure_runs_onError (k : Track) i w :
  is_failure i ->
  exists m,
    fst (Callbacks.consume tem (variant k) (callbacksOf tem ToString k)
                           (aborted k) i w) = w
    \/ fst (Callbacks.consume tem (variant k) (callbacksOf tem ToString k)
                              (aborted k) i w)
       = match variant k with
         | Stream.Summarize => summaryOnError (owner k) m w
         | Stream.Script => scriptOnError (owner k) m w
         end.
Proof.
  destruct i as [e|t|]; intros Hf; [| |contradiction].
  - unfold Callbacks.consume.
    destruct (aborted k); [exists None; left; reflexivity|].
    unfold Callbacks.dispatch. simpl in Hf. rewrite Hf.
    unfold callbacksOf.
    destruct (variant k);
      cbn -[get_prop summaryOnError scriptOnError];
      (match goal with
       | |- context [get_prop ?a ?b] => destruct (get_prop a b) as [m|]
       end;
       [exists m; right; reflexivity|eexists; right; reflexivity]).
  - unfold callbacksOf. destruct (variant k); eexists; right; reflexivity.
Qed.

Lemma step_TrackDelivers_page w t k i :
  nth_error (tracks w) t = Some k ->
  page (step new_URL tem ToString API_BASE w (TrackDelivers t i))
  = if finished k then page w
    else page (fst (Callbacks.consume tem (variant k) (callbacksOf tem ToString k)
                                      (aborted k) i w)).
Proof.
  intros Hk. simpl. rewrite Hk. destruct (finished k); [reflexivity|].
  destruct (Callbacks.consume _ _ _ _ _ _) as [w1 fin]. reflexivity.
Qed.

Lemma step_TrackDelivers_ttsCalls w t k i :
  nth_error (tracks w) t = Some k ->
  ttsCalls (step new_URL tem ToString API_BASE w (TrackDelivers t i))
  = if finished k then ttsCalls w
    else ttsCalls (fst (Callbacks.consume tem (variant k)
                          (callbacksOf tem ToString k) (aborted k) i w)).
Proof.
  intros Hk. simpl. rewrite Hk. destruct (finished k); [reflexivity|].
  destruct (Callbacks.consume _ _ _ _ _ _) as [w1 fin]. reflexivity.
Qed.

Lemma checkAllDone_world r w :
  checkAllDone r w = w \/
  checkAllDone r w = withPage (setStatus status_done) w.
Proof.
  unfold checkAllDone. destruct (nth_error (runs w) r) as [k|]; [|now left].
  destruct (summaryDone k && scriptDone k); [now right|now left].
Qed.

Lemma ttsCatch_frame t w :
  synthesis_failure_frame (page w) (page (ttsCatch t w)).
Proof. repeat split. Qed.

End Pipeline.

(** C6: a failure of the summary track leaves the document, the script and
    the audio cells as they are, and the summary text received so far; a
    failure of the script track leaves the document and the summary cells as
    they are; a failed synthesis call changes the audio error and the audio
    status only, so the script result stays in its cell, as it does when the
    call resolves; a failed crawl leaves the summary, script and audio cells
    as they are. *)
Theorem failure_leaves_siblings_unchanged :
  forall new_URL tem ToString API_BASE (w : World),
    (forall t k i,
        nth_error (tracks w) t = Some k ->
        variant k = Stream.Summarize ->
        is_failure i ->
        summary_failure_frame
          (page w)
          (page (step new_URL tem ToString API_BASE w (TrackDelivers t i)))) /\
    (forall t k i,
        nth_error (tracks w) t = Some k ->
        variant k = Stream.Script ->
        is_failure i ->
        script_failure_frame
          (page w)
          (page (step new_URL tem ToString API_BASE w (TrackDelivers t i)))) /\
    (forall c thrown,
        let w' := step new_URL tem ToString API_BASE w (TtsRejects c thrown) in
        synthesis_failure_frame (page w) (page w') /\
        scriptData (page w') = scriptData (page w)) /\
    (forall c ttsResult,
        let w' :=
          step new_URL tem ToString API_BASE w (TtsResolves c ttsResult) in
        scriptData (page w') = scriptData (page w) /\
        scriptStreaming (page w') = scriptStreaming (page w) /\
        summaryData (page w') = summaryData (page w) /\
        crawlData (page w') = crawlData (page w)) /\
    (forall r thrown,
        let w' := step new_URL tem ToString API_BASE w (CrawlRejects r thrown) in
        summaryData (page w') = summaryData (page w) /\
        streaming (page w') = streaming (page w) /\
        scriptData (page w') = scriptData (page w) /\
        scriptStreaming (page w') = scriptStreaming (page w) /\
        audioStatus (page w') = audioStatus (page w) /\
        audioError (page w') = audioError (page w) /\
        synthesizeData (page w') = synthesizeData (page w) /\
        audioUrl (page w') = audioUrl (page w)).
Proof.
  intros new_URL tem ToString API_BASE w. split; [|split; [|split; [|split]]].
  - intros t k i Hk Hv Hf.
    rewrite (step_TrackDelivers_page new_URL tem ToString API_BASE w t k i Hk).
    destruct (finished k); [apply summary_failure_frame_refl|].
    destruct (failure_runs_onError tem ToString k i w Hf) as [m [H|H]]; rewrite H.
    + apply summary_failure_frame_refl.
    + rewrite Hv. apply summaryOnError_frame.
  - intros t k i Hk Hv Hf.
    rewrite (step_TrackDelivers_page new_URL tem ToString API_BASE w t k i Hk).
    destruct (finished k); [apply script_failure_frame_refl|].
    destruct (failure_runs_onError tem ToString k i w Hf) as [m [H|H]]; rewrite H.
    + apply script_failure_frame_refl.
    + rewrite Hv. apply scriptOnError_frame.
  - intros c thrown w'. subst w'. simpl.
    destruct (nth_error (ttsCalls w) c) as [k|];
      [|split; [apply synthesis_failure_frame_refl|reflexivity]].
    destruct (ttsPending k);
      split; try apply synthesis_failure_frame_refl; try reflexivity.
    repeat split.
  - intros c ttsResult w'. subst w'. simpl.
    destruct (nth_error (ttsCalls w) c) as [k|]; [|repeat split].
    destruct (ttsPending k); [|repeat split].
    unfold afterTts.
    destruct (get_prop (Some ttsResult) (js "duration_seconds"));
      repeat split.
  - intros r thrown w'. subst w'. simpl.
    destruct (nth_error (runs w) r) as [k|]; [|repeat split].
    destruct (crawlPending k); repeat split.
Qed.


Lemma failure_leaves_siblings_unchanged_witness :
  nth_error (tracks world_synthesizing) 0 <> None /\
  nth_error (tracks world_synthesizing) 1 <> None /\
  is_failure (Callbacks.Throws (Stream.ErrorObj (js "network error"))) /\
  scriptData
    (page (step example_new_URL v8_TypeError_message example_ToString
                example_API_BASE world_synthesizing
                (TrackDelivers 0
                   (Callbacks.Throws (Stream.ErrorObj (js "network error"))))))
  = script_one /\
  scriptData
    (page (step example_new_URL v8_TypeError_message example_ToString
                example_API_BASE world_synthesizing
                (TtsRejects 0 (Stream.ErrorObj (js "quota exceeded")))))
  = script_one.
Proof.
  destruct (failure_leaves_siblings_unchanged
              example_new_URL v8_TypeError_message example_ToString
              example_API_BASE world_synthesizing) as (H1 & _ & H3 & _ & _).
  split; [vm_compute; discriminate|].
  split; [vm_compute; discriminate|].
  split; [exact I|].
  split.
  - destruct (H1 0%nat
                 (mkTrack Stream.Summarize 0
                    (Api.extractArticleId example_new_URL url_one (js "generic"))
                    false false)
                 (Callbacks.Throws (Stream.ErrorObj (js "network error")))
                 eq_refl eq_refl I) as (_ & _ & Hs & _).
    rewrite Hs. reflexivity.
  - destruct (H3 0%nat (Stream.ErrorObj (js "quota exceeded"))) as [_ Hs].
    rewrite Hs. reflexivity.
Defined.

(** C4, as amended: a [done] block is yielded with its payload as decoded,
    whatever the payload is, and a track that is running hands it to
    [onDone] unchanged.  Neither track sets the status of the page to
    [error].  The summary track stores the payload and stops streaming,
    without an error for any payload but [null], and starts no synthesis.
    The script track stores it and stops streaming, without an error of
    either kind; the audio status becomes [done], and when
    [result.script.title] can be read it goes on to [synthesizing] with one
    synthesis call made for the payload; when it cannot be read the audio
    status stays [done] and no call is made.  Nothing compares the payload
    with the result invariants. *)
Theorem done_payload_not_validated :
  forall new_URL tem ToString API_BASE (JSON_parse : jsstring -> option json),
    (forall eventText payload parsed,
        truthy (trim eventText) = true ->
        Stream.scan_lines eventText = (js "done", payload) ->
        payload <> [] ->
        JSON_parse payload = Some parsed ->
        Stream.process_event JSON_parse eventText
        = [Stream.Yield (Stream.mkEvent Stream.done parsed)]) /\
    (forall (w : World) t k result,
        nth_error (tracks w) t = Some k ->
        finished k = false ->
        aborted k = false ->
        let w' := step new_URL tem ToString API_BASE w
                    (TrackDelivers t
                       (Callbacks.Yields
                          (Stream.mkEvent Stream.done result))) in
        let p' := page w' in
        (status p' = status (page w) \/ status p' = status_done) /\
        match variant k with
        | Stream.Summarize =>
            summaryData p' = result /\
            isStreaming (streaming p') = false /\
            (result <> JNull -> error p' = error (page w)) /\
            ttsCalls w' = ttsCalls w
        | Stream.Script =>
            scriptData p' = result /\
            isStreaming (scriptStreaming p') = false /\
            audioError p' = audioError (page w) /\
            error p' = error (page w) /\
            audioStatus p'
            = (if script_title_readable result
               then audio_synthesizing else audio_done) /\
            ttsCalls w'
            = ttsCalls w
              ++ (if script_title_readable result
                  then [mkTts (owner k) result true] else [])
        end).
Proof.
  intros new_URL tem ToString API_BASE JSON_parse. split.
  - intros eventText payload parsed Ht Hs Hne Hp.
    unfold Stream.process_event. rewrite Ht, Hs. simpl negb. cbv iota.
    destruct payload as [|c payload]; [congruence|].
    simpl truthy. simpl negb. cbv iota. rewrite Hp. reflexivity.
  - intros w t k result Hk Hfin Hab w' p'. subst p' w'.
    rewrite !(step_TrackDelivers_page new_URL tem ToString API_BASE w t k _ Hk).
    rewrite !(step_TrackDelivers_ttsCalls new_URL tem ToString API_BASE w t k _ Hk).
    rewrite Hfin. unfold Callbacks.consume. rewrite Hab.
    unfold Callbacks.dispatch, callbacksOf.
    destruct (variant k); cbn -[get_prop checkAllDone].
    + (* summary *)
      unfold summaryOnDone.
      destruct (get_prop (Some result) (js "main_topic")) as [m|] eqn:Hm.
      * cbn -[checkAllDone].
        match goal with
        | |- context [checkAllDone ?r ?x] =>
            destruct (checkAllDone_world r x) as [H|H]; rewrite H
        end; repeat split; auto.
      * assert (Hn : result = JNull)
          by (destruct result; try discriminate; reflexivity).
        cbn -[checkAllDone summaryOnError]. unfold summaryOnError.
        match goal with
        | |- context [checkAllDone ?r ?x] =>
            destruct (checkAllDone_world r x) as [H|H]; rewrite H
        end; repeat split; auto; congruence.
    + (* script *)
      unfold scriptOnDone, script_title_readable.
      destruct (get_prop (Some result) (js "script")) as [script|];
        [|cbn; rewrite app_nil_r; repeat split; auto].
      destruct (get_prop script (js "title")) as [ti|];
        [|cbn; rewrite app_nil_r; repeat split; auto].
      cbn -[checkAllDone].
      match goal with
      | |- context [checkAllDone ?r ?x] =>
          destruct (checkAllDone_world r x) as [H|H]; rewrite H
      end; repeat split; auto.
Qed.


Lemma done_payload_not_validated_witness :
  truthy (trim done_block) = true /\
  Stream.scan_lines done_block = (js "done", js "{}") /\
  js "{}" <> [] /\
  Json.parse (js "{}") = Some (JObj []) /\
  Stream.process_event Json.parse done_block
  = [Stream.Yield (Stream.mkEvent Stream.done (JObj []))] /\
  nth_error (tracks world_generating) 0 <> None /\
  summaryData
    (page (step example_new_URL v8_TypeError_message example_ToString
             example_API_BASE world_generating
             (TrackDelivers 0
                (Callbacks.Yields
                   (Stream.mkEvent Stream.done summary_without_points)))))
  = summary_without_points.
Proof.
  destruct (done_payload_not_validated
              example_new_URL v8_TypeError_message example_ToString
              example_API_BASE Json.parse) as [H1 H2].
  assert (Ha : truthy (trim done_block) = true) by reflexivity.
  assert (Hb : Stream.scan_lines done_block = (js "done", js "{}"))
    by reflexivity.
  assert (Hc : js "{}" <> []) by discriminate.
  assert (Hd : Json.parse (js "{}") = Some (JObj [])) by reflexivity.
  refine (conj Ha (conj Hb (conj Hc (conj Hd (conj _ (conj _ _)))))).
  - exact (H1 done_block (js "{}") (JObj []) Ha Hb Hc Hd).
  - vm_compute. discriminate.
  - exact (proj1 (proj2 (H2 world_generating 0%nat
                     (mkTrack Stream.Summarize 0
                        (Api.extractArticleId example_new_URL url_one
                                              (js "generic"))
                        false false)
                     summary_without_points eq_refl eq_refl eq_refl))).
Defined.

(** C4, counterexample: a summary without points and a script without
    segments arrive as [done] payloads.  Both are stored as results, no
    error is set, synthesis is started and the run is reported done. *)
Lemma invalid_done_payloads_accepted :
  spec_summary_valid summary_without_points = false /\
  spec_script_valid script_without_segments = false /\
  summaryData (page world_invalid_results) = summary_without_points /\
  scriptData (page world_invalid_results) = script_without_segments /\
  error (page world_invalid_results) = None /\
  audioError (page world_invalid_results) = Some JNull /\
  audioStatus (page world_invalid_results) = audio_synthesizing /\
  status (page world_invalid_results) = status_done.
Proof. repeat split; reflexivity. Qed.

(** While a run is crawling or processing the header hands no submission
    over to the page, so a run that has started is resubmitted only once
    the page reports it done or failed. *)
Lemma header_locked_while_running :
  forall (p : PageState) (u : jsstring) (hasOnSubmit : bool),
    status p = status_crawling \/ status p = status_processing ->
    Forms.header_handleSubmit u (Forms.header_isLoading p) hasOnSubmit = None.
Proof.
  intros p u hasOnSubmit H. unfold Forms.header_handleSubmit,
    Forms.header_isLoading.
  destruct H as [-> | ->]; cbn [negb]; now rewrite andb_false_r.
Qed.

(** C1, the failing run: the first URL is submitted from the welcome form
    and its two tracks deliver their results, so the page reports the run
    done and the header hands the next submission over, while the synthesis
    call made for the script is still in flight.  The second URL is
    submitted from the header: the submission aborts both tracks and resets
    the page; when the call of the first run resolves afterwards, its
    result, its audio address and the status [ready] are put on the page of
    the second run, which is still crawling. *)
Theorem stale_synthesis_result_surfaces :
  forall new_URL tem ToString API_BASE,
    let first :=
      run_inputs new_URL tem ToString API_BASE initialWorld
        [Submit url_one; CrawlResolves 0 crawled_one;
         TrackDelivers 0
           (Callbacks.Yields (Stream.mkEvent Stream.done summary_one));
         TrackDelivers 1
           (Callbacks.Yields (Stream.mkEvent Stream.done script_one))] in
    let resubmitted :=
      step new_URL tem ToString API_BASE first (Submit url_two) in
    let late :=
      step new_URL tem ToString API_BASE resubmitted (TtsResolves 0 tts_one) in
    Forms.welcome_handleSubmit url_one false Forms.validation_valid
    = Some url_one /\
    status (page first) = status_done /\
    audioStatus (page first) = audio_synthesizing /\
    List.map ttsPending (ttsCalls first) = [true] /\
    Forms.header_handleSubmit url_two (Forms.header_isLoading (page first)) true
    = Some url_two /\
    page resubmitted = resetPage /\
    List.map aborted (tracks resubmitted) = [true; true] /\
    List.map crawlPending (runs late) = [false; true] /\
    status (page late) = status_crawling /\
    audioStatus (page late) = audio_ready /\
    synthesizeData (page late) = tts_one /\
    audioUrl (page late)
    = Some (API_BASE ++ js "/api/v1/audio/article_1.mp3?user_id=default").
Proof. intros. repeat split; reflexivity. Qed.

(** The continuation of a synthesis call asks nothing about the run it
    belongs to: whenever a pending call resolves, its result is put on the
    page. *)
Lemma synthesis_result_unguarded :
  forall new_URL tem ToString API_BASE (w : World) c k ttsResult,
    nth_error (ttsCalls w) c = Some k ->
    ttsPending k = true ->
    let p' :=
      page (step new_URL tem ToString API_BASE w (TtsResolves c ttsResult)) in
    synthesizeData p' = ttsResult /\
    audioUrl p' <> None /\
    (audioStatus p' = audio_ready \/ audioStatus p' = audio_error).
Proof.
  intros new_URL tem ToString API_BASE w c k ttsResult Hk Hp p'.
  subst p'. simpl. rewrite Hk, Hp. unfold afterTts.
  destruct (get_prop (Some ttsResult) (js "duration_seconds"));
    repeat split; try discriminate; auto.
Qed.

(** Both tracks of a run are started with the same article identifier, the
    one [extractArticleId] gives for the URL and the platform of the crawl. *)
Lemma tracks_share_article_id :
  forall new_URL tem ToString API_BASE (u : jsstring) (crawled : json) title,
    get_prop (Some crawled) (js "title") = Some title ->
    let w :=
      run_inputs new_URL tem ToString API_BASE initialWorld
        [Submit u; CrawlResolves 0 crawled] in
    List.map variant (tracks w) = [Stream.Summarize; Stream.Script] /\
    exists id, List.map article_id (tracks w) = [id; id].
Proof.
  intros new_URL tem ToString API_BASE u crawled title Ht w.
  subst w. cbn -[get_prop articleIdOf]. unfold afterCrawl.
  rewrite Ht. cbn -[get_prop articleIdOf].
  split; [reflexivity|eexists; reflexivity].
Qed.

(** What the cancellation does achieve: an event delivered to an aborted
    track changes nothing on the page. *)
Lemma aborted_track_event_ignored :
  forall new_URL tem ToString API_BASE (w : World) t k e,
    nth_error (tracks w) t = Some k ->
    aborted k = true ->
    page (step new_URL tem ToString API_BASE w
            (TrackDelivers t (Callbacks.Yields e)))
    = page w.
Proof.
  intros new_URL tem ToString API_BASE w t k e Hk Hab.
  rewrite (step_TrackDelivers_page new_URL tem ToString API_BASE w t k _ Hk).
  destruct (finished k); [reflexivity|].
  unfold Callbacks.consume. now rewrite Hab.
Qed.

End PageFacts.

(** ** The callback wrappers *)

Module CallbackFacts.
Import Callbacks.

(** After [abort()] an event of the generator is not dispatched. *)
Lemma event_after_abort_ignored tem v (t : TrackState) e :
  aborted t = true ->
  calls (track_step tem v t (Deliver (Yields e))) = calls t.
Proof.
  intros Hab. unfold track_step. destruct (finished t); [reflexivity|].
  unfold consume. rewrite Hab. reflexivity.
Qed.

(** A failure of the stream reaches [onError] whether or not the controller
    has been aborted. *)
Lemma throw_reaches_onError tem v (t : TrackState) thrown :
  finished t = false ->
  calls (track_step tem v t (Deliver (Throws thrown)))
  = calls t ++ [CallError (Some (JStr (catch_message v thrown)))].
Proof. intros Hf. unfold track_step. rewrite Hf. reflexivity. Qed.

(** C2, the failing run: one event is delivered, the controller is aborted,
    and then reading from the stream fails.  The loop's [catch] block calls
    [onError] with the message, although the track has been cancelled. *)
Theorem error_after_abort_calls_onError :
  forall tem (v : Stream.Variant) (text : json) (msg : jsstring),
    let t :=
      track_run tem v
        [Deliver (Yields (Stream.mkEvent Stream.thinking text));
         Aborts;
         Deliver (Throws (Stream.ErrorObj msg))] in
    aborted t = true /\
    calls t = [CallThinking text; CallError (Some (JStr msg))].
Proof. intros. split; reflexivity. Qed.

End CallbackFacts.

(** ** The speech synthesis engine *)

Module AudioFacts.
Import Audio Notions Examples.

Section Engine.
Variable tts : jsstring -> option audio.
Variable silence : audio.

Lemma length_store {A} i (x : A) slots :
  List.length (store i x slots) = List.length slots.
Proof.
  revert i; induction slots as [|s slots IH]; intros [|i]; simpl; auto.
Qed.

Lemma nth_error_store {A} i (x : A) slots j :
  nth_error (store i x slots) j
  = if Nat.eqb j i
    then (if Nat.ltb j (List.length slots) then Some (Some x) else None)
    else nth_error slots j.
Proof.
  revert i j; induction slots as [|s slots IH]; intros i j.
  - simpl. destruct i, j; simpl; try reflexivity.
    now destruct (Nat.eqb j i).
  - destruct i as [|i], j as [|j]; simpl; try reflexivity.
    rewrite IH. reflexivity.
Qed.

Lemma filled_start segments :
  filled tts segments [] (repeat None (List.length segments)).
Proof.
  split; [apply repeat_length|].
  intros j seg Hj. simpl.
  apply nth_error_repeat. apply nth_error_Some. congruence.
Qed.

Lemma filled_settle segments settled slots i :
  filled tts segments settled slots ->
  filled tts segments (settled ++ [i]) (settle tts segments slots i).
Proof.
  intros [Hlen Hfill]. unfold settle.
  destruct (nth_error segments i) as [segi|] eqn:Hi.
  - split; [now rewrite length_store|].
    intros j seg Hj. rewrite nth_error_store, existsb_app. simpl.
    rewrite orb_false_r.
    destruct (Nat.eqb j i) eqn:E.
    + apply Nat.eqb_eq in E. subst j.
      assert (Hlt : (i < List.length slots)%nat).
      { rewrite Hlen. apply nth_error_Some. congruence. }
      apply Nat.ltb_lt in Hlt. rewrite Hlt, orb_true_r. congruence.
    + rewrite orb_false_r. now apply Hfill.
  - split; [exact Hlen|].
    intros j seg Hj. rewrite existsb_app. simpl. rewrite orb_false_r.
    destruct (Nat.eqb j i) eqn:E.
    + apply Nat.eqb_eq in E. subst j. congruence.
    + rewrite orb_false_r. now apply Hfill.
Qed.

Lemma filled_fold segments completion : forall settled slots,
  filled tts segments settled slots ->
  filled tts segments (settled ++ completion)
         (fold_left (settle tts segments) completion slots).
Proof.
  induction completion as [|i completion IH]; intros settled slots H.
  - now rewrite app_nil_r.
  - simpl. change (i :: completion) with ([i] ++ completion).
    rewrite app_assoc. apply IH. now apply filled_settle.
Qed.

Lemma filled_all segments completion slots :
  filled tts segments completion slots ->
  (forall j, (j < List.length segments)%nat -> In j completion) ->
  slots = List.map (fun seg => Some (tts seg)) segments.
Proof.
  intros [Hlen Hfill] Hall. apply nth_error_ext. intros j.
  rewrite nth_error_map.
  destruct (nth_error segments j) as [seg|] eqn:Hj.
  - rewrite (Hfill j seg Hj).
    assert (Hin : In j completion).
    { apply Hall. apply nth_error_Some. congruence. }
    assert (He : existsb (Nat.eqb j) completion = true).
    { apply existsb_exists. exists j. split; [exact Hin|apply Nat.eqb_refl]. }
    now rewrite He.
  - apply nth_error_None. rewrite Hlen. now apply nth_error_None.
Qed.

Lemma collect_all segments audios :
  Forall2 (fun seg a => tts seg = Some a) segments audios ->
  collect (List.map (fun seg => Some (tts seg)) segments) = Some audios.
Proof.
  induction 1 as [|seg a segments audios Ha _ IH]; [reflexivity|].
  simpl. now rewrite Ha, IH.
Qed.

Lemma length_merge chunks :
  List.length (merge_audio_chunks silence chunks)
  = (list_sum (List.map (@List.length N) chunks)
     + (List.length chunks - 1) * List.length silence)%nat.
Proof.
  induction chunks as [|a [|b rest] IH]; simpl in *.
  - reflexivity.
  - lia.
  - rewrite !length_app, IH. simpl. lia.
Qed.

End Engine.

(** C5: when every segment is synthesized, the merged artifact is made of
    the segments' audio in the order of the segments, whatever the order
    in which the calls were completed, with the block of silence between two
    consecutive segments and nowhere else. *)
Theorem merged_in_segment_order :
  forall (tts : jsstring -> option audio) (silence : audio)
         (segments : list jsstring) (audios : list audio)
         (completion : list nat),
    Forall2 (fun seg a => tts seg = Some a) segments audios ->
    Permutation completion (seq 0 (List.length segments)) ->
    synthesize tts silence segments completion
    = Some (merge_audio_chunks silence audios) /\
    merge_audio_chunks silence [] = [] /\
    (forall a, merge_audio_chunks silence [a] = a) /\
    (forall a b rest,
        merge_audio_chunks silence (a :: b :: rest)
        = a ++ silence ++ merge_audio_chunks silence (b :: rest)) /\
    List.length (merge_audio_chunks silence audios)
    = (list_sum (List.map (@List.length N) audios)
       + (List.length audios - 1) * List.length silence)%nat.
Proof.
  intros tts silence segments audios completion Hok Hperm.
  split; [|split; [reflexivity|split; [reflexivity|split; [reflexivity|]]]].
  - unfold synthesize.
    rewrite (filled_all tts segments completion
               (fold_left (settle tts segments) completion
                          (repeat None (List.length segments)))).
    + now rewrite (collect_all tts segments audios Hok).
    + apply (filled_fold tts segments completion [] _ (filled_start tts segments)).
    + intros j Hj. apply (Permutation_in j (Permutation_sym Hperm)).
      apply in_seq. lia.
  - apply length_merge.
Qed.

Lemma merged_in_segment_order_witness :
  Forall2 (fun seg a => example_tts seg = Some a)
          [js "s0"; js "t1"; js "u2"] [js "ss"; js "tt"; js "uu"] /\
  Permutation [2; 0; 1]%nat (seq 0 3) /\
  synthesize example_tts (js "_") [js "s0"; js "t1"; js "u2"] [2; 0; 1]%nat
  = Some (js "ss_tt_uu").
Proof.
  assert (H1 : Forall2 (fun seg a => example_tts seg = Some a)
                 [js "s0"; js "t1"; js "u2"] [js "ss"; js "tt"; js "uu"]).
  { repeat constructor. }
  assert (H2 : Permutation [2; 0; 1]%nat (seq 0 3)).
  { simpl. apply Permutation_sym.
    apply (perm_trans (l' := [0; 2; 1]%nat)).
    - apply perm_skip. apply perm_swap.
    - apply perm_swap. }
  refine (conj H1 (conj H2 _)).
  exact (proj1 (merged_in_segment_order example_tts (js "_") _ _ _ H1 H2)).
Defined.

End AudioFacts.

(** ** More on the event stream *)

Module WireFacts.
Import Stream Callbacks Wiring Shapes Notions Examples JSFacts.

Lemma split_char_app sep a b :
  split_char sep (a ++ sep :: b) = split_char sep a ++ split_char sep b.
Proof.
  induction a as [|c a IH]; simpl.
  - now rewrite N.eqb_refl.
  - destruct (N.eqb c sep); rewrite IH; [reflexivity|].
    destruct (split_char sep a) eqn:E; [|reflexivity].
    destruct a; simpl in E; [discriminate|].
    destruct (N.eqb n sep); [discriminate|].
    now apply cons_head_nonempty in E.
Qed.

Lemma or_default_truthy v d : d <> [] -> truthy_json (or_default v d) = true.
Proof.
  intros Hd. unfold or_default.
  destruct v as [x|]; [destruct (truthy_json x) eqn:E; [exact E|]|];
    simpl; now apply truthy_nonempty.
Qed.

Lemma or_default_empty v :
  or_default v [] = JStr [] \/ truthy_json (or_default v []) = true.
Proof.
  unfold or_default. destruct v as [x|]; [|now left].
  destruct (truthy_json x) eqn:E; [now right|now left].
Qed.

Lemma process_event_shape JSON_parse b :
  Forall event_shape (yields (process_event JSON_parse b)).
Proof.
  unfold process_event.
  destruct (negb (truthy (trim b))); [constructor|].
  destruct (scan_lines b) as [ty d].
  destruct (negb (truthy d)); [constructor|].
  destruct (JSON_parse d) as [parsed|]; [|constructor].
  destruct (str_eqb ty (js "thinking")) eqn:Et.
  { cbn [orb].
    destruct (get_prop (Some parsed) (js "text")) as [text|]; [|constructor].
    simpl; apply Forall_cons; [|apply Forall_nil]. unfold event_shape. cbn. apply or_default_empty. }
  destruct (str_eqb ty (js "content")) eqn:Ec.
  { cbn [orb].
    destruct (get_prop (Some parsed) (js "text")) as [text|]; [|constructor].
    simpl; apply Forall_cons; [|apply Forall_nil]. unfold event_shape. cbn. apply or_default_empty. }
  cbn [orb].
  destruct (str_eqb ty (js "done"));
    [simpl; apply Forall_cons; [exact I|apply Forall_nil]|].
  destruct (str_eqb ty (js "error")); [|constructor].
  destruct (get_prop (Some parsed) (js "error")) as [e|]; [|constructor].
  simpl; apply Forall_cons; [|apply Forall_nil]. unfold event_shape. cbn.
  eexists; split; [reflexivity|]. now apply or_default_truthy.
Qed.

Lemma read_loop_shape JSON_parse chunks : forall buffer,
  Forall event_shape (yields (read_loop JSON_parse buffer chunks)).
Proof.
  induction chunks as [|value chunks IH]; intros buffer; [constructor|].
  cbn [read_loop]. rewrite StreamFacts.yields_app. apply Forall_app; split; [|apply IH].
  rewrite StreamFacts.yields_flat_map.
  induction (removelast (split_blank (buffer ++ value))) as [|b bs IHb];
    [constructor|].
  simpl. apply Forall_app; split; [apply process_event_shape|exact IHb].
Qed.

(** X1: the events and diagnostics of the generator depend on the text of
    the response only, not on how the network cut it into chunks. *)
Theorem chunking_irrelevant :
  forall JSON_parse tem (v : Variant) (chunks chunks' : list jsstring)
         (failure : option Thrown),
    List.concat chunks = List.concat chunks' ->
    stream JSON_parse tem v (Body chunks failure)
    = stream JSON_parse tem v (Body chunks' failure).
Proof.
  intros JSON_parse tem v chunks chunks' failure H. simpl. f_equal.
  rewrite !(StreamFacts.read_loop_whole JSON_parse) by reflexivity.
  simpl. now rewrite H.
Qed.

Lemma chunking_irrelevant_witness :
  List.concat [js "event: thin"; js "king" ++ [LF] ++ js "data: {}" ++ [LF; LF]]
  = List.concat [framed thinking_block] /\
  stream Json.parse v8_TypeError_message Summarize
    (Body [js "event: thin"; js "king" ++ [LF] ++ js "data: {}" ++ [LF; LF]]
          None)
  = stream Json.parse v8_TypeError_message Summarize
      (Body [framed thinking_block] None).
Proof.
  split; [reflexivity|].
  apply (chunking_irrelevant Json.parse v8_TypeError_message Summarize
           [js "event: thin"; js "king" ++ [LF] ++ js "data: {}" ++ [LF; LF]]
           [framed thinking_block] None).
  reflexivity.
Defined.

Lemma stream_events_shape :
  forall JSON_parse tem (v : Variant) (r : Response),
    Forall event_shape (yields (fst (stream JSON_parse tem v r))).
Proof.
  intros JSON_parse tem v r.
  destruct r as [t|err|t| |chunks failure]; cbn [stream].
  - constructor.
  - destruct (get_prop (Some err) (js "detail")) as [detail|];
      [|constructor].
    simpl; apply Forall_cons; [|apply Forall_nil]. unfold event_shape. cbn.
    eexists; split; [reflexivity|]. apply or_default_truthy.
    destruct v; discriminate.
  - constructor.
  - simpl; apply Forall_cons; [|apply Forall_nil]. unfold event_shape. cbn.
    eexists; split; reflexivity.
  - apply read_loop_shape.
Qed.

(** X2: whatever the response, the text of every [thinking] and [content]
    event the generator yields is the empty string or a truthy value, and
    every [error] event carries an object whose only member [error] is
    truthy: a callback is never handed [undefined], [null], [0] or
    [false] for them. *)
Theorem yielded_events_shape :
  forall JSON_parse tem (v : Variant) (r : Response),
    Forall event_shape (yields (fst (stream JSON_parse tem v r))).
Proof. exact stream_events_shape. Qed.

Lemma fold_scan_no_data lines : forall ty,
  existsb (fun line => startsWith line (js "data: ")) lines = false ->
  snd (fold_left scan_line lines (ty, [])) = [].
Proof.
  induction lines as [|l lines IH]; intros ty H; [reflexivity|].
  cbn [existsb] in H. apply orb_false_iff in H as [Hl Hr].
  cbn [fold_left]. unfold scan_line at 2.
  destruct (startsWith l (js "event: ")); [now apply IH|].
  rewrite Hl. now apply IH.
Qed.

(** X3: a block without a line that starts with [data: ], such as a
    comment line sent to keep the connection alive, gives no event and no
    diagnostic. *)
Theorem block_without_data_ignored :
  forall JSON_parse (block : jsstring),
    has_data_line block = false ->
    process_event JSON_parse block = [].
Proof.
  intros JSON_parse block H. unfold process_event.
  destruct (negb (truthy (trim block))); [reflexivity|].
  pose proof (fold_scan_no_data (split_char LF block) (js "content") H) as Hs.
  fold (scan_lines block) in Hs.
  destruct (scan_lines block) as [ty d]. simpl in Hs. subst d. reflexivity.
Qed.

Lemma block_without_data_ignored_witness :
  has_data_line (js ": keep-alive" ++ [LF] ++ js "event: content") = false /\
  process_event Json.parse (js ": keep-alive" ++ [LF] ++ js "event: content")
  = [].
Proof.
  split; [reflexivity|].
  apply (block_without_data_ignored Json.parse). reflexivity.
Defined.

(** X4: of several [data: ] lines in one block the last one is the
    payload, and of several [event: ] lines the last one is the type; the
    lines are not joined.  A line added to a block replaces what the block
    had of its kind and keeps the other. *)
Theorem last_line_of_a_kind_wins :
  forall (block text : jsstring),
    LF_free text = true ->
    scan_lines (block ++ [LF] ++ js "data: " ++ text)
    = (fst (scan_lines block), text) /\
    scan_lines (block ++ [LF] ++ js "event: " ++ text)
    = (text, snd (scan_lines block)).
Proof.
  intros block text Ht. unfold scan_lines.
  split.
  - change (block ++ [LF] ++ js "data: " ++ text)
      with (block ++ LF :: (js "data: " ++ text)).
    rewrite split_char_app, fold_left_app.
    rewrite (StreamFacts.split_char_LF_free (js "data: " ++ text))
      by (rewrite StreamFacts.LF_free_app, Ht; reflexivity).
    cbn [fold_left].
    destruct (fold_left scan_line (split_char LF block) (js "content", []))
      as [ty d].
    unfold scan_line.
    change (startsWith (js "data: " ++ text) (js "event: ")) with false.
    cbv iota. rewrite startsWith_prefix. reflexivity.
  - change (block ++ [LF] ++ js "event: " ++ text)
      with (block ++ LF :: (js "event: " ++ text)).
    rewrite split_char_app, fold_left_app.
    rewrite (StreamFacts.split_char_LF_free (js "event: " ++ text))
      by (rewrite StreamFacts.LF_free_app, Ht; reflexivity).
    cbn [fold_left].
    destruct (fold_left scan_line (split_char LF block) (js "content", []))
      as [ty d].
    unfold scan_line. rewrite startsWith_prefix. reflexivity.
Qed.

Lemma last_line_of_a_kind_wins_witness :
  LF_free (js "{}") = true /\
  scan_lines (event_block (js "done") (js "{oops")
              ++ [LF] ++ js "data: " ++ js "{}")
  = (js "done", js "{}").
Proof.
  split; [reflexivity|].
  exact (proj1 (last_line_of_a_kind_wins
                  (event_block (js "done") (js "{oops")) (js "{}")
                  eq_refl)).
Defined.




End WireFacts.

(** ** More on article identifiers *)

Module HashFacts.
Import Api Shapes JSFacts.

Lemma ToInt32_shift (x : Z) : exists k, ToInt32 x = (x + k * 2 ^ 32)%Z.
Proof.
  unfold ToInt32. exists (- ((x + 2 ^ 31) / 2 ^ 32))%Z.
  rewrite Z.mod_eq by lia. lia.
Qed.

Lemma ToInt32_congr (a b k : Z) :
  a = (b + k * 2 ^ 32)%Z -> ToInt32 a = ToInt32 b.
Proof.
  intros ->. unfold ToInt32.
  replace (b + k * 2 ^ 32 + 2 ^ 31)%Z with (b + 2 ^ 31 + k * 2 ^ 32)%Z by lia.
  now rewrite Z_mod_plus_full.
Qed.

Lemma ToInt32_small (x : Z) : (- 2 ^ 31 <= x < 2 ^ 31)%Z -> ToInt32 x = x.
Proof. intros H. unfold ToInt32. rewrite Z.mod_small by lia. lia. Qed.

Lemma hashCode_fold str : forall h p,
  h = ToInt32 p ->
  fold_left
    (fun hash char => ToInt32 (ToInt32 (hash * 32) - hash + Z.of_N char)%Z)
    str h
  = ToInt32 (fold_left (fun h c => (31 * h + Z.of_N c)%Z) str p).
Proof.
  induction str as [|c str IH]; intros h p Hh; [exact Hh|].
  cbn [fold_left]. apply IH.
  destruct (ToInt32_shift p) as [k Hk].
  destruct (ToInt32_shift (h * 32)) as [j Hj].
  rewrite Hj, Hh, Hk.
  apply ToInt32_congr with (k := (j + 31 * k)%Z). lia.
Qed.

(** X6: [hashCode] is the polynomial hash in 31 of the code units, taken
    modulo 2^32 into the signed 32-bit range: the wrap-around after the
    shift and after the sum loses nothing of it.  So two URLs have the same
    hash exactly when their polynomials differ by a multiple of 2^32. *)
Theorem hashCode_is_poly31 :
  forall str : jsstring,
    hashCode str = ToInt32 (poly31 str) /\
    forall str' : jsstring,
      hashCode str = hashCode str'
      <-> ((poly31 str - poly31 str') mod 2 ^ 32 = 0)%Z.
Proof.
  assert (H : forall s, hashCode s = ToInt32 (poly31 s)).
  { intros s. unfold hashCode, poly31. apply hashCode_fold. reflexivity. }
  intros str. split; [apply H|].
  intros str'. rewrite !H. split.
  - intros E.
    destruct (ToInt32_shift (poly31 str)) as [k Hk].
    destruct (ToInt32_shift (poly31 str')) as [j Hj].
    replace (poly31 str - poly31 str')%Z with (0 + (j - k) * 2 ^ 32)%Z by lia.
    now rewrite Z_mod_plus_full.
  - intros E. apply Z.mod_divide in E; [|lia]. destruct E as [q Hq].
    apply ToInt32_congr with (k := q). lia.
Qed.

Lemma strip_hash_suffix_split slug :
  exists removed,
    slug = strip_hash_suffix slug ++ removed /\
    (removed = [] \/ hash_suffix removed).
Proof.
  induction slug as [|c rest (removed & Hs & Hr)].
  - exists []. split; [reflexivity|now left].
  - cbn [strip_hash_suffix].
    destruct (N.eqb c 45 && (10 <=? List.length rest)
              && forallb is_hex_lower rest) eqn:E.
    + exists (c :: rest). split; [reflexivity|right].
      apply andb_true_iff in E as [E Hhex].
      apply andb_true_iff in E as [Hc Hlen].
      apply N.eqb_eq in Hc. apply Nat.leb_le in Hlen. subst c.
      exists rest. auto.
    + exists removed. split; [|exact Hr].
      simpl. now rewrite <- Hs.
Qed.

Lemma strip_hash_suffix_cut keep : forall removed,
  hash_suffix removed ->
  (List.length (strip_hash_suffix (keep ++ removed)) <= List.length keep)%nat.
Proof.
  induction keep as [|c keep IH]; intros removed Hr.
  - destruct Hr as (hex & -> & Hlen & Hhex).
    cbn [app strip_hash_suffix].
    apply Nat.leb_le in Hlen. rewrite N.eqb_refl, Hlen, Hhex. simpl. lia.
  - cbn [app strip_hash_suffix].
    destruct (N.eqb c 45 && _ && _); simpl; [lia|].
    specialize (IH removed Hr). lia.
Qed.

(** X7: [slug.replace] with the hash pattern removes nothing, or exactly
    the end of the slug from a hyphen on, where that end is the hyphen and
    ten or more lower-case hexadecimal digits; the part before is never
    changed.  When the slug ends that way, the result holds nothing of
    that end. *)
Theorem strip_hash_suffix_removes_hash_only :
  forall slug : jsstring,
    (exists removed,
        slug = strip_hash_suffix slug ++ removed /\
        (removed = [] \/ hash_suffix removed)) /\
    (forall keep removed,
        slug = keep ++ removed -> hash_suffix removed ->
        (List.length (strip_hash_suffix slug) <= List.length keep)%nat).
Proof.
  intros slug. split; [apply strip_hash_suffix_split|].
  intros keep removed -> Hr. now apply strip_hash_suffix_cut.
Qed.

Lemma strip_hash_suffix_removes_hash_only_witness :
  js "my-title-0123456789ab" = js "my-title" ++ js "-0123456789ab" /\
  hash_suffix (js "-0123456789ab") /\
  (List.length (strip_hash_suffix (js "my-title-0123456789ab"))
   <= List.length (js "my-title"))%nat.
Proof.
  assert (H : hash_suffix (js "-0123456789ab")).
  { exists (js "0123456789ab"). repeat split. simpl. lia. }
  split; [reflexivity|split; [exact H|]].
  destruct (strip_hash_suffix_removes_hash_only (js "my-title-0123456789ab"))
    as [_ Hcut].
  exact (Hcut (js "my-title") (js "-0123456789ab") eq_refl H).
Defined.

End HashFacts.

Module SentFacts.
Import Stream Callbacks Wiring Shapes Sent Notions Examples JSFacts.







End SentFacts.

Module TrackFacts.
Import Stream Callbacks.

Lemma aborted_steps tem (v : Variant) steps : forall t,
  aborted t = true ->
  let t' := fold_left (track_step tem v) steps t in
  aborted t' = true /\
  (finished t = true -> calls t' = calls t) /\
  (calls t' = calls t \/ exists m, calls t' = calls t ++ [CallError m]).
Proof.
  induction steps as [|x steps IH]; intros t Ha; cbn [fold_left].
  - split; [exact Ha|]. split; [reflexivity|now left].
  - destruct x as [|i].
    + cbn [track_step].
      destruct (IH (mkTrack true (finished t) (calls t)) eq_refl)
        as (H1 & H2 & H3).
      split; [exact H1|]. split; [exact H2|exact H3].
    + cbn [track_step]. destruct (finished t) eqn:Hf.
      * destruct (IH t Ha) as (H1 & H2 & H3).
        split; [exact H1|]. split; [intros _; now apply H2|exact H3].
      * rewrite Ha.
        assert (Hc : exists log,
                   consume tem v logging true i (calls t) = (log, true) /\
                   (log = calls t \/ exists m, log = calls t ++ [CallError m])).
        { destruct i as [e|th|]; cbn.
          - eexists; split; [reflexivity|now left].
          - eexists; split; [reflexivity|right; eexists; reflexivity].
          - eexists; split; [reflexivity|now left]. }
        destruct Hc as (log & -> & Hlog).
        destruct (IH (mkTrack true true log) eq_refl) as (H1 & H2 & _).
        cbn [finished calls] in H2. specialize (H2 eq_refl).
        split; [exact H1|]. split; [discriminate|].
        rewrite H2. exact Hlog.
Qed.

(** X9: after [controller.abort()] a wrapper makes at most one more call, and
    that call can only be [onError]: whatever the generator delivers from
    then on, [onThinking], [onContent] and [onDone] are not called again. *)
Theorem abort_bounds_later_calls :
  forall tem (v : Variant) (before after : list TrackStep),
    let t1 := track_run tem v (before ++ [Aborts]) in
    let t2 := track_run tem v (before ++ Aborts :: after) in
    calls t2 = calls t1 \/ exists m, calls t2 = calls t1 ++ [CallError m].
Proof.
  intros tem v before after. unfold track_run.
  rewrite !fold_left_app. cbn [fold_left track_step].
  set (t := fold_left (track_step tem v) before (mkTrack false false [])).
  destruct (aborted_steps tem v after (mkTrack true (finished t) (calls t))
              eq_refl) as (_ & _ & H).
  exact H.
Qed.

End TrackFacts.

Module PipelineFacts.
Import Page Cells Notions Examples.

Section Pipeline.
Variable new_URL : jsstring -> option Api.URL.
Variable tem : jsstring -> jsstring.
Variable ToString : jsvalue -> jsstring.
Variable API_BASE : jsstring.

Lemma checkAllDone_status r w :
  status (page w) <> status_idle ->
  status (page (checkAllDone r w)) <> status_idle.
Proof.
  intros H. destruct (PageFacts.checkAllDone_page r w) as [E|E]; rewrite E.
  - exact H.
  - discriminate.
Qed.

Lemma consume_status (k : Track) i w :
  status (page w) <> status_idle ->
  status (page (fst (Callbacks.consume tem (variant k)
                       (callbacksOf tem ToString k) (aborted k) i w)))
  <> status_idle.
Proof.
  intros H. unfold Callbacks.consume, Callbacks.catch_block, callbacksOf.
  destruct i as [e|t|]; [| |exact H].
  - destruct (aborted k); [exact H|].
    unfold Callbacks.dispatch.
    destruct (variant k), (Stream.type e);
      cbn -[get_prop checkAllDone];
      try exact H;
      unfold summaryOnDone, summaryOnError, scriptOnDone, scriptOnError;
      repeat match goal with
             | |- context [get_prop ?a ?b] => destruct (get_prop a b)
             end;
      cbn -[checkAllDone];
      try exact H;
      try (apply checkAllDone_status; exact H).
  - destruct (variant k); cbn -[checkAllDone];
      unfold summaryOnError, scriptOnError;
      apply checkAllDone_status; exact H.
Qed.

Lemma step_status w x :
  status (page w) <> status_idle ->
  status (page (step new_URL tem ToString API_BASE w x)) <> status_idle.
Proof.
  intros H. destruct x as [u|r crawled|r t|t i|c ttsResult|c t];
    cbn [step].
  - discriminate.
  - destruct (nth_error (runs w) r) as [k|]; [|exact H].
    destruct (crawlPending k); [|exact H].
    unfold afterCrawl.
    match goal with
    | |- context [get_prop ?a ?b] => destruct (get_prop a b)
    end; discriminate.
  - destruct (nth_error (runs w) r) as [k|]; [|exact H].
    destruct (crawlPending k); [|exact H]. discriminate.
  - destruct (nth_error (tracks w) t) as [k|] eqn:Hk; [|exact H].
    destruct (finished k); [exact H|].
    pose proof (consume_status k i w H) as Hc.
    destruct (Callbacks.consume _ _ _ _ _ _) as [w1 fin]. exact Hc.
  - destruct (nth_error (ttsCalls w) c) as [k|]; [|exact H].
    destruct (ttsPending k); [|exact H].
    unfold afterTts.
    match goal with
    | |- context [match get_prop ?a ?b with _ => _ end] =>
        destruct (get_prop a b)
    end; exact H.
  - destruct (nth_error (ttsCalls w) c) as [k|]; [|exact H].
    destruct (ttsPending k); exact H.
Qed.

Lemma nth_error_update {A} (f : A -> A) (l : list A) : forall i x,
  nth_error l i = Some x -> nth_error (update i f l) i = Some (f x).
Proof.
  induction l as [|y l IH]; intros [|i] x H; simpl in *; try discriminate.
  - now injection H as ->.
  - now apply IH.
Qed.

Lemma thinking_step w t k text :
  nth_error (tracks w) t = Some k ->
  finished k = false -> aborted k = false ->
  let w' := step new_URL tem ToString API_BASE w (thinking_input t text) in
  (exists k', nth_error (tracks w') t = Some k' /\ variant k' = variant k
              /\ finished k' = false /\ aborted k' = false) /\
  stream_cell (variant k) (page w')
  = appendThinking ToString (JStr text) (stream_cell (variant k) (page w)).
Proof.
  intros Hk Hf Ha. unfold thinking_input. cbn [step]. rewrite Hk, Hf.
  unfold Callbacks.consume. rewrite Ha.
  unfold Callbacks.dispatch, callbacksOf. cbn [Stream.type Stream.data].
  destruct (variant k) eqn:Hv; cbn -[appendThinking].
  - split; [|reflexivity].
    eexists. split; [apply (nth_error_update _ _ _ _ Hk)|].
    cbn. rewrite Hf. auto.
  - split; [|reflexivity].
    eexists. split; [apply (nth_error_update _ _ _ _ Hk)|].
    cbn. rewrite Hf. auto.
Qed.

Lemma thinking_steps texts : forall w t k text,
  nth_error (tracks w) t = Some k ->
  finished k = false -> aborted k = false ->
  let old := stream_cell (variant k) (page w) in
  let whole := (thinking old ++ List.concat (text :: texts))%list in
  stream_cell (variant k)
    (page (run_inputs new_URL tem ToString API_BASE w
             (List.map (thinking_input t) (text :: texts))))
  = mkStreaming (isStreaming old) whole (content old)
      (Think.title (Think.parseLatestThinkBlock whole))
      (Think.content (Think.parseLatestThinkBlock whole)).
Proof.
  induction texts as [|text2 texts IH]; intros w t k text Hk Hf Ha.
  - cbn [List.map run_inputs fold_left List.concat].
    destruct (thinking_step w t k text Hk Hf Ha) as [_ E].
    cbv zeta in E. rewrite E. rewrite app_nil_r. reflexivity.
  - destruct (thinking_step w t k text Hk Hf Ha)
      as [(k' & Hk' & Hv & Hf' & Ha') E].
    cbv zeta in E.
    change (run_inputs new_URL tem ToString API_BASE w
              (List.map (thinking_input t) (text :: text2 :: texts)))
      with (run_inputs new_URL tem ToString API_BASE
              (step new_URL tem ToString API_BASE w (thinking_input t text))
              (List.map (thinking_input t) (text2 :: texts))).
    rewrite <- Hv. rewrite (IH _ t k' text2 Hk' Hf' Ha').
    rewrite Hv, E. cbn [appendThinking isStreaming thinking content text_of].
    cbn [List.concat]. rewrite <- !app_assoc. reflexivity.
Qed.

End Pipeline.

(** X10: once [handleSubmit] has been called the page never shows the idle
    state again, whatever happens afterwards: no promise that settles, no
    event and no later submission puts [status] back to [idle], so the
    welcome form is not shown a second time. *)
Theorem status_never_idle_again :
  forall new_URL tem ToString API_BASE (w : World) (u : jsstring)
         (xs : list Input),
    status (page (run_inputs new_URL tem ToString API_BASE w (Submit u :: xs)))
    <> status_idle.
Proof.
  intros new_URL tem ToString API_BASE w u xs. unfold run_inputs.
  cbn [fold_left].
  assert (H : status (page (step new_URL tem ToString API_BASE w (Submit u)))
              <> status_idle) by discriminate.
  revert H.
  generalize (step new_URL tem ToString API_BASE w (Submit u)).
  induction xs as [|x xs IH]; intros w0 H; cbn [fold_left]; [exact H|].
  apply IH. now apply step_status.
Qed.

(** X11: however the reasoning text arrives in pieces, the heading and the
    body shown for a track are those of the whole text received so far:
    after any number of [thinking] events the cell holds the concatenation
    of the texts after what it held before, and [currentThinkingTitle] and
    [currentThinkingContent] are [parseLatestThinkBlock] of that text; the
    answer text and the streaming flag are as before. *)
Theorem heading_follows_whole_reasoning :
  forall new_URL tem ToString API_BASE (w : World) (t : nat) (k : Track)
         (text : jsstring) (texts : list jsstring),
    nth_error (tracks w) t = Some k ->
    finished k = false -> aborted k = false ->
    let old := stream_cell (variant k) (page w) in
    let whole := (thinking old ++ List.concat (text :: texts))%list in
    stream_cell (variant k)
      (page (run_inputs new_URL tem ToString API_BASE w
               (List.map (thinking_input t) (text :: texts))))
    = mkStreaming (isStreaming old) whole (content old)
        (Think.title (Think.parseLatestThinkBlock whole))
        (Think.content (Think.parseLatestThinkBlock whole)).
Proof.
  intros new_URL tem ToString API_BASE w t k text texts.
  apply thinking_steps.
Qed.

Lemma heading_follows_whole_reasoning_witness :
  nth_error (tracks world_generating) 0
  = Some (mkTrack Stream.Summarize 0
            (Api.extractArticleId example_new_URL url_one (js "generic"))
            false false) /\
  currentThinkingTitle
    (streaming
       (page (run_inputs example_new_URL v8_TypeError_message
                example_ToString example_API_BASE world_generating
                (List.map (thinking_input 0)
                   [js "**Pl"; js "an**" ++ [LF]; [LF] ++ js "body"]))))
  = js "Plan".
Proof.
  split; [reflexivity|].
  pose proof (heading_follows_whole_reasoning
                example_new_URL v8_TypeError_message example_ToString
                example_API_BASE world_generating 0 _
                (js "**Pl") [js "an**" ++ [LF]; [LF] ++ js "body"]
                eq_refl eq_refl eq_refl) as H.
  cbv zeta in H. cbn [variant stream_cell] in H.
  rewrite H. reflexivity.
Defined.

End PipelineFacts.

Module RunFacts.
Import Page Cells Runs Notions Examples.

Lemma nth_error_snoc {A} (l l' : list A) x :
  nth_error (l ++ x :: l') (List.length l) = Some x.
Proof. induction l as [|y l IH]; [reflexivity|exact IH]. Qed.

Lemma nth_error_snoc2 {A} (l l' : list A) x y :
  nth_error (l ++ x :: y :: l') (S (List.length l)) = Some y.
Proof. induction l as [|z l IH]; [reflexivity|exact IH]. Qed.

Lemma update_snoc {A} (f : A -> A) (l l' : list A) x :
  update (List.length l) f (l ++ x :: l') = l ++ f x :: l'.
Proof. induction l as [|y l IH]; [reflexivity|simpl; now rewrite IH]. Qed.

Lemma update_cons {A} (f : A -> A) (l : list A) z i :
  update (S i) f (z :: l) = z :: update i f l.
Proof. reflexivity. Qed.

Lemma update_snoc2 {A} (f : A -> A) (l l' : list A) x y :
  update (S (List.length l)) f (l ++ x :: y :: l') = l ++ x :: f y :: l'.
Proof.
  induction l as [|z l IH]; [reflexivity|].
  cbn [List.length app]. now rewrite update_cons, IH.
Qed.

Lemma length_update {A} (f : A -> A) (l : list A) : forall i,
  List.length (update i f l) = List.length l.
Proof.
  induction l as [|y l IH]; intros [|i]; simpl; try reflexivity.
  now rewrite IH.
Qed.

Lemma length_abortRef ref ts : List.length (abortRef ref ts) = List.length ts.
Proof. destruct ref; [apply length_update|reflexivity]. Qed.

Lemma readable_get v k : readable v k = true -> exists x, get_prop v k = Some x.
Proof.
  unfold readable. destruct (get_prop v k) as [x|]; [eauto|discriminate].
Qed.

Section Pipeline.
Variable new_URL : jsstring -> option Api.URL.
Variable tem : jsstring -> jsstring.
Variable ToString : jsvalue -> jsstring.
Variable API_BASE : jsstring.

Lemma afterCrawl_started p a s T R C r u crawled x :
  get_prop (Some crawled) (js "title") = Some x ->
  afterCrawl new_URL tem r u crawled (mkWorld p a s T R C)
  = mkWorld
      (setScriptStreaming (withIsStreaming true)
         (setAudioStatus audio_scripting
            (setStreaming (withIsStreaming true)
               (setStatus status_processing (setCrawlData crawled p)))))
      (Some (List.length T))
      (Some (List.length
               (T ++ [mkTrack Stream.Summarize r
                        (articleIdOf new_URL u (member crawled (js "platform")))
                        false false])))
      ((T ++ [mkTrack Stream.Summarize r
                (articleIdOf new_URL u (member crawled (js "platform")))
                false false])
         ++ [mkTrack Stream.Script r
               (articleIdOf new_URL u (member crawled (js "platform")))
               false false])
      R C.
Proof. intros Hx. unfold afterCrawl. rewrite Hx. reflexivity. Qed.

Lemma crawl_step w u crawled :
  readable (Some crawled) (js "title") = true ->
  exists T,
    List.length T = List.length (tracks w) /\
    run_inputs new_URL tem ToString API_BASE w
      [Submit u; CrawlResolves (List.length (runs w)) crawled]
    = started
        (mkPage status_processing None crawled JNull JNull audio_scripting
                (Some JNull) JNull None
                (mkStreaming true [] [] [] []) (mkStreaming true [] [] [] []))
        (Some (List.length T)) (Some (S (List.length T))) T
        (runs w) (ttsCalls w)
        (articleIdOf new_URL u (member crawled (js "platform")))
        (mkRun u false false false).
Proof.
  intros Hc. apply readable_get in Hc as [x Hx].
  unfold run_inputs. cbn [fold_left step]. unfold submit. cbn [runs].
  rewrite nth_error_snoc. cbn [crawlPending url].
  unfold withRuns, markCrawled.
  cbn [page tracks runs ttsCalls abortControllerRef scriptAbortControllerRef].
  rewrite update_snoc. cbn [url summaryDone scriptDone].
  rewrite (afterCrawl_started _ _ _ _ _ _ _ _ _ x Hx).
  eexists. split; [|unfold started; rewrite <- app_assoc, length_app,
                     Nat.add_1_r; reflexivity].
  rewrite !length_abortRef. reflexivity.
Qed.

Ltac world_fields :=
  cbv [withRuns withPage withTracks withTtsCalls runs page tracks ttsCalls
       abortControllerRef scriptAbortControllerRef finishTrack
       markSummaryDone markScriptDone settleTts].

Lemma summary_step p a s T R C aid run summary :
  readable (Some summary) (js "main_topic") = true ->
  step new_URL tem ToString API_BASE (started p a s T R C aid run)
       (summary_arrives (List.length T) summary)
  = started
      ((if scriptDone run then setStatus status_done else fun q => q)
         (setStreaming (withIsStreaming false) (setSummaryData summary p)))
      a s T R C aid
      (mkRun (url run) (crawlPending run) true (scriptDone run)).
Proof.
  intros Hm. apply readable_get in Hm as [x Hx].
  destruct run as [ru rc rs rd].
  unfold started, summary_arrives. cbv [step tracks].
  rewrite nth_error_snoc.
  cbv [finished variant aborted owner Callbacks.consume Callbacks.dispatch
       callbacksOf Stream.type Stream.data summaryCallbacks Callbacks.onDone
       Callbacks.call summaryOnDone].
  rewrite Hx. cbv [checkAllDone]. world_fields.
  rewrite update_snoc, nth_error_snoc.
  cbv [summaryDone scriptDone url crawlPending andb].
  destruct rd; world_fields; rewrite update_snoc; reflexivity.
Qed.

Lemma script_step p a s T R C aid run script :
  readable (member script (js "script")) (js "title") = true ->
  step new_URL tem ToString API_BASE (started p a s T R C aid run)
       (script_arrives (List.length T) script)
  = started
      (setAudioStatus audio_synthesizing
         ((if summaryDone run then setStatus status_done else fun q => q)
            (setAudioStatus audio_done
               (setScriptStreaming (withIsStreaming false)
                  (setScriptData script p)))))
      a s T R (C ++ [mkTts (List.length R) script true]) aid
      (mkRun (url run) (crawlPending run) (summaryDone run) true).
Proof.
  intros Hm. unfold member in Hm.
  destruct (get_prop (Some script) (js "script")) as [sv|] eqn:Hs;
    [|discriminate].
  apply readable_get in Hm as [x Hx].
  destruct run as [ru rc rs rd].
  unfold started, script_arrives. cbv [step tracks].
  rewrite nth_error_snoc2.
  cbv [finished variant aborted owner Callbacks.consume Callbacks.dispatch
       callbacksOf Stream.type Stream.data scriptCallbacks Callbacks.onDone
       Callbacks.call scriptOnDone].
  rewrite Hs, Hx. cbv [checkAllDone]. world_fields.
  rewrite update_snoc, nth_error_snoc.
  cbv [summaryDone scriptDone url crawlPending andb].
  destruct rs; world_fields; rewrite update_snoc2; reflexivity.
Qed.

Lemma audio_step p a s T R C aid run script tts :
  readable (Some tts) (js "duration_seconds") = true ->
  step new_URL tem ToString API_BASE
       (started p a s T R (C ++ [mkTts (List.length R) script true]) aid run)
       (audio_arrives (List.length C) tts)
  = started
      (setAudioStatus audio_ready
         (setAudioUrl
            (Some (getAudioUrl ToString API_BASE
                     (member script (js "article_id"))
                     (member script (js "user_id"))))
            (setSynthesizeData tts p)))
      a s T R (C ++ [mkTts (List.length R) script false]) aid run.
Proof.
  intros Hm. apply readable_get in Hm as [x Hx].
  unfold started, audio_arrives. cbv [step ttsCalls].
  rewrite nth_error_snoc. cbv [ttsPending ttsScript afterTts].
  rewrite Hx. world_fields. rewrite update_snoc. reflexivity.
Qed.

End Pipeline.

(** X12: when nothing fails, a run ends with the page complete, in whichever
    order the two tracks and the synthesis call finish: after a submission
    from any state of the page, the crawl result, the summary result, the
    script result and the synthesis result (each with the members the
    pipeline reads) leave [status] at [done] and [audioStatus] at [ready],
    no error, the four results in their cells, both streaming flags off,
    and the audio URL built from the article and user identifiers of the
    script result. *)
Theorem run_completes_in_any_order :
  forall new_URL tem ToString API_BASE (w : World) (u : jsstring)
         (crawled summary script tts : json) (order : list Input),
    readable (Some crawled) (js "title") = true ->
    readable (Some summary) (js "main_topic") = true ->
    readable (member script (js "script")) (js "title") = true ->
    readable (Some tts) (js "duration_seconds") = true ->
    In order (completions (List.length (tracks w)) (List.length (ttsCalls w))
                          summary script tts) ->
    page (run_inputs new_URL tem ToString API_BASE w
            (Submit u :: CrawlResolves (List.length (runs w)) crawled :: order))
    = complete_page ToString API_BASE crawled summary script tts.
Proof.
  intros new_URL tem ToString API_BASE w u crawled summary script tts order
         Hc Hs Hp Ht Hin.
  change (Submit u :: CrawlResolves (List.length (runs w)) crawled :: order)
    with ([Submit u; CrawlResolves (List.length (runs w)) crawled] ++ order).
  unfold run_inputs. rewrite fold_left_app.
  destruct (crawl_step new_URL tem ToString API_BASE w u crawled Hc)
    as (T & HT & Hw).
  unfold run_inputs in Hw. rewrite Hw. rewrite <- HT in Hin.
  destruct Hin as [<-|[<-|[<-|[]]]]; cbn [fold_left].
  - rewrite summary_step by exact Hs.
    rewrite script_step by exact Hp.
    rewrite audio_step by exact Ht. reflexivity.
  - rewrite script_step by exact Hp.
    rewrite summary_step by exact Hs.
    rewrite audio_step by exact Ht. reflexivity.
  - rewrite script_step by exact Hp.
    rewrite audio_step by exact Ht.
    rewrite summary_step by exact Hs. reflexivity.
Qed.

Lemma skipn_length_app {A} (l l' : list A) : skipn (List.length l) (l ++ l') = l'.
Proof. induction l as [|x l IH]; [reflexivity|exact IH]. Qed.

(** X13: when the crawl of a submission resolves, its two tracks are started
    together: a summary track and a script track of that run, both with
    the article identifier [extractArticleId] gives for the submitted URL
    and the platform of the crawl result, neither aborted nor finished;
    and the two refs of the page hold exactly these two tracks, so the
    next submission aborts them. *)
Theorem tracks_start_together :
  forall new_URL tem ToString API_BASE (w : World) (u : jsstring)
         (crawled : json),
    readable (Some crawled) (js "title") = true ->
    let w' := run_inputs new_URL tem ToString API_BASE w
                [Submit u; CrawlResolves (List.length (runs w)) crawled] in
    let aid := articleIdOf new_URL u (member crawled (js "platform")) in
    skipn (List.length (tracks w)) (tracks w')
    = [mkTrack Stream.Summarize (List.length (runs w)) aid false false;
       mkTrack Stream.Script (List.length (runs w)) aid false false] /\
    abortControllerRef w' = Some (List.length (tracks w)) /\
    scriptAbortControllerRef w' = Some (S (List.length (tracks w))).
Proof.
  intros new_URL tem ToString API_BASE w u crawled Hc w' aid.
  destruct (crawl_step new_URL tem ToString API_BASE w u crawled Hc)
    as (T & HT & Hw).
  subst w'. rewrite Hw. unfold started.
  cbn [tracks abortControllerRef scriptAbortControllerRef].
  rewrite <- HT, skipn_length_app. repeat split.
Qed.

Lemma tracks_start_together_witness :
  List.map article_id (tracks world_generating)
  = [Api.extractArticleId example_new_URL url_one (js "generic");
     Api.extractArticleId example_new_URL url_one (js "generic")].
Proof.
  destruct (tracks_start_together
              example_new_URL v8_TypeError_message example_ToString
              example_API_BASE initialWorld url_one crawled_one eq_refl)
    as [H _].
  exact (f_equal (List.map article_id) H).
Defined.

Lemma run_completes_in_any_order_witness :
  status
    (page (example_run
             [Submit url_one; CrawlResolves 0 crawled_one;
              script_arrives 0 script_one; audio_arrives 0 tts_one;
              summary_arrives 0
                (JObj [(js "main_topic", JStr (js "One"))])]))
  = status_done.
Proof.
  exact (f_equal status
           (run_completes_in_any_order
              example_new_URL v8_TypeError_message example_ToString
              example_API_BASE initialWorld url_one crawled_one
              (JObj [(js "main_topic", JStr (js "One"))]) script_one tts_one
              [script_arrives 0 script_one; audio_arrives 0 tts_one;
               summary_arrives 0 (JObj [(js "main_topic", JStr (js "One"))])]
              eq_refl eq_refl eq_refl eq_refl
              (or_intror (or_intror (or_introl eq_refl))))).
Defined.

End RunFacts.

(** ** The display parsers *)

Module TrimFacts.
Import JSFacts Texts.

Lemma trimStart_idem s : trimStart (trimStart s) = trimStart s.
Proof.
  induction s as [|c s IH]; [reflexivity|].
  simpl. destruct (isWhiteSpace c) eqn:E; [exact IH|].
  simpl. now rewrite E.
Qed.

Lemma trimStart_snoc s c :
  isWhiteSpace c = false -> trimStart (s ++ [c]) = trimStart s ++ [c].
Proof.
  intros Hc. induction s as [|x s IH]; simpl.
  - now rewrite Hc.
  - destruct (isWhiteSpace x); [exact IH|reflexivity].
Qed.

Lemma trimEnd_cons c s :
  isWhiteSpace c = false -> trimEnd (c :: s) = c :: trimEnd s.
Proof.
  intros Hc. unfold trimEnd. simpl.
  rewrite trimStart_snoc by exact Hc. rewrite rev_app_distr. reflexivity.
Qed.

Lemma trimEnd_idem s : trimEnd (trimEnd s) = trimEnd s.
Proof.
  unfold trimEnd. now rewrite rev_involutive, trimStart_idem.
Qed.

Lemma trimStart_fixed s :
  trimStart s = s <->
  match s with [] => True | c :: _ => isWhiteSpace c = false end.
Proof.
  destruct s as [|c s]; simpl; [tauto|].
  destruct (isWhiteSpace c) eqn:E; split; try congruence; try reflexivity.
  intros H. exfalso.
  assert (Hl : (List.length (trimStart s) <= List.length s)%nat).
  { clear. induction s as [|x s IH]; simpl; [lia|].
    destruct (isWhiteSpace x); simpl; lia. }
  rewrite H in Hl. simpl in Hl. lia.
Qed.

Lemma trim_idem s : trim (trim s) = trim s.
Proof.
  unfold trim.
  assert (H : trimStart (trimEnd (trimStart s)) = trimEnd (trimStart s)).
  { pose proof (trimStart_idem s) as Hi. apply trimStart_fixed in Hi.
    destruct (trimStart s) as [|c t]; [reflexivity|].
    rewrite trimEnd_cons by exact Hi. simpl. now rewrite Hi. }
  rewrite H. apply trimEnd_idem.
Qed.

Lemma trimStart_suffix s : exists w, s = w ++ trimStart s.
Proof.
  induction s as [|c s [w Hw]]; [now exists []|].
  simpl. destruct (isWhiteSpace c).
  - exists (c :: w). simpl. now rewrite <- Hw.
  - now exists [].
Qed.

Lemma trimEnd_prefix s : exists w, s = trimEnd s ++ w.
Proof.
  unfold trimEnd. destruct (trimStart_suffix (rev s)) as [w Hw].
  exists (rev w). rewrite <- rev_app_distr, <- Hw. now rewrite rev_involutive.
Qed.

Lemma occurs_cons p c s : occurs p (c :: s) = startsWith (c :: s) p || occurs p s.
Proof. reflexivity. Qed.

Lemma occurs_suffix p w s : occurs p (w ++ s) = false -> occurs p s = false.
Proof.
  induction w as [|c w IH]; [auto|].
  change ((c :: w) ++ s) with (c :: (w ++ s)). rewrite occurs_cons.
  intros H. apply orb_false_iff in H as [_ H]. now apply IH.
Qed.

Lemma occurs_prefix p s w :
  p <> [] -> occurs p (s ++ w) = false -> occurs p s = false.
Proof.
  intros Hp. induction s as [|c s IH].
  - intros _. destruct p; [congruence|reflexivity].
  - change ((c :: s) ++ w) with (c :: (s ++ w)). rewrite !occurs_cons.
    intros H. apply orb_false_iff in H as [H1 H2].
    rewrite IH by exact H2. rewrite orb_false_r.
    destruct (startsWith (c :: s) p) eqn:E; [|reflexivity].
    apply startsWith_true_app with (b := w) in E.
    change ((c :: s) ++ w) with (c :: (s ++ w)) in E. congruence.
Qed.

Lemma occurs_trim p s : p <> [] -> occurs p s = false -> occurs p (trim s) = false.
Proof.
  intros Hp H. unfold trim.
  destruct (trimStart_suffix s) as [w Hw].
  destruct (trimEnd_prefix (trimStart s)) as [w' Hw'].
  rewrite Hw in H. apply occurs_suffix in H.
  rewrite Hw' in H. now apply occurs_prefix in H.
Qed.

End TrimFacts.

Module CleanFacts.
Import Cards Texts JSFacts TrimFacts.

Lemma unescape_other a s :
  ((a =? 92) && match s with b :: _ => b =? 110 | [] => false end)%N = false ->
  unescape (a :: s) = a :: unescape s.
Proof.
  destruct s as [|b s]; [reflexivity|]. cbn [unescape]. now intros ->.
Qed.

Lemma unescape_pairs_other a s :
  startsWith (a :: s) [92; 110; 92; 110]%N = false ->
  unescape_pairs (a :: s) = a :: unescape_pairs s.
Proof.
  destruct s as [|b [|c [|d s4]]]; try reflexivity.
  cbn [unescape_pairs startsWith]. rewrite andb_true_r, !andb_assoc.
  now intros ->.
Qed.

(** The first code unit of the result of the first replacement: a line
    feed where a match starts, and the first code unit of the text
    otherwise. *)
Lemma unescape_pairs_head a s :
  exists t,
    unescape_pairs (a :: s) = (if startsWith (a :: s) [92; 110; 92; 110]%N
                               then LF else a) :: t.
Proof.
  destruct (startsWith (a :: s) [92; 110; 92; 110]%N) eqn:E.
  - destruct s as [|b [|c [|d s4]]];
      try (cbn in E; rewrite ?andb_false_r in E; discriminate).
    cbn [unescape_pairs]. cbn [startsWith] in E.
    rewrite andb_true_r, !andb_assoc in E. rewrite E. eauto.
  - rewrite unescape_pairs_other by exact E. eauto.
Qed.

Lemma unescape_pairs_redundant_le n : forall s,
  (List.length s <= n)%nat -> unescape (unescape_pairs s) = unescape s.
Proof.
  induction n as [|n IH]; intros s Hn.
  { destruct s; [reflexivity|simpl in Hn; lia]. }
  destruct s as [|a s]; [reflexivity|].
  destruct (startsWith (a :: s) [92; 110; 92; 110]%N) eqn:E.
  - destruct s as [|b [|c [|d s4]]];
      try (cbn in E; rewrite ?andb_false_r in E; discriminate).
    cbn [startsWith] in E. rewrite andb_true_r, !andb_assoc in E.
    cbn [unescape_pairs]. rewrite E.
    apply andb_true_iff in E as [E Hd]. apply andb_true_iff in E as [E Hc].
    apply andb_true_iff in E as [Ha Hb].
    apply N.eqb_eq in Ha, Hb, Hc, Hd. subst a b c d.
    rewrite (unescape_other LF) by reflexivity.
    rewrite (unescape_other LF) by reflexivity.
    rewrite IH by (simpl in Hn; lia).
    reflexivity.
  - rewrite unescape_pairs_other by exact E.
    destruct s as [|b s]; [reflexivity|].
    destruct ((a =? 92) && (b =? 110))%N eqn:Eab.
    + apply andb_true_iff in Eab as [Ha Hb].
      apply N.eqb_eq in Ha, Hb. subst a b.
      assert (E' : startsWith (110%N :: s) [92; 110; 92; 110]%N = false)
        by reflexivity.
      rewrite (unescape_pairs_other _ _ E').
      cbn [unescape]. cbn [N.eqb Pos.eqb andb].
      apply f_equal. apply IH. simpl in Hn. lia.
    + destruct (unescape_pairs_head b s) as [t Ht].
      assert (Hhead : ((a =? 92)
                       && match unescape_pairs (b :: s) with
                          | h :: _ => h =? 110
                          | [] => false
                          end)%N = false).
      { rewrite Ht.
        destruct (startsWith (b :: s) [92; 110; 92; 110]%N) eqn:Eb.
        - change (LF =? 110)%N with false. apply andb_false_r.
        - exact Eab. }
      rewrite unescape_other by exact Hhead.
      rewrite (unescape_other a (b :: s)) by exact Eab.
      apply f_equal. apply IH. simpl in Hn |- *. lia.
Qed.

Lemma unescape_pairs_redundant s : unescape (unescape_pairs s) = unescape s.
Proof. apply (unescape_pairs_redundant_le (List.length s)). lia. Qed.

(** X14: the first replacement of [cleanThinkingText] changes nothing in its
    result: the second replacement alone turns every escaped line feed
    into a line feed, those that come in pairs included. *)
Theorem first_replacement_redundant :
  forall text : jsstring, cleanThinkingText text = clean_in_two_steps text.
Proof.
  intros text. unfold cleanThinkingText, clean_in_two_steps.
  now rewrite unescape_pairs_redundant.
Qed.

Lemma unescape_no_match s : startsWith (unescape s) escaped_LF = false.
Proof.
  destruct s as [|a s]; [reflexivity|].
  destruct ((a =? 92)
            && match s with b :: _ => b =? 110 | [] => false end)%N eqn:E.
  - destruct s as [|b s]; [now rewrite andb_false_r in E|].
    cbn [unescape]. rewrite E. reflexivity.
  - rewrite unescape_other by exact E.
    unfold escaped_LF. cbn [startsWith].
    destruct (a =? 92)%N; [|reflexivity]. cbn [andb] in E |- *.
    destruct s as [|b s]; [reflexivity|].
    destruct ((b =? 92)
              && match s with c :: _ => c =? 110 | [] => false end)%N eqn:Eb.
    + destruct s as [|c s]; [now rewrite andb_false_r in Eb|].
      cbn [unescape]. rewrite Eb. reflexivity.
    + rewrite unescape_other by exact Eb. cbn [startsWith]. now rewrite E.
Qed.

Lemma unescape_clean s : occurs escaped_LF (unescape s) = false.
Proof.
  induction s as [|a|a b l IHl IHbl] using list_ind2.
  - reflexivity.
  - cbn. now rewrite andb_false_r.
  - pose proof (unescape_no_match (a :: b :: l)) as H.
    cbn [unescape] in H |- *.
    destruct ((a =? 92) && (b =? 110))%N;
      rewrite occurs_cons, H; [exact IHl|exact IHbl].
Qed.

Lemma startsWith_cons x s y p :
  startsWith (x :: s) (y :: p) = N.eqb x y && startsWith s p.
Proof. reflexivity. Qed.

Lemma squeeze_head s x :
  startsWith (squeeze false s) [x] = startsWith s [x].
Proof.
  destruct s as [|d s]; [reflexivity|]. cbn [squeeze].
  destruct (N.eqb d LF) eqn:E; [|reflexivity].
  apply N.eqb_eq in E. subst d.
  destruct (startsWith s [LF; LF]); reflexivity.
Qed.

Lemma squeeze_true_head s : startsWith (squeeze true s) [LF] = false.
Proof.
  induction s as [|c s IH]; [reflexivity|]. cbn [squeeze].
  destruct (N.eqb c LF) eqn:E; [exact IH|].
  cbn [startsWith]. now rewrite E.
Qed.

Lemma startsWith_longer s c q :
  startsWith s [c] = false -> startsWith s (c :: q) = false.
Proof.
  destruct s as [|x s]; [reflexivity|]. cbn [startsWith].
  rewrite andb_true_r. now intros ->.
Qed.

Lemma squeeze_pair s :
  startsWith s [LF; LF] = false ->
  startsWith (squeeze false s) [LF; LF] = false.
Proof.
  destruct s as [|d s]; [reflexivity|]. cbn [squeeze].
  destruct (N.eqb d LF) eqn:E.
  - apply N.eqb_eq in E. subst d. intros H.
    assert (Hs : startsWith s [LF] = false).
    { cbn [startsWith] in H. rewrite N.eqb_refl in H. cbn [andb] in H.
      destruct s as [|x s]; [reflexivity|].
      cbn [startsWith] in H |- *. exact H. }
    rewrite (startsWith_longer s LF [LF] Hs).
    cbn [startsWith]. rewrite N.eqb_refl. cbn [andb].
    destruct (squeeze false s) as [|y t] eqn:Eq; [reflexivity|].
    pose proof (squeeze_head s LF) as Hh. rewrite Eq, Hs in Hh.
    cbn [startsWith] in Hh |- *. exact Hh.
  - intros _. cbn [startsWith]. now rewrite E.
Qed.

Lemma squeeze_keeps_clean s : forall b,
  occurs escaped_LF s = false -> occurs escaped_LF (squeeze b s) = false.
Proof.
  induction s as [|c s IH]; intros b H; [reflexivity|].
  rewrite occurs_cons in H. apply orb_false_iff in H as [H1 H2].
  cbn [squeeze]. destruct (N.eqb c LF) eqn:E.
  - destruct b; [now apply IH|].
    destruct (startsWith s [LF; LF]).
    + rewrite !occurs_cons. rewrite IH by exact H2. reflexivity.
    + rewrite occurs_cons. rewrite IH by exact H2. reflexivity.
  - rewrite occurs_cons, IH by exact H2. rewrite orb_false_r.
    unfold escaped_LF in *. cbn [startsWith] in H1 |- *.
    destruct (c =? 92)%N; [|reflexivity]. cbn [andb] in H1 |- *.
    pose proof (squeeze_head s 110%N) as Hh.
    destruct (squeeze false s) as [|y t]; [reflexivity|].
    destruct s as [|x s']; cbn [startsWith] in Hh, H1 |- *; congruence.
Qed.

Lemma squeeze_no_run s : forall b,
  occurs [LF; LF; LF] (squeeze b s) = false.
Proof.
  induction s as [|c s IH]; intros b; [reflexivity|].
  cbn [squeeze]. destruct (N.eqb c LF) eqn:E.
  - destruct b; [apply IH|].
    destruct (startsWith s [LF; LF]) eqn:Es.
    + rewrite !occurs_cons, IH.
      pose proof (squeeze_true_head s) as Hh.
      rewrite !startsWith_cons, Hh, (startsWith_longer _ LF [LF] Hh).
      now rewrite !andb_false_r.
    + rewrite occurs_cons, IH. rewrite orb_false_r.
      rewrite startsWith_cons, (squeeze_pair s Es). apply andb_false_r.
  - rewrite occurs_cons, IH. cbn [startsWith]. now rewrite E.
Qed.

Lemma unescape_fixed s : occurs escaped_LF s = false -> unescape s = s.
Proof.
  induction s as [|a s IH]; intros H; [reflexivity|].
  rewrite occurs_cons in H. apply orb_false_iff in H as [H1 H2].
  rewrite unescape_other; [now rewrite IH|].
  unfold escaped_LF in H1. cbn [startsWith] in H1.
  destruct s as [|b s]; [apply andb_false_r|].
  cbn [startsWith] in H1. now rewrite andb_true_r in H1.
Qed.

Lemma unescape_pairs_fixed s :
  occurs escaped_LF s = false -> unescape_pairs s = s.
Proof.
  induction s as [|a s IH]; intros H; [reflexivity|].
  rewrite occurs_cons in H. apply orb_false_iff in H as [H1 H2].
  rewrite unescape_pairs_other; [now rewrite IH|].
  unfold escaped_LF in H1.
  destruct s as [|b s]; [cbn; apply andb_false_r|].
  rewrite !startsWith_cons in H1. rewrite !startsWith_cons.
  change (startsWith s []) with true in H1. rewrite andb_true_r in H1.
  rewrite andb_assoc, H1. reflexivity.
Qed.

Lemma squeeze_fixed s : occurs [LF; LF; LF] s = false -> squeeze false s = s.
Proof.
  induction s as [|c s IH]; intros H; [reflexivity|].
  rewrite occurs_cons in H. apply orb_false_iff in H as [H1 H2].
  cbn [squeeze]. rewrite IH by exact H2.
  destruct (N.eqb c LF) eqn:E; [|reflexivity].
  apply N.eqb_eq in E. subst c.
  rewrite startsWith_cons, N.eqb_refl in H1. cbn [andb] in H1.
  now rewrite H1.
Qed.

(** X15: the result of [cleanThinkingText] holds no escaped line feed, no run
    of three line feeds and no white space at either end; cleaning it again
    changes nothing. *)
Theorem cleanThinkingText_normal_form :
  forall text : jsstring,
    occurs escaped_LF (cleanThinkingText text) = false /\
    occurs [LF; LF; LF] (cleanThinkingText text) = false /\
    trimmed (cleanThinkingText text) /\
    cleanThinkingText (cleanThinkingText text) = cleanThinkingText text.
Proof.
  intros text.
  assert (H1 : occurs escaped_LF (cleanThinkingText text) = false).
  { unfold cleanThinkingText. destruct (negb (truthy text)); [reflexivity|].
    apply occurs_trim; [discriminate|].
    apply squeeze_keeps_clean, unescape_clean. }
  assert (H2 : occurs [LF; LF; LF] (cleanThinkingText text) = false).
  { unfold cleanThinkingText. destruct (negb (truthy text)); [reflexivity|].
    apply occurs_trim; [discriminate|]. apply squeeze_no_run. }
  assert (H3 : trimmed (cleanThinkingText text)).
  { unfold trimmed, cleanThinkingText.
    destruct (negb (truthy text)); [reflexivity|]. apply trim_idem. }
  repeat split; try assumption.
  unfold cleanThinkingText at 1.
  destruct (negb (truthy (cleanThinkingText text))) eqn:E.
  - destruct (cleanThinkingText text); [reflexivity|discriminate].
  - rewrite unescape_pairs_fixed, unescape_fixed, squeeze_fixed by assumption.
    exact H3.
Qed.

End CleanFacts.

Module ListParserFacts.
Import Cards Texts Notions JSFacts TrimFacts.

Lemma LF_free_trimStart s : LF_free s = true -> LF_free (trimStart s) = true.
Proof.
  intros H. destruct (trimStart_suffix s) as [w Hw].
  rewrite Hw in H. unfold LF_free in *. rewrite forallb_app in H.
  now apply andb_true_iff in H as [_ H].
Qed.

Lemma LF_free_trimEnd s : LF_free s = true -> LF_free (trimEnd s) = true.
Proof.
  intros H. destruct (trimEnd_prefix s) as [w Hw].
  rewrite Hw in H. unfold LF_free in *. rewrite forallb_app in H.
  now apply andb_true_iff in H as [H _].
Qed.

Lemma LF_free_trim s : LF_free s = true -> LF_free (trim s) = true.
Proof. intros H. now apply LF_free_trimEnd, LF_free_trimStart. Qed.

Lemma split_char_pieces s :
  Forall (fun line => LF_free line = true) (split_char LF s).
Proof.
  induction s as [|c s IH]; [repeat constructor|].
  cbn [split_char]. destruct (N.eqb c LF) eqn:E; [now constructor|].
  destruct (split_char LF s) as [|p ps]; cbn [cons_head].
  - repeat constructor. simpl. now rewrite E.
  - inversion IH as [|? ? Hp Hps]; subst. constructor; [|exact Hps].
    simpl. now rewrite E, Hp.
Qed.

Lemma bullet_point_shape line :
  LF_free line = true ->
  Forall (fun point => point <> [] /\ trimmed point /\ LF_free point = true)
         (Insight.bullet_point line).
Proof.
  intros Hl. unfold Insight.bullet_point.
  pose proof (LF_free_trim line Hl) as Ht.
  destruct (trim line) as [|c rest]; [constructor|].
  destruct (Insight.is_bullet c); [|constructor].
  destruct (truthy (trim (trimStart rest))) eqn:E; [|constructor].
  constructor; [|constructor].
  split; [now apply truthy_nonempty|]. split; [apply trim_idem|].
  apply LF_free_trim, LF_free_trimStart.
  simpl in Ht. now apply andb_true_iff in Ht as [_ Ht].
Qed.

(** X16: every point [parseStreamingBulletPoints] returns is a non-empty text
    of one line without white space at either end: a line that holds a
    bullet mark and nothing else gives no point. *)
Theorem bullet_points_are_clean :
  forall content : jsstring,
    Forall (fun point => point <> [] /\ trimmed point /\ LF_free point = true)
           (Insight.parseStreamingBulletPoints content).
Proof.
  intros content. unfold Insight.parseStreamingBulletPoints.
  destruct (negb (truthy content)); [constructor|].
  set (text := match Insight.find_summary content with
               | Some captured => captured
               | None => content
               end).
  pose proof (split_char_pieces text) as H.
  induction H as [|line lines Hl _ IH]; [constructor|].
  cbn [flat_map]. apply Forall_app. split; [|exact IH].
  now apply bullet_point_shape.
Qed.

Lemma split_paragraphs_nonempty s : forall b, split_paragraphs b s <> [].
Proof.
  induction s as [|c s IH]; intros b; [discriminate|].
  cbn [split_paragraphs].
  destruct (N.eqb c LF); [destruct b; [apply IH|]|];
    try (destruct (startsWith s [LF]); [discriminate|]);
    apply cons_head_nonempty.
Qed.

Lemma first_paragraph_head s :
  startsWith s [LF] = false ->
  startsWith (hd [] (split_paragraphs false s)) [LF] = false.
Proof.
  destruct s as [|d s]; [reflexivity|].
  rewrite CleanFacts.startsWith_cons. change (startsWith s []) with true.
  rewrite andb_true_r. intros Hd.
  cbn [split_paragraphs]. rewrite Hd.
  destruct (split_paragraphs false s) as [|p ps]; cbn [cons_head hd];
    rewrite CleanFacts.startsWith_cons, Hd; reflexivity.
Qed.

Lemma cons_head_pieces (P : jsstring -> Prop) c ps :
  P (c :: hd [] ps) -> Forall P ps -> Forall P (cons_head c ps).
Proof.
  intros Hc Hps. destruct ps as [|p ps]; cbn [cons_head hd] in *.
  - now constructor.
  - inversion Hps; subst. now constructor.
Qed.

Lemma split_paragraphs_pieces s : forall b,
  Forall (fun p => occurs [LF; LF] p = false) (split_paragraphs b s).
Proof.
  induction s as [|c s IH]; intros b; [repeat constructor|].
  cbn [split_paragraphs]. destruct (N.eqb c LF) eqn:E.
  - destruct b; [apply IH|].
    destruct (startsWith s [LF]) eqn:Es; [constructor; [reflexivity|apply IH]|].
    apply cons_head_pieces; [|apply IH].
    rewrite occurs_cons, CleanFacts.startsWith_cons.
    rewrite (first_paragraph_head s Es), andb_false_r. cbn [orb].
    pose proof (IH false) as H.
    destruct (split_paragraphs false s) as [|p ps]; [reflexivity|].
    now inversion H.
  - apply cons_head_pieces; [|apply IH].
    rewrite occurs_cons, CleanFacts.startsWith_cons, E. cbn [andb orb].
    pose proof (IH false) as H.
    destruct (split_paragraphs false s) as [|p ps]; [reflexivity|].
    now inversion H.
Qed.

(** X17: every paragraph [parseStreamingParagraphs] returns is a non-empty text
    without white space at either end and without a blank line inside; a
    content without the script marker and its line feed gives no paragraph
    at all, whatever else it holds. *)
Theorem paragraphs_are_clean :
  forall content : jsstring,
    Forall (fun p => p <> [] /\ trimmed p /\ occurs [LF; LF] p = false)
           (parseStreamingParagraphs content) /\
    (find_section marker_script content = None ->
     parseStreamingParagraphs content = []).
Proof.
  intros content. unfold parseStreamingParagraphs. split.
  - destruct (negb (truthy content)); [constructor|].
    destruct (find_section marker_script content) as [text|]; [|constructor].
    pose proof (split_paragraphs_pieces text false) as H.
    induction H as [|p ps Hp _ IH]; [constructor|].
    cbn [List.map filter].
    destruct (truthy (trim p)) eqn:E; [|exact IH].
    constructor; [|exact IH].
    split; [now apply truthy_nonempty|]. split; [apply trim_idem|].
    apply occurs_trim; [discriminate|exact Hp].
  - intros ->. now destruct (negb (truthy content)).
Qed.

Lemma paragraphs_are_clean_witness :
  find_section marker_script (js "[script]" ++ [LF] ++ js "One.") = None /\
  parseStreamingParagraphs (js "[script]" ++ [LF] ++ js "One.") = [].
Proof.
  split; [reflexivity|].
  apply (paragraphs_are_clean (js "[script]" ++ [LF] ++ js "One.")).
  reflexivity.
Defined.

End ListParserFacts.

Module LineFacts.
Import Cards Texts Notions JSFacts TrimFacts.

Lemma lazy_line_nonempty s : s <> [] -> lazy_line s <> None.
Proof.
  induction s as [|c s IH]; [congruence|]. intros _. cbn [lazy_line].
  destruct (line_ends s) eqn:E; [discriminate|].
  destruct s as [|d s]; [discriminate|].
  destruct (lazy_line (d :: s)) as [[t r]|]; [discriminate|].
  now apply IH.
Qed.

Lemma line_ends_app s more :
  (2 <= List.length s)%nat -> line_ends (s ++ more) = line_ends s.
Proof.
  intros H. unfold line_ends.
  rewrite !startsWith_app by (simpl; lia).
  destruct s; [simpl in H; lia|reflexivity].
Qed.

Lemma line_ends_true_app s more :
  s <> [] -> line_ends s = true -> line_ends (s ++ more) = true.
Proof.
  intros Hs H. unfold line_ends in *.
  destruct s as [|c s]; [congruence|].
  cbn [truthy negb] in H. rewrite orb_false_r in H.
  apply orb_true_iff in H as [H|H];
    apply startsWith_true_app with (b := more) in H; rewrite H;
    [reflexivity|now rewrite orb_true_r].
Qed.

(** Once the line has been ended by something other than the end of the
    text, more text does not change the group. *)
Lemma lazy_line_app s more : forall captured rest,
  lazy_line s = Some (captured, rest) -> rest <> [] ->
  lazy_line (s ++ more) = Some (captured, rest ++ more).
Proof.
  induction s as [|c s IH]; intros captured rest H Hr; [discriminate|].
  cbn [lazy_line app] in *.
  destruct (line_ends s) eqn:E.
  - injection H as <- <-.
    now rewrite line_ends_true_app.
  - destruct (lazy_line s) as [[t r]|] eqn:El; [|discriminate].
    injection H as <- <-.
    destruct s as [|d [|e s]]; [discriminate| |].
    + cbn in El. injection El as <- <-. congruence.
    + rewrite line_ends_app, E by (simpl; lia).
      now rewrite (IH t r eq_refl Hr).
Qed.

(** A text that ends in a line feed at most, with no other line feed in
    it, is taken whole. *)
Lemma lazy_line_whole x :
  x <> [] -> LF_free (removelast x) = true -> lazy_line x = Some (x, []).
Proof.
  induction x as [|c x IH]; [congruence|]. intros _ H.
  cbn [lazy_line]. destruct x as [|d x]; [reflexivity|].
  assert (E : line_ends (d :: x) = false).
  { unfold line_ends. cbn [truthy negb]. rewrite orb_false_r.
    destruct x as [|e x];
      [rewrite !CleanFacts.startsWith_cons; cbn [startsWith];
       now rewrite !andb_false_r|].
    change (removelast (c :: d :: e :: x))
      with (c :: d :: removelast (e :: x)) in H.
    cbn [LF_free forallb] in H.
    apply andb_true_iff in H as [_ H]. apply andb_true_iff in H as [Hd _].
    apply negb_true_iff in Hd.
    rewrite !CleanFacts.startsWith_cons, Hd. reflexivity. }
  rewrite E, IH; [reflexivity|discriminate|].
  change (removelast (c :: d :: x)) with (c :: removelast (d :: x)) in H.
  cbn [LF_free forallb] in H. now apply andb_true_iff in H as [_ H].
Qed.

(** When the white space after the marker ends inside the text, more text
    at the end does not move the line feed chosen. *)
Lemma ws_then_LF_text_app s more : forall best,
  forallb isWhiteSpace s = false ->
  ws_then_LF_text (s ++ more) (extended more best)
  = extended more (ws_then_LF_text s best).
Proof.
  induction s as [|c s IH]; intros best H; [discriminate|].
  cbn [forallb] in H. cbn [app ws_then_LF_text].
  destruct (isWhiteSpace c); [|reflexivity].
  cbn [andb] in H.
  assert (Hs : truthy (s ++ more) = truthy s).
  { destruct s; [discriminate|reflexivity]. }
  rewrite Hs.
  rewrite <- (IH _ H).
  destruct (N.eqb c LF && truthy s); reflexivity.
Qed.

(** When the white space after the marker goes on to the end of the text,
    the text after the line feed chosen holds a line feed at its end at
    most. *)
Lemma ws_then_LF_text_tail s : forall best x,
  forallb isWhiteSpace s = true ->
  ws_then_LF_text s best = Some x ->
  (best = Some x /\ LF_free (removelast s) = true)
  \/ (x <> [] /\ LF_free (removelast x) = true).
Proof.
  induction s as [|c s IH]; intros best x Hw H.
  - left. now split.
  - cbn [forallb] in Hw. apply andb_true_iff in Hw as [Hc Hw].
    cbn [ws_then_LF_text] in H. rewrite Hc in H.
    destruct (IH _ _ Hw H) as [[Hb Hf]|Hx]; [|now right].
    destruct (N.eqb c LF && truthy s) eqn:E.
    + injection Hb as <-. right. split; [|exact Hf].
      apply andb_true_iff in E as [_ E]. now apply truthy_nonempty.
    + left. split; [exact Hb|].
      destruct s as [|d s]; [reflexivity|].
      change (removelast (c :: d :: s)) with (c :: removelast (d :: s)).
      cbn [LF_free forallb]. fold (LF_free (removelast (d :: s))).
      rewrite Hf. cbn [truthy] in E. rewrite andb_true_r in E.
      now rewrite E.
Qed.

Lemma ws_then_LF_text_nonempty s : forall best x,
  (forall b, best = Some b -> b <> []) ->
  ws_then_LF_text s best = Some x -> x <> [].
Proof.
  induction s as [|c s IH]; intros best x Hb H; cbn [ws_then_LF_text] in H.
  - now apply Hb.
  - destruct (isWhiteSpace c); [|now apply Hb].
    refine (IH _ _ _ H). intros b.
    destruct (N.eqb c LF && truthy s) eqn:E; [|apply Hb].
    intros Hs. injection Hs as <-.
    apply andb_true_iff in E as [_ E]. now apply truthy_nonempty.
Qed.

Lemma find_line_length marker s m :
  find_line marker s = Some m -> (List.length marker <= List.length s)%nat.
Proof.
  induction s as [|c s IH]; [discriminate|]. cbn [find_line].
  destruct (startsWith (c :: s) marker) eqn:E.
  - intros _. now apply startsWith_length.
  - intros H. apply IH in H. simpl. lia.
Qed.

(** A marker cannot start in the last code units of itself followed by
    white space only. *)
Lemma startsWith_short marker : forall v u,
  (List.length v < List.length marker)%nat ->
  startsWith (v ++ u) marker = true ->
  exists w, w <> [] /\ marker = v ++ w /\ startsWith u w = true.
Proof.
  induction marker as [|b marker IH]; intros v u Hl H; [simpl in Hl; lia|].
  destruct v as [|a v].
  - exists (b :: marker). repeat split; [discriminate|exact H].
  - cbn [app] in H. rewrite CleanFacts.startsWith_cons in H.
    apply andb_true_iff in H as [Ha H]. apply N.eqb_eq in Ha. subst b.
    destruct (IH v u ltac:(simpl in Hl; lia) H) as (w & Hw & -> & Hu).
    exists w. repeat split; assumption.
Qed.

Lemma startsWith_white u : forall w,
  forallb isWhiteSpace u = true -> startsWith u w = true ->
  forallb isWhiteSpace w = true.
Proof.
  induction u as [|c u IH]; intros [|d w] Hu H; try reflexivity;
    [discriminate|].
  rewrite CleanFacts.startsWith_cons in H.
  apply andb_true_iff in H as [Hc H]. apply N.eqb_eq in Hc. subst d.
  cbn [forallb] in Hu |- *. apply andb_true_iff in Hu as [Hc Hu].
  rewrite Hc. now apply IH.
Qed.

Lemma last_white w d :
  w <> [] -> forallb isWhiteSpace w = true -> isWhiteSpace (last w d) = true.
Proof.
  induction w as [|c w IH]; [congruence|]. intros _ H.
  cbn [forallb] in H. apply andb_true_iff in H as [Hc Hw].
  destruct w as [|e w]; [exact Hc|]. apply IH; [discriminate|exact Hw].
Qed.

Lemma last_append (v w : jsstring) d :
  w <> [] -> last (v ++ w) d = last w d.
Proof.
  intros Hw. induction v as [|a v IH]; [reflexivity|].
  cbn [app]. destruct (v ++ w) eqn:E; [|exact IH].
  destruct v; [simpl in E; congruence|discriminate].
Qed.

Lemma no_marker_in_white marker v u :
  solid marker ->
  (List.length v < List.length marker)%nat ->
  forallb isWhiteSpace u = true ->
  startsWith (v ++ u) marker = false.
Proof.
  intros [_ Hm] Hl Hu.
  destruct (startsWith (v ++ u) marker) eqn:E; [|reflexivity].
  destruct (startsWith_short marker v u Hl E) as (w & Hw & -> & Hs).
  rewrite last_append in Hm by exact Hw.
  rewrite (last_white w _ Hw (startsWith_white u w Hu Hs)) in Hm.
  discriminate.
Qed.

Lemma find_line_in_white marker u : forall v,
  solid marker ->
  (List.length v < List.length marker)%nat ->
  forallb isWhiteSpace u = true ->
  find_line marker (v ++ u) = None.
Proof.
  intros v Hm. revert u. induction v as [|a v IHv]; intros u Hl Hu.
  - induction u as [|c u IHu]; [reflexivity|].
    cbn [app find_line].
    pose proof (no_marker_in_white marker [] (c :: u) Hm Hl Hu) as Hn.
    cbn [app] in Hn. rewrite Hn.
    cbn [forallb] in Hu. apply andb_true_iff in Hu as [_ Hu].
    now apply IHu.
  - cbn [app find_line].
    change (a :: v ++ u) with ((a :: v) ++ u).
    rewrite (no_marker_in_white marker (a :: v) u Hm Hl Hu).
    apply IHv; [simpl in Hl; lia|exact Hu].
Qed.

Lemma find_line_app marker more : solid marker -> forall s captured rest,
  find_line marker s = Some (captured, rest) -> rest <> [] ->
  find_line marker (s ++ more) = Some (captured, rest ++ more).
Proof.
  intros Hm. induction s as [|c s IH]; intros captured rest H Hr;
    [discriminate|].
  cbn [app]. cbn [find_line] in H |- *.
  change (c :: s ++ more) with ((c :: s) ++ more).
  destruct (startsWith (c :: s) marker) eqn:E.
  - rewrite (startsWith_true_app _ more _ E).
    pose proof (startsWith_length _ _ E) as Hlen.
    rewrite skipn_app.
    replace (List.length marker - List.length (c :: s))%nat with 0%nat by lia.
    cbn [skipn].
    set (u := skipn (List.length marker) (c :: s)) in *.
    destruct (forallb isWhiteSpace u) eqn:Hu.
    + (* the white space reaches the end of the text *)
      exfalso.
      destruct (ws_then_LF_text u None) as [x|] eqn:Ex.
      * destruct (ws_then_LF_text_tail u None x Hu Ex) as [[Hb _]|[Hx Hf]];
          [discriminate|].
        rewrite (lazy_line_whole x Hx Hf) in H. injection H as _ <-.
        congruence.
      * apply startsWith_split in E. fold u in E.
        destruct Hm as [Hne Hlast].
        destruct marker as [|b marker']; [congruence|].
        cbn [app] in E. injection E as _ Es.
        rewrite Es in H.
        rewrite find_line_in_white in H;
          [discriminate|split; [discriminate|exact Hlast]|simpl; lia|exact Hu].
    + pose proof (ws_then_LF_text_app u more None Hu) as Hw.
      cbn [extended] in Hw. rewrite Hw.
      destruct (ws_then_LF_text u None) as [x|] eqn:Ex; cbn [extended].
      * assert (Hx : x <> []).
        { apply (ws_then_LF_text_nonempty u None x); [discriminate|exact Ex]. }
        destruct (lazy_line x) as [[t r]|] eqn:El;
          [|now apply lazy_line_nonempty in El].
        injection H as <- <-.
        now rewrite (lazy_line_app x more t r El Hr).
      * now apply IH.
  - pose proof (find_line_length _ _ _ H) as Hlen.
    rewrite startsWith_app, E by (simpl; lia).
    now apply IH.
Qed.

Lemma solid_markers marker :
  In marker [marker_title; marker_topic] -> solid marker.
Proof.
  intros [<-|[<-|[]]]; split; [discriminate|reflexivity|discriminate|
                                reflexivity].
Qed.

(** X18: once the line after the marker has been ended by a blank line or by a
    line feed and an opening bracket, and not just by the end of the text
    received so far, the title of the script and the topic of the summary
    no longer change as more text arrives. *)
Theorem line_settles :
  forall marker content more captured rest : jsstring,
    In marker [marker_title; marker_topic] ->
    find_line marker content = Some (captured, rest) ->
    rest <> [] ->
    parse_line marker content = Some (trim captured) /\
    parse_line marker (content ++ more) = Some (trim captured).
Proof.
  intros marker content more captured rest Hm H Hr.
  apply solid_markers in Hm.
  pose proof (find_line_app marker more Hm content captured rest H Hr) as H'.
  unfold parse_line. rewrite H, H'.
  destruct content as [|c content]; [discriminate|].
  split; reflexivity.
Qed.

Lemma line_settles_witness :
  find_line marker_title (marker_title ++ [LF] ++ js "News" ++ [LF; LF])
  = Some (js "News", [LF; LF]) /\
  parseStreamingTitle
    ((marker_title ++ [LF] ++ js "News" ++ [LF; LF]) ++ js "[more")
  = Some (js "News").
Proof.
  split; [reflexivity|].
  apply (line_settles marker_title
           (marker_title ++ [LF] ++ js "News" ++ [LF; LF]) (js "[more")
           (js "News") [LF; LF]).
  - now left.
  - reflexivity.
  - discriminate.
Defined.

End LineFacts.

Module GrowthFacts.
Import Cards Texts Notions JSFacts TrimFacts.

Lemma find_summary_section s :
  Insight.find_summary s = find_section Insight.marker_summary s.
Proof.
  induction s as [|c s IH]; [reflexivity|].
  cbn [Insight.find_summary find_section]. now rewrite IH.
Qed.

Lemma ws_then_LF_app s more : forall best,
  forallb isWhiteSpace s = false ->
  Insight.ws_then_LF (s ++ more) (extended more best)
  = extended more (Insight.ws_then_LF s best).
Proof.
  induction s as [|c s IH]; intros best H; [discriminate|].
  cbn [forallb] in H. cbn [app Insight.ws_then_LF].
  destruct (isWhiteSpace c); [|reflexivity].
  cbn [andb] in H. rewrite <- (IH _ H).
  destruct (N.eqb c LF); reflexivity.
Qed.

Lemma forallb_suffix {A} (f : A -> bool) (l : list A) : forall k,
  forallb f l = true -> forallb f (skipn k l) = true.
Proof.
  induction l as [|x l IH]; intros [|k] H; try exact H.
  cbn [forallb] in H. apply andb_true_iff in H as [_ H]. now apply IH.
Qed.

Lemma ws_then_LF_white s : forall best x,
  forallb isWhiteSpace s = true ->
  Insight.ws_then_LF s best = Some x ->
  best = Some x \/ forallb isWhiteSpace x = true.
Proof.
  induction s as [|c s IH]; intros best x Hw H.
  - now left.
  - cbn [forallb] in Hw. apply andb_true_iff in Hw as [Hc Hw].
    cbn [Insight.ws_then_LF] in H. rewrite Hc in H.
    destruct (IH _ _ Hw H) as [Hb|Hx]; [|now right].
    destruct (N.eqb c LF); [|now left].
    injection Hb as <-. now right.
Qed.

Lemma find_section_length marker s x :
  find_section marker s = Some x -> (List.length marker <= List.length s)%nat.
Proof.
  induction s as [|c s IH]; [discriminate|]. cbn [find_section].
  destruct (startsWith (c :: s) marker) eqn:E.
  - intros _. now apply startsWith_length.
  - intros H. apply IH in H. simpl. lia.
Qed.

Lemma find_section_in_white marker u : forall v,
  solid marker ->
  (List.length v < List.length marker)%nat ->
  forallb isWhiteSpace u = true ->
  find_section marker (v ++ u) = None.
Proof.
  intros v Hm. revert u. induction v as [|a v IHv]; intros u Hl Hu.
  - induction u as [|c u IHu]; [reflexivity|].
    cbn [app find_section].
    pose proof (LineFacts.no_marker_in_white marker [] (c :: u) Hm Hl Hu)
      as Hn.
    cbn [app] in Hn. rewrite Hn.
    cbn [forallb] in Hu. apply andb_true_iff in Hu as [_ Hu].
    now apply IHu.
  - cbn [app find_section].
    change (a :: v ++ u) with ((a :: v) ++ u).
    rewrite (LineFacts.no_marker_in_white marker (a :: v) u Hm Hl Hu).
    apply IHv; [simpl in Hl; lia|exact Hu].
Qed.

(** Once the section holds something other than white space, more text at
    the end of the content is more text at the end of the section. *)
Lemma find_section_app marker more : solid marker -> forall s captured,
  find_section marker s = Some captured ->
  forallb isWhiteSpace captured = false ->
  find_section marker (s ++ more) = Some (captured ++ more).
Proof.
  intros Hm. induction s as [|c s IH]; intros captured H Hc;
    [discriminate|].
  cbn [app]. cbn [find_section] in H |- *.
  change (c :: s ++ more) with ((c :: s) ++ more).
  destruct (startsWith (c :: s) marker) eqn:E.
  - rewrite (startsWith_true_app _ more _ E).
    pose proof (startsWith_length _ _ E) as Hlen.
    rewrite skipn_app.
    replace (List.length marker - List.length (c :: s))%nat with 0%nat by lia.
    cbn [skipn].
    set (u := skipn (List.length marker) (c :: s)) in *.
    destruct (forallb isWhiteSpace u) eqn:Hu.
    + exfalso.
      destruct (Insight.ws_then_LF u None) as [x|] eqn:Ex.
      * injection H as <-.
        destruct (ws_then_LF_white u None x Hu Ex) as [Hb|Hx];
          [discriminate|congruence].
      * apply startsWith_split in E. fold u in E.
        destruct Hm as [Hne Hlast].
        destruct marker as [|b marker']; [congruence|].
        cbn [app] in E. injection E as _ Es.
        rewrite Es in H.
        rewrite find_section_in_white in H;
          [discriminate|split; [discriminate|exact Hlast]|simpl; lia|exact Hu].
    + pose proof (ws_then_LF_app u more None Hu) as Hw.
      cbn [extended] in Hw. rewrite Hw.
      destruct (Insight.ws_then_LF u None) as [x|] eqn:Ex; cbn [extended].
      * now injection H as <-.
      * now apply IH.
  - pose proof (find_section_length _ _ _ H) as Hlen.
    rewrite startsWith_app, E by (simpl; lia).
    now apply IH.
Qed.

Lemma split_char_nonempty sep s : split_char sep s <> [].
Proof.
  destruct s as [|c s]; [discriminate|]. cbn [split_char].
  destruct (N.eqb c sep); [discriminate|apply cons_head_nonempty].
Qed.

(** The lines of a text that goes on: all the lines but the last are as
    before. *)
Lemma split_char_grows sep a b :
  exists later,
    split_char sep (a ++ b) = removelast (split_char sep a) ++ later.
Proof.
  induction a as [|c a (later & IH)].
  - eexists. reflexivity.
  - cbn [app split_char]. destruct (N.eqb c sep).
    + exists later. rewrite IH.
      pose proof (split_char_nonempty sep a) as Hn.
      destruct (split_char sep a) as [|p ps]; [congruence|reflexivity].
    + rewrite IH.
      pose proof (split_char_nonempty sep a) as Hn.
      destruct (split_char sep a) as [|p [|q ps]]; [congruence| |].
      * eexists. reflexivity.
      * exists later. reflexivity.
Qed.

(** X19: the list of points only grows at its end while the summary arrives:
    once the text after the summary marker holds something other than
    white space, every point that comes from a line already followed by a
    line feed stays where it is, with the same text, whatever arrives
    later; only the point of the last, unfinished line can still
    change. *)
Theorem bullet_points_grow :
  forall content more captured : jsstring,
    Insight.find_summary content = Some captured ->
    forallb isWhiteSpace captured = false ->
    let settled :=
      flat_map Insight.bullet_point (removelast (split_char LF captured)) in
    Insight.parseStreamingBulletPoints content
    = settled ++ Insight.bullet_point (last (split_char LF captured) []) /\
    exists later,
      Insight.parseStreamingBulletPoints (content ++ more) = settled ++ later.
Proof.
  intros content more captured H Hc settled.
  assert (Hm : solid Insight.marker_summary) by (split; [discriminate|reflexivity]).
  rewrite find_summary_section in H.
  pose proof (find_section_app _ more Hm content captured H Hc) as H'.
  rewrite <- !find_summary_section in *.
  unfold Insight.parseStreamingBulletPoints. rewrite H, H'.
  destruct content as [|c content]; [discriminate|].
  cbn [app truthy negb]. split.
  - subst settled.
    rewrite (app_removelast_last [] (split_char_nonempty LF captured)) at 1.
    rewrite flat_map_app. cbn [flat_map]. now rewrite app_nil_r.
  - destruct (split_char_grows LF captured more) as (later & Hl).
    exists (flat_map Insight.bullet_point later).
    subst settled. now rewrite Hl, flat_map_app.
Qed.

Lemma bullet_points_grow_witness :
  exists later,
    Insight.parseStreamingBulletPoints
      ((Insight.marker_summary ++ [LF] ++ js "- one" ++ [LF] ++ js "- tw")
       ++ js "o" ++ [LF] ++ js "- three")
    = [js "one"] ++ later.
Proof.
  destruct (bullet_points_grow
              (Insight.marker_summary ++ [LF] ++ js "- one" ++ [LF] ++ js "- tw")
              (js "o" ++ [LF] ++ js "- three")
              (js "- one" ++ [LF] ++ js "- tw") eq_refl eq_refl)
    as [_ H].
  exact H.
Defined.

Lemma cons_head_grows c ps later :
  ps <> [] ->
  exists later',
    cons_head c (removelast ps ++ later)
    = removelast (cons_head c ps) ++ later'.
Proof.
  intros Hne. destruct ps as [|p [|q ps]]; [congruence| |].
  - eexists. reflexivity.
  - exists later. reflexivity.
Qed.

(** The pieces of a text that goes on: all the pieces but the last are as
    before. *)
Lemma split_paragraphs_grows a more : forall b,
  exists later,
    split_paragraphs b (a ++ more)
    = removelast (split_paragraphs b a) ++ later.
Proof.
  induction a as [|c a IH]; intros b.
  - eexists. reflexivity.
  - cbn [app split_paragraphs]. destruct (N.eqb c LF).
    + destruct b; [apply IH|].
      destruct a as [|d a].
      * eexists. reflexivity.
      * change (startsWith ((d :: a) ++ more) [LF])
          with (startsWith (d :: a) [LF]).
        destruct (startsWith (d :: a) [LF]).
        -- destruct (IH true) as (later & E). rewrite E. exists later.
           pose proof (ListParserFacts.split_paragraphs_nonempty (d :: a) true)
             as Hn.
           destruct (split_paragraphs true (d :: a)); [congruence|reflexivity].
        -- destruct (IH false) as (later & E). rewrite E.
           apply cons_head_grows, ListParserFacts.split_paragraphs_nonempty.
    + destruct (IH false) as (later & E). rewrite E.
      apply cons_head_grows, ListParserFacts.split_paragraphs_nonempty.
Qed.

(** X20: the list of paragraphs only grows at its end while the script
    arrives: once the text after the script marker holds something other
    than white space, every paragraph that is already followed by a blank
    line stays where it is, with the same text, whatever arrives later;
    only the last, unfinished paragraph can still change. *)
Theorem paragraphs_grow :
  forall content more captured : jsstring,
    find_section marker_script content = Some captured ->
    forallb isWhiteSpace captured = false ->
    let settled :=
      filter truthy
        (List.map trim (removelast (split_paragraphs false captured))) in
    parseStreamingParagraphs content
    = settled
      ++ filter truthy [trim (last (split_paragraphs false captured) [])] /\
    exists later,
      parseStreamingParagraphs (content ++ more) = settled ++ later.
Proof.
  intros content more captured H Hc settled.
  assert (Hm : solid marker_script) by (split; [discriminate|reflexivity]).
  pose proof (find_section_app _ more Hm content captured H Hc) as H'.
  unfold parseStreamingParagraphs. rewrite H, H'.
  destruct content as [|c content]; [discriminate|].
  cbn [app truthy negb]. split.
  - subst settled.
    rewrite (app_removelast_last []
               (ListParserFacts.split_paragraphs_nonempty captured false)) at 1.
    now rewrite List.map_app, filter_app.
  - destruct (split_paragraphs_grows captured more false) as (later & Hl).
    exists (filter truthy (List.map trim later)).
    subst settled. now rewrite Hl, List.map_app, filter_app.
Qed.

Lemma paragraphs_grow_witness :
  exists later,
    parseStreamingParagraphs
      ((marker_script ++ [LF] ++ js "One." ++ [LF; LF] ++ js "Tw")
       ++ js "o." ++ [LF; LF] ++ js "Three.")
    = [js "One."] ++ later.
Proof.
  destruct (paragraphs_grow
              (marker_script ++ [LF] ++ js "One." ++ [LF; LF] ++ js "Tw")
              (js "o." ++ [LF; LF] ++ js "Three.")
              (js "One." ++ [LF; LF] ++ js "Tw") eq_refl eq_refl)
    as [_ H].
  exact H.
Defined.

End GrowthFacts.

Module LayoutFacts.
Import Cards Texts Notions JSFacts TrimFacts Layout.

Lemma trimmed_fixed s : trimmed s -> trimStart s = s /\ trimEnd s = s.
Proof.
  unfold trimmed, trim. intros H.
  destruct (trimStart_suffix s) as [w Hw].
  destruct (trimEnd_prefix (trimStart s)) as [w2 Hw2].
  rewrite H in Hw2.
  assert (Hl : List.length s
               = (List.length w + (List.length s + List.length w2))%nat).
  { rewrite Hw at 1. rewrite length_app. rewrite Hw2 at 1.
    now rewrite length_app. }
  assert (w = []) by (destruct w; [reflexivity|simpl in Hl; lia]).
  subst w. simpl in Hw. rewrite <- Hw in H. now rewrite <- Hw.
Qed.

Lemma trimmed_head s :
  trimmed s -> s <> [] -> exists c t, s = c :: t /\ isWhiteSpace c = false.
Proof.
  intros H Hn. destruct (trimmed_fixed s H) as [Hs _].
  apply trimStart_fixed in Hs. destruct s as [|c t]; [congruence|].
  now exists c, t.
Qed.

Lemma trimmed_last s :
  trimmed s -> s <> [] -> exists t c, s = t ++ [c] /\ isWhiteSpace c = false.
Proof.
  intros H Hn. destruct (trimmed_fixed s H) as [_ He].
  unfold trimEnd in He. apply (f_equal (@rev N)) in He.
  rewrite rev_involutive in He. apply trimStart_fixed in He.
  destruct (exists_last Hn) as (t & c & E). subst s.
  rewrite rev_app_distr in He. simpl in He. now exists t, c.
Qed.

Lemma trimEnd_app_fixed w s :
  trimmed s -> s <> [] -> trimEnd (w ++ s) = w ++ s.
Proof.
  intros H Hn. destruct (trimmed_last s H Hn) as (t & c & E & Hc). subst s.
  unfold trimEnd. rewrite app_assoc, rev_app_distr. simpl. rewrite Hc.
  cbn [rev]. now rewrite rev_involutive.
Qed.

Lemma startsWith_app_long : forall p s u,
  (List.length p <= List.length s)%nat ->
  startsWith (s ++ u) p = startsWith s p.
Proof.
  induction p as [|y p IH]; intros [|x s] u H; simpl in *;
    try reflexivity; try lia.
  now rewrite IH by lia.
Qed.

Lemma startsWith_self_app m u : startsWith (m ++ u) m = true.
Proof.
  induction m as [|y m IH]; simpl; [reflexivity|].
  now rewrite N.eqb_refl.
Qed.

Lemma skipn_self_app (m u : jsstring) : skipn (List.length m) (m ++ u) = u.
Proof. induction m as [|y m IH]; simpl; [reflexivity|exact IH]. Qed.

Lemma LF_free_no_LF_inside marker v w :
  LF_free marker = true -> marker <> v ++ LF :: w.
Proof.
  intros H E. rewrite E in H. unfold LF_free in H.
  rewrite forallb_app in H. apply andb_true_iff in H as [_ H].
  cbn [forallb] in H. apply andb_true_iff in H as [H _].
  rewrite N.eqb_refl in H. discriminate.
Qed.

Lemma LF_free_head marker u :
  LF_free marker = true -> marker <> [] ->
  startsWith (LF :: u) marker = false.
Proof.
  intros H Hn. destruct marker as [|y m]; [congruence|].
  rewrite CleanFacts.startsWith_cons.
  unfold LF_free in H. cbn [forallb] in H.
  apply andb_true_iff in H as [H _].
  rewrite N.eqb_sym. now destruct (N.eqb y LF).
Qed.

Lemma no_start_before_LF marker v u :
  LF_free marker = true -> marker <> [] -> occurs marker v = false ->
  startsWith (v ++ LF :: u) marker = false.
Proof.
  intros Hf Hm Ho.
  destruct (Nat.lt_ge_cases (List.length v) (List.length marker)) as [Hl|Hl].
  - destruct (startsWith (v ++ LF :: u) marker) eqn:E; [|reflexivity].
    destruct (LineFacts.startsWith_short marker v (LF :: u) Hl E)
      as (w & Hw & Hmw & Hs).
    destruct w as [|x w]; [congruence|].
    rewrite CleanFacts.startsWith_cons in Hs.
    apply andb_true_iff in Hs as [Hx _]. apply N.eqb_eq in Hx. subst x.
    exfalso. now apply (LF_free_no_LF_inside marker v w).
  - rewrite startsWith_app_long by exact Hl.
    destruct v as [|c v].
    + destruct marker; [congruence|simpl in Hl; lia].
    + rewrite occurs_cons in Ho. now apply orb_false_iff in Ho as [Ho _].
Qed.

Lemma occurs_app_LF marker b :
  LF_free marker = true -> marker <> [] -> occurs marker b = false ->
  forall a, occurs marker a = false -> occurs marker (a ++ LF :: b) = false.
Proof.
  intros Hf Hm Hb. induction a as [|c a IH]; intros Ha.
  - cbn [app]. rewrite occurs_cons, Hb.
    now rewrite (LF_free_head marker b Hf Hm).
  - pose proof (no_start_before_LF marker (c :: a) b Hf Hm Ha) as Hs.
    rewrite occurs_cons in Ha. apply orb_false_iff in Ha as [_ Ha].
    cbn [app] in *. now rewrite occurs_cons, Hs, (IH Ha).
Qed.

Lemma find_section_cons marker c s :
  find_section marker (c :: s)
  = if startsWith (c :: s) marker then
      match Insight.ws_then_LF (skipn (List.length marker) (c :: s)) None with
      | Some captured => Some captured
      | None => find_section marker s
      end
    else find_section marker s.
Proof. reflexivity. Qed.

Lemma find_section_skip marker u :
  LF_free marker = true -> marker <> [] -> forall v,
  occurs marker v = false ->
  find_section marker (v ++ LF :: u) = find_section marker (LF :: u).
Proof.
  intros Hf Hm. induction v as [|c v IH]; intros Ho; [reflexivity|].
  pose proof (no_start_before_LF marker (c :: v) u Hf Hm Ho) as Hs.
  rewrite occurs_cons in Ho. apply orb_false_iff in Ho as [_ Ho].
  cbn [app] in *. rewrite find_section_cons, Hs. now apply IH.
Qed.

Lemma find_section_LF marker u :
  LF_free marker = true -> marker <> [] ->
  find_section marker (LF :: u) = find_section marker u.
Proof.
  intros Hf Hm. now rewrite find_section_cons, (LF_free_head marker u Hf Hm).
Qed.

Lemma ws_then_LF_at body :
  starts_solid body -> Insight.ws_then_LF (LF :: body) None = Some body.
Proof.
  intros H. cbn [Insight.ws_then_LF].
  change (isWhiteSpace LF) with true. change (N.eqb LF LF) with true.
  cbv iota. destruct body as [|c body]; [reflexivity|].
  cbn [Insight.ws_then_LF]. simpl in H. now rewrite H.
Qed.

Lemma find_section_at marker body :
  marker <> [] -> starts_solid body ->
  find_section marker (marker ++ LF :: body) = Some body.
Proof.
  intros Hm Hb. destruct (marker ++ LF :: body) as [|c s] eqn:E.
  - destruct marker; [congruence|discriminate].
  - rewrite find_section_cons, <- E.
    now rewrite startsWith_self_app, skipn_self_app, ws_then_LF_at.
Qed.

(** The body of a card is what follows the second marker. *)
Lemma find_section_card marker2 marker1 h body :
  LF_free marker2 = true -> marker2 <> [] ->
  occurs marker2 marker1 = false -> occurs marker2 h = false ->
  starts_solid body ->
  find_section marker2 (card marker1 h marker2 body) = Some body.
Proof.
  intros Hf Hm H1 Hh Hb. unfold card.
  replace (marker1 ++ [LF] ++ h ++ [LF; LF] ++ marker2 ++ [LF] ++ body)
    with ((marker1 ++ LF :: h) ++ LF :: LF :: marker2 ++ LF :: body)
    by (now rewrite <- app_assoc).
  rewrite (find_section_skip marker2 _ Hf Hm)
    by (now apply occurs_app_LF).
  rewrite !(find_section_LF marker2 _ Hf Hm).
  now apply find_section_at.
Qed.

Lemma lazy_line_heading rest : forall h,
  h <> [] -> LF_free h = true ->
  lazy_line (h ++ LF :: LF :: rest) = Some (h, LF :: LF :: rest).
Proof.
  induction h as [|c h IH]; [congruence|]. intros _ Hf.
  unfold LF_free in Hf. cbn [forallb] in Hf.
  apply andb_true_iff in Hf as [_ Hf].
  cbn [app lazy_line]. destruct h as [|d h].
  - reflexivity.
  - cbn [forallb] in Hf. apply andb_true_iff in Hf as [Hd Hf'].
    assert (E : line_ends ((d :: h) ++ LF :: LF :: rest) = false).
    { unfold line_ends. cbn [app]. rewrite !CleanFacts.startsWith_cons.
      apply negb_true_iff in Hd. now rewrite Hd. }
    rewrite E, IH; [reflexivity|discriminate|].
    unfold LF_free. cbn [forallb]. now rewrite Hd, Hf'.
Qed.

Lemma find_line_cons marker c s :
  find_line marker (c :: s)
  = if startsWith (c :: s) marker then
      match ws_then_LF_text (skipn (List.length marker) (c :: s)) None with
      | Some text =>
          match lazy_line text with
          | Some m => Some m
          | None => find_line marker s
          end
      | None => find_line marker s
      end
    else find_line marker s.
Proof. reflexivity. Qed.

(** The heading of a card is the line below the first marker. *)
Lemma parse_line_card marker1 h rest :
  marker1 <> [] -> heading h ->
  parse_line marker1 (marker1 ++ [LF] ++ h ++ [LF; LF] ++ rest) = Some h.
Proof.
  intros Hm (Hn & Ht & Hf). unfold parse_line.
  destruct (trimmed_head h Ht Hn) as (c & t & E & Hc).
  destruct (marker1 ++ [LF] ++ h ++ [LF; LF] ++ rest) as [|x s] eqn:Es.
  - destruct marker1; [congruence|discriminate].
  - cbn [truthy negb]. rewrite find_line_cons, <- Es.
    rewrite startsWith_self_app, skipn_self_app.
    cbn [app ws_then_LF_text].
    change (isWhiteSpace LF) with true. change (N.eqb LF LF) with true.
    cbv iota.
    assert (Htr : truthy (h ++ LF :: LF :: rest) = true) by now rewrite E.
    rewrite E at 1. cbn [app ws_then_LF_text]. rewrite Hc, Htr.
    cbn [andb]. rewrite (lazy_line_heading rest h Hn Hf). now rewrite Ht.
Qed.

Lemma split_paragraphs_one : forall p,
  occurs [LF; LF] p = false -> split_paragraphs false p = [p].
Proof.
  induction p as [|c p IH]; [reflexivity|]. intros Ho.
  rewrite occurs_cons in Ho. apply orb_false_iff in Ho as [Hs Ho].
  rewrite CleanFacts.startsWith_cons in Hs.
  cbn [split_paragraphs]. rewrite (IH Ho).
  destruct (N.eqb c LF); [|reflexivity].
  cbn [andb] in Hs. now rewrite Hs.
Qed.

Lemma split_paragraphs_resume tail :
  startsWith tail [LF] = false ->
  split_paragraphs true tail = split_paragraphs false tail.
Proof.
  destruct tail as [|d t]; [reflexivity|].
  rewrite CleanFacts.startsWith_cons. cbn [startsWith split_paragraphs].
  rewrite andb_true_r. now intros ->.
Qed.

Lemma split_paragraphs_sep tail : forall p,
  occurs [LF; LF] p = false -> N.eqb (last p 0%N) LF = false ->
  startsWith tail [LF] = false ->
  split_paragraphs false (p ++ LF :: LF :: tail)
  = p :: split_paragraphs false tail.
Proof.
  induction p as [|c p IH]; intros Ho Hl Ht.
  - cbn [app split_paragraphs]. change (N.eqb LF LF) with true. cbv iota.
    change (startsWith (LF :: tail) [LF]) with true. cbv iota.
    now rewrite split_paragraphs_resume.
  - rewrite occurs_cons in Ho. apply orb_false_iff in Ho as [Hs Ho].
    rewrite CleanFacts.startsWith_cons in Hs.
    cbn [app split_paragraphs]. destruct p as [|d p].
    + cbn [last] in Hl. rewrite Hl.
      now rewrite (IH Ho eq_refl Ht).
    + rewrite (IH Ho Hl Ht).
      destruct (N.eqb c LF); [|reflexivity].
      cbn [andb] in Hs. rewrite CleanFacts.startsWith_cons in Hs.
      cbn [startsWith] in Hs. rewrite andb_true_r in Hs.
      cbn [app]. rewrite CleanFacts.startsWith_cons, Hs. reflexivity.
Qed.

Lemma paragraph_ends p :
  paragraph p ->
  occurs [LF; LF] p = false /\ N.eqb (last p 0%N) LF = false /\
  startsWith p [LF] = false /\ starts_solid p.
Proof.
  intros (Hn & Ht & Ho). split; [exact Ho|].
  destruct (trimmed_head p Ht Hn) as (c & t & E & Hc).
  destruct (trimmed_last p Ht Hn) as (t' & c' & E' & Hc').
  repeat split.
  - rewrite E', last_last. destruct (N.eqb_spec c' LF); [|reflexivity].
    subst c'. discriminate.
  - rewrite E, CleanFacts.startsWith_cons.
    destruct (N.eqb_spec c LF); [|reflexivity]. subst c. discriminate.
  - rewrite E. exact Hc.
Qed.

Lemma join_blocks_solid ps :
  Forall paragraph ps ->
  startsWith (join_blocks ps) [LF] = false /\ starts_solid (join_blocks ps).
Proof.
  intros H. destruct H as [|p ps Hp Hps]; [now split|].
  destruct (paragraph_ends p Hp) as (_ & _ & Hs & Hc).
  destruct Hp as (Hn & _). destruct p as [|c t]; [congruence|].
  cbn [join_blocks]. destruct ps; [now split|]. cbn [app]. now split.
Qed.

Lemma split_join_blocks : forall ps,
  ps <> [] -> Forall paragraph ps ->
  split_paragraphs false (join_blocks ps) = ps.
Proof.
  induction ps as [|p ps IH]; [congruence|]. intros _ H.
  apply Forall_cons_iff in H as [Hp Hps].
  destruct (paragraph_ends p Hp) as (Ho & Hl & _ & _).
  destruct ps as [|q ps].
  - now apply split_paragraphs_one.
  - change (join_blocks (p :: q :: ps))
      with (p ++ LF :: LF :: join_blocks (q :: ps)).
    rewrite (split_paragraphs_sep _ p Ho Hl)
      by now apply join_blocks_solid.
    now rewrite IH.
Qed.

Lemma trim_paragraphs ps :
  Forall paragraph ps -> filter truthy (List.map trim ps) = ps.
Proof.
  induction 1 as [|p ps (Hn & Ht & _) _ IH]; [reflexivity|].
  cbn [List.map filter]. rewrite Ht, IH.
  now destruct p; [congruence|].
Qed.

(** X21: a script is read back as it was laid out: from the text of a title
    line, a blank line and the paragraphs separated by blank lines, each
    below its marker, [parseStreamingTitle] returns the title and
    [parseStreamingParagraphs] returns the paragraphs, provided the title
    does not itself contain the marker of the script. *)
Theorem script_card_round_trip :
  forall (title : jsstring) (paragraphs : list jsstring),
    heading title ->
    occurs marker_script title = false ->
    Forall paragraph paragraphs ->
    parseStreamingTitle (script_card title paragraphs) = Some title /\
    parseStreamingParagraphs (script_card title paragraphs) = paragraphs.
Proof.
  intros title ps Hh Ho Hps. split.
  - apply parse_line_card; [discriminate|exact Hh].
  - unfold parseStreamingParagraphs, script_card.
    rewrite find_section_card;
      [|reflexivity|discriminate|reflexivity|exact Ho
       |now apply join_blocks_solid].
    cbn [card marker_title app truthy negb].
    destruct ps as [|p ps]; [reflexivity|].
    rewrite split_join_blocks by (discriminate || exact Hps).
    now apply trim_paragraphs.
Qed.

Lemma script_card_round_trip_witness :
  parseStreamingTitle
    (script_card (js "News") [js "One."; js "Two," ++ [LF] ++ js "three."])
  = Some (js "News") /\
  parseStreamingParagraphs
    (script_card (js "News") [js "One."; js "Two," ++ [LF] ++ js "three."])
  = [js "One."; js "Two," ++ [LF] ++ js "three."].
Proof.
  apply script_card_round_trip.
  - split; [discriminate|split; reflexivity].
  - reflexivity.
  - repeat (apply Forall_cons; [split; [discriminate|split; reflexivity]|]).
    apply Forall_nil.
Defined.

Lemma split_char_one : forall l,
  LF_free l = true -> split_char LF l = [l].
Proof.
  induction l as [|c l IH]; [reflexivity|]. unfold LF_free. cbn [forallb].
  intros H. apply andb_true_iff in H as [Hc Hl]. apply negb_true_iff in Hc.
  cbn [split_char]. now rewrite Hc, (IH Hl).
Qed.

Lemma split_char_sep tail : forall l,
  LF_free l = true -> split_char LF (l ++ LF :: tail) = l :: split_char LF tail.
Proof.
  induction l as [|c l IH].
  - intros _. cbn [app split_char]. now change (N.eqb LF LF) with true.
  - unfold LF_free. cbn [forallb]. intros H.
    apply andb_true_iff in H as [Hc Hl]. apply negb_true_iff in Hc.
    cbn [app split_char]. now rewrite Hc, (IH Hl).
Qed.

Lemma split_join_lines : forall ls,
  ls <> [] -> Forall (fun l => LF_free l = true) ls ->
  split_char LF (join_lines ls) = ls.
Proof.
  induction ls as [|l ls IH]; [congruence|]. intros _ H.
  apply Forall_cons_iff in H as [Hl Hls]. destruct ls as [|m ls].
  - now apply split_char_one.
  - change (join_lines (l :: m :: ls)) with (l ++ LF :: join_lines (m :: ls)).
    rewrite (split_char_sep _ l Hl). now rewrite IH.
Qed.

Lemma is_bullet_solid c : Insight.is_bullet c = true -> isWhiteSpace c = false.
Proof.
  unfold Insight.is_bullet. intros H.
  apply orb_true_iff in H as [H|H]; [apply orb_true_iff in H as [H|H]|];
    apply N.eqb_eq in H; subst c; reflexivity.
Qed.

Lemma bullet_line_point b :
  bullet b -> Insight.bullet_point (bullet_line b) = [snd b].
Proof.
  destruct b as [c point]. intros (Hc & Hn & Ht & Hf). cbn [fst snd] in *.
  unfold Insight.bullet_point, bullet_line. cbn [fst snd].
  pose proof (is_bullet_solid c Hc) as Hw.
  assert (E : trim (c :: 32%N :: point) = c :: 32%N :: point).
  { unfold trim. cbn [trimStart]. rewrite Hw.
    now apply (trimEnd_app_fixed [c; 32%N] point). }
  rewrite E, Hc. cbn [trimStart]. change (isWhiteSpace 32) with true.
  cbv iota. destruct (trimmed_fixed point Ht) as [Hs _].
  rewrite Hs, Ht. now destruct point; [congruence|].
Qed.

Lemma bullet_lines_points bs :
  Forall bullet bs ->
  flat_map Insight.bullet_point (List.map bullet_line bs) = List.map snd bs.
Proof.
  induction 1 as [|b bs Hb _ IH]; [reflexivity|].
  cbn [List.map flat_map]. now rewrite (bullet_line_point b Hb), IH.
Qed.

Lemma bullet_line_LF_free b : bullet b -> LF_free (bullet_line b) = true.
Proof.
  destruct b as [c point]. intros (Hc & _ & _ & Hf). cbn [fst snd] in *.
  unfold bullet_line, LF_free. cbn [fst snd forallb]. fold (LF_free point).
  rewrite Hf. apply is_bullet_solid in Hc.
  destruct (N.eqb_spec c LF); [subst c; discriminate|reflexivity].
Qed.

Lemma join_lines_solid bs :
  Forall bullet bs -> starts_solid (join_lines (List.map bullet_line bs)).
Proof.
  intros H. destruct H as [|b bs Hb _]; [exact I|].
  destruct Hb as [Hc _]. apply is_bullet_solid in Hc.
  cbn [List.map join_lines].
  destruct (List.map bullet_line bs); exact Hc.
Qed.

(** X22: a summary is read back as it was laid out: from the text of a topic
    line, a blank line and one line for each point, made of a bullet, a
    space and the point, each below its marker,
    [parseStreamingMainTopic] returns the topic and
    [parseStreamingBulletPoints] returns the points in their order,
    provided the topic does not itself contain the marker of the
    summary. *)
Theorem summary_card_round_trip :
  forall (topic : jsstring) (bullets : list (N * jsstring)),
    heading topic ->
    occurs Insight.marker_summary topic = false ->
    Forall bullet bullets ->
    parseStreamingMainTopic (summary_card topic bullets) = Some topic /\
    Insight.parseStreamingBulletPoints (summary_card topic bullets)
    = List.map snd bullets.
Proof.
  intros topic bs Hh Ho Hbs. split.
  - apply parse_line_card; [discriminate|exact Hh].
  - unfold Insight.parseStreamingBulletPoints, summary_card.
    rewrite GrowthFacts.find_summary_section, find_section_card;
      [|reflexivity|discriminate|reflexivity|exact Ho
       |now apply join_lines_solid].
    cbn [card marker_topic app truthy negb].
    destruct bs as [|b bs]; [reflexivity|].
    rewrite split_join_lines.
    + now apply bullet_lines_points.
    + discriminate.
    + clear -Hbs. induction Hbs as [|x l Hx _ IH]; [constructor|].
      cbn [List.map]. constructor; [now apply bullet_line_LF_free|exact IH].
Qed.

Lemma summary_card_round_trip_witness :
  parseStreamingMainTopic
    (summary_card (js "Topic") [(8226%N, js "one"); (45%N, js "two")])
  = Some (js "Topic") /\
  Insight.parseStreamingBulletPoints
    (summary_card (js "Topic") [(8226%N, js "one"); (45%N, js "two")])
  = [js "one"; js "two"].
Proof.
  apply (summary_card_round_trip (js "Topic")
           [(8226%N, js "one"); (45%N, js "two")]).
  - split; [discriminate|split; reflexivity].
  - reflexivity.
  - repeat (apply Forall_cons;
            [split; [reflexivity|split; [discriminate|split; reflexivity]]|]).
    apply Forall_nil.
Defined.

End LayoutFacts.

Module FormFacts.
Import Forms Texts Page JSFacts TrimFacts.

(** X23: both forms hand [handleSubmit] of the page only a URL that is not
    empty and has no white space at its ends, and nothing while they are
    told the page is loading; the submit button of the welcome form is
    disabled exactly when its handler would hand over nothing, and so is
    the button of the header when [onSubmit] is given; while the page is
    crawling or processing the header hands over nothing. *)
Theorem forms_hand_over_clean_urls :
  forall (url : jsstring) (isLoading hasOnSubmit : bool)
         (validationState : ValidationState) (p : PageState),
    (forall u,
        header_handleSubmit url isLoading hasOnSubmit = Some u
        \/ welcome_handleSubmit url isLoading validationState = Some u ->
        u <> [] /\ trimmed u /\ isLoading = false) /\
    (welcome_handleSubmit url isLoading validationState = None
     <-> isSubmitDisabled url isLoading validationState = true) /\
    (header_handleSubmit url isLoading true = None
     <-> header_disabled url isLoading = true) /\
    (header_isLoading p = true ->
     header_handleSubmit url (header_isLoading p) hasOnSubmit = None).
Proof.
  intros url isLoading hasOnSubmit validationState p.
  unfold header_handleSubmit, welcome_handleSubmit, isSubmitDisabled,
    header_disabled.
  split; [|split; [|split]].
  - intros u [H|H];
      destruct (truthy (trim url)) eqn:Et, isLoading; cbn [andb negb] in H;
      try discriminate;
      [destruct hasOnSubmit|destruct (is_invalid validationState)];
      cbn in H; try discriminate; injection H as <-;
      (split; [now apply truthy_nonempty|split; [apply trim_idem|reflexivity]]).
  - destruct (truthy (trim url)), isLoading, (is_invalid validationState);
      cbn; split; congruence.
  - destruct (truthy (trim url)), isLoading; cbn; split; congruence.
  - intros ->. now rewrite andb_false_r.
Qed.

Lemma forms_hand_over_clean_urls_witness :
  welcome_handleSubmit (js " https://example.com/one ") false validation_valid
  = Some Examples.url_one
  /\ trimmed Examples.url_one.
Proof.
  split; [reflexivity|].
  destruct (forms_hand_over_clean_urls
              (js " https://example.com/one ") false true validation_valid
              initialPage) as [H _].
  apply (H Examples.url_one). right. reflexivity.
Defined.

End FormFacts.

Module StageFacts.
Import Page Stages Notions Examples.

Section Pipeline.
Variable new_URL : jsstring -> option Api.URL.
Variable tem : jsstring -> jsstring.
Variable ToString : jsvalue -> jsstring.
Variable API_BASE : jsstring.

Lemma checkAllDone_error r w :
  error (page (checkAllDone r w)) = error (page w).
Proof.
  destruct (PageFacts.checkAllDone_page r w) as [E|E]; now rewrite E.
Qed.

Lemma consume_error (k : Track) i w :
  not_script (error (page w)) ->
  not_script
    (error (page (fst (Callbacks.consume tem (variant k)
                         (callbacksOf tem ToString k) (aborted k) i w)))).
Proof.
  intros H. unfold Callbacks.consume, Callbacks.catch_block, callbacksOf.
  destruct i as [e|t|]; [| |exact H].
  - destruct (aborted k); [exact H|].
    unfold Callbacks.dispatch.
    destruct (variant k), (Stream.type e);
      cbn -[get_prop checkAllDone];
      try exact H;
      unfold summaryOnDone, summaryOnError, scriptOnDone, scriptOnError;
      repeat match goal with
             | |- context [get_prop ?a ?b] => destruct (get_prop a b)
             end;
      cbn -[checkAllDone];
      try exact H;
      rewrite ?checkAllDone_error; cbn; try exact H; discriminate.
  - destruct (variant k); cbn -[checkAllDone];
      unfold summaryOnError, scriptOnError;
      rewrite checkAllDone_error; cbn; [discriminate|exact H].
Qed.

Lemma step_error w x :
  not_script (error (page w)) ->
  not_script (error (page (step new_URL tem ToString API_BASE w x))).
Proof.
  intros H. destruct x as [u|r crawled|r t|t i|c ttsResult|c t];
    cbn [step].
  - exact I.
  - destruct (nth_error (runs w) r) as [k|]; [|exact H].
    destruct (crawlPending k); [|exact H].
    unfold afterCrawl.
    match goal with
    | |- context [get_prop ?a ?b] => destruct (get_prop a b)
    end; [exact H|discriminate].
  - destruct (nth_error (runs w) r) as [k|]; [|exact H].
    destruct (crawlPending k); [|exact H]. discriminate.
  - destruct (nth_error (tracks w) t) as [k|] eqn:Hk; [|exact H].
    destruct (finished k); [exact H|].
    pose proof (consume_error k i w H) as Hc.
    destruct (Callbacks.consume _ _ _ _ _ _) as [w1 fin]. exact Hc.
  - destruct (nth_error (ttsCalls w) c) as [k|]; [|exact H].
    destruct (ttsPending k); [|exact H].
    unfold afterTts.
    match goal with
    | |- context [match get_prop ?a ?b with _ => _ end] =>
        destruct (get_prop a b)
    end; exact H.
  - destruct (nth_error (ttsCalls w) c) as [k|]; [|exact H].
    destruct (ttsPending k); exact H.
Qed.

Lemma nth_error_update_other {A} (f : A -> A) (l : list A) : forall i j,
  i <> j -> nth_error (update i f l) j = nth_error l j.
Proof.
  induction l as [|y l IH]; intros [|i] [|j] H; simpl; try reflexivity;
    try congruence.
  apply IH. congruence.
Qed.

Lemma update_aborted (f : Track -> Track) ts i :
  (forall k, aborted (f k) = aborted k) ->
  forall t k', nth_error (update i f ts) t = Some k' ->
  exists k, nth_error ts t = Some k /\ aborted k' = aborted k.
Proof.
  intros Hf t k' H. destruct (Nat.eq_dec i t) as [->|Hne].
  - destruct (nth_error ts t) as [k|] eqn:Hk.
    + rewrite (PipelineFacts.nth_error_update f ts t k Hk) in H.
      injection H as <-. exists k. now split.
    + exfalso. revert t H Hk. clear. induction ts as [|y ts IH];
        intros [|t] H Hk; simpl in *; try discriminate.
      now apply (IH t).
  - rewrite nth_error_update_other in H by exact Hne. exists k'. now split.
Qed.

Lemma nth_error_update_none {A} (f : A -> A) (l : list A) : forall i,
  nth_error l i = None -> nth_error (update i f l) i = None.
Proof.
  induction l as [|y l IH]; intros [|i] H; simpl in *; try reflexivity;
    try discriminate.
  now apply IH.
Qed.

Lemma abortRef_aborted ref ts t k' :
  nth_error (abortRef ref ts) t = Some k' ->
  (ref = Some t -> aborted k' = true) /\
  exists k, nth_error ts t = Some k /\ (aborted k = true -> aborted k' = true).
Proof.
  unfold abortRef. destruct ref as [i|].
  - intros H. destruct (Nat.eq_dec i t) as [->|Hne].
    + destruct (nth_error ts t) as [k|] eqn:Hk.
      * rewrite (PipelineFacts.nth_error_update _ ts t k Hk) in H.
        injection H as <-. split; [reflexivity|]. exists k. now split.
      * rewrite nth_error_update_none in H by exact Hk. discriminate.
    + rewrite nth_error_update_other in H by exact Hne.
      split; [congruence|]. exists k'. now split.
  - intros H. split; [discriminate|]. exists k'. now split.
Qed.

Lemma submit_silences w u : silenced w (tracks (submit u w)).
Proof.
  intros t k Hheld Hk. cbn [submit tracks] in Hk.
  apply abortRef_aborted in Hk as [Hs (k1 & Hk1 & Hkeep)].
  destruct Hheld as [Ha|Hs']; [|now apply Hs].
  apply Hkeep. apply abortRef_aborted in Hk1 as [Ha' _]. now apply Ha'.
Qed.

Lemma silenced_step w0 w t e :
  held w0 t -> silenced w0 (tracks w) ->
  page (step new_URL tem ToString API_BASE w
          (TrackDelivers t (Callbacks.Yields e))) = page w /\
  silenced w0 (tracks (step new_URL tem ToString API_BASE w
                         (TrackDelivers t (Callbacks.Yields e)))).
Proof.
  intros Ht Hw. cbn [step].
  destruct (nth_error (tracks w) t) as [k|] eqn:Hk; [|now split].
  destruct (finished k); [now split|].
  unfold Callbacks.consume. rewrite (Hw t k Ht Hk).
  split; [reflexivity|].
  intros t' k' Ht' Hk'. cbn [withTracks tracks] in Hk'.
  apply update_aborted in Hk'; [|reflexivity].
  destruct Hk' as (k0 & Hk0 & ->). now apply (Hw t' k0).
Qed.

Lemma silenced_events w0 es : forall w,
  Forall (fun te => held w0 (fst te)) es ->
  silenced w0 (tracks w) ->
  page (run_inputs new_URL tem ToString API_BASE w
          (List.map event_input es))
  = page w.
Proof.
  induction es as [|[t e] es IH]; intros w Hes Hw; [reflexivity|].
  inversion Hes as [|? ? Ht Hes']; subst. cbn [fst] in Ht.
  destruct (silenced_step w0 w t e Ht Hw) as [Hp Hs].
  change (run_inputs new_URL tem ToString API_BASE w
            (List.map event_input ((t, e) :: es)))
    with (run_inputs new_URL tem ToString API_BASE
            (step new_URL tem ToString API_BASE w
                  (TrackDelivers t (Callbacks.Yields e)))
            (List.map event_input es)).
  now rewrite IH.
Qed.

End Pipeline.

(** X24: the [error] cell of the page never names the stage [script]: a crawl
    failure is reported with the stage [crawl], a failure of the summary
    track with [summarize], and a failure of the script track or of the
    synthesis goes to [audioError] and leaves [error] as it is.  So
    [ContentPanel], which looks at these two stages only, hands the message
    of every error in the cell to exactly one of its panels. *)
Theorem stored_error_reaches_a_panel :
  forall new_URL tem ToString API_BASE (w : World) (u : jsstring)
         (xs : list Input),
    let e := error (page (run_inputs new_URL tem ToString API_BASE w
                            (Submit u :: xs))) in
    not_script e /\
    match e with
    | None =>
        panel_error stage_crawl e = None /\
        panel_error stage_summarize e = None
    | Some i =>
        (stage i = stage_crawl /\ panel_error stage_crawl e = message i) \/
        (stage i = stage_summarize /\
         panel_error stage_summarize e = message i)
    end.
Proof.
  intros new_URL tem ToString API_BASE w u xs e.
  assert (He : not_script e).
  { subst e. unfold run_inputs. cbn [fold_left].
    assert (H : not_script
                  (error (page (step new_URL tem ToString API_BASE w
                                     (Submit u))))) by exact I.
    revert H.
    generalize (step new_URL tem ToString API_BASE w (Submit u)).
    induction xs as [|x xs IH]; intros w0 H; cbn [fold_left]; [exact H|].
    apply IH. now apply step_error. }
  split; [exact He|].
  destruct e as [[st m]|]; [|now split].
  cbn in He |- *. destruct st; [now left|now right|congruence].
Qed.

(** X25: what the cancellation in [handleSubmit] does achieve: the events that
    the generators of the two tracks held by the refs still yield after a
    new submission change nothing; the page stays as the submission has
    reset it. *)
Theorem resubmission_silences_held_tracks :
  forall new_URL tem ToString API_BASE (w : World) (u : jsstring)
         (es : list (nat * Stream.StreamEvent)),
    Forall (fun te => held w (fst te)) es ->
    page (run_inputs new_URL tem ToString API_BASE w
            (Submit u :: List.map event_input es))
    = resetPage.
Proof.
  intros new_URL tem ToString API_BASE w u es Hes.
  change (run_inputs new_URL tem ToString API_BASE w
            (Submit u :: List.map event_input es))
    with (run_inputs new_URL tem ToString API_BASE (submit u w)
            (List.map event_input es)).
  rewrite (silenced_events new_URL tem ToString API_BASE w es);
    [reflexivity|exact Hes|apply submit_silences].
Qed.

Lemma resubmission_silences_held_tracks_witness :
  Forall (fun te => held world_generating (fst te))
    [(0%nat, Stream.mkEvent Stream.content (JStr (js "late")));
     (1%nat, Stream.mkEvent Stream.done script_one)] /\
  page (run_inputs example_new_URL v8_TypeError_message example_ToString
          example_API_BASE world_generating
          (Submit url_two
           :: List.map event_input
                [(0%nat, Stream.mkEvent Stream.content (JStr (js "late")));
                 (1%nat, Stream.mkEvent Stream.done script_one)]))
  = resetPage.
Proof.
  assert (H : Forall (fun te => held world_generating (fst te))
                [(0%nat, Stream.mkEvent Stream.content (JStr (js "late")));
                 (1%nat, Stream.mkEvent Stream.done script_one)]).
  { apply Forall_cons; [left; reflexivity|].
    apply Forall_cons; [right; reflexivity|apply Forall_nil]. }
  split; [exact H|].
  exact (resubmission_silences_held_tracks
           example_new_URL v8_TypeError_message example_ToString
           example_API_BASE world_generating url_two _ H).
Defined.

End StageFacts.

(** ** The article identifier and the keys of a run *)

Module ArticleIdFacts.
Import Api Page Runs JSFacts Examples.

(** C10, as amended: [extractArticleId] is a total function of the URL and
    the platform, whatever [new URL] does with the URL, and of nothing else
    but the path and the [id] parameter of the parsed URL.  Its result is
    never empty: for geeknews with a non-empty [id] parameter it is [topic_]
    with that parameter; for medium it is the last non-empty segment of the
    path without its trailing hash, cut to 50 code units, when that is not
    empty; and in every other case, a URL that cannot be parsed included, it
    is [article_] with the absolute value of the hash of the URL modulo
    100000000.  Both tracks of a run are requested with this identifier.
    The synthesis call is made for the result of the script track, and the
    audio address is built from the [article_id] and [user_id] of that
    result, not from this identifier. *)
Theorem extractArticleId_total_deterministic :
  forall (new_URL : jsstring -> option URL) (url platform : jsstring),
    let id := extractArticleId new_URL url platform in
    id <> [] /\
    (forall parsed topicId,
        new_URL url = Some parsed ->
        platform = js "geeknews" ->
        searchParams_get parsed (js "id") = Some topicId ->
        topicId <> [] ->
        id = js "topic_" ++ topicId) /\
    (forall parsed,
        new_URL url = Some parsed ->
        platform = js "medium" ->
        let slugClean :=
          strip_hash_suffix
            (last (filter truthy (split_char 47 (pathname parsed))) []) in
        slugClean <> [] ->
        id = slice_to 50 slugClean /\ (List.length id <= 50)%nat) /\
    (id = fallback_id url \/
     (platform = js "geeknews" /\
      exists parsed topicId,
        new_URL url = Some parsed /\
        searchParams_get parsed (js "id") = Some topicId /\
        topicId <> [] /\ id = js "topic_" ++ topicId) \/
     (platform = js "medium" /\
      exists parsed slug,
        new_URL url = Some parsed /\
        slug = last (filter truthy (split_char 47 (pathname parsed))) [] /\
        strip_hash_suffix slug <> [] /\
        id = slice_to 50 (strip_hash_suffix slug))) /\
    (exists n,
        fallback_id url = js "article_" ++ number_to_string n /\
        n = (Z.abs (hashCode url) mod 100000000)%Z /\
        (0 <= n < 100000000)%Z) /\
    (new_URL url = None -> id = fallback_id url) /\
    (forall new_URL' : jsstring -> option URL,
        match new_URL url, new_URL' url with
        | Some parsed, Some parsed' =>
            pathname parsed = pathname parsed' /\
            searchParams_get parsed (js "id")
            = searchParams_get parsed' (js "id")
        | None, None => True
        | _, _ => False
        end ->
        extractArticleId new_URL' url platform = id) /\
    (forall tem ToString API_BASE (w : World) (crawled : json),
        readable (Some crawled) (js "title") = true ->
        member crawled (js "platform") = Some (JStr platform) ->
        let w1 :=
          run_inputs new_URL tem ToString API_BASE w
            [Submit url; CrawlResolves (List.length (runs w)) crawled] in
        List.map Page.article_id (skipn (List.length (tracks w)) (tracks w1))
        = [id; id] /\
        forall script tts : json,
          readable (member script (js "script")) (js "title") = true ->
          readable (Some tts) (js "duration_seconds") = true ->
          let w2 :=
            run_inputs new_URL tem ToString API_BASE w1
              [script_arrives (List.length (tracks w)) script;
               audio_arrives (List.length (ttsCalls w)) tts] in
          List.map ttsScript (skipn (List.length (ttsCalls w)) (ttsCalls w2))
          = [script] /\
          audioUrl (page w2)
          = Some (getAudioUrl ToString API_BASE
                    (member script (js "article_id"))
                    (member script (js "user_id")))).
Proof.
  intros new_URL url platform id.
  assert (Hgeek : forall parsed topicId,
             new_URL url = Some parsed ->
             platform = js "geeknews" ->
             searchParams_get parsed (js "id") = Some topicId ->
             topicId <> [] ->
             id = js "topic_" ++ topicId).
  { intros parsed topicId Hu -> Hi Hn. subst id. unfold extractArticleId.
    rewrite Hu. cbn [str_eqb]. change (str_eqb (js "geeknews") (js "geeknews"))
      with true. cbv iota. rewrite Hi.
    destruct topicId; [congruence|reflexivity]. }
  assert (Hmed : forall parsed,
             new_URL url = Some parsed ->
             platform = js "medium" ->
             let slugClean :=
               strip_hash_suffix
                 (last (filter truthy (split_char 47 (pathname parsed))) []) in
             slugClean <> [] ->
             id = slice_to 50 slugClean /\ (List.length id <= 50)%nat).
  { intros parsed Hu -> slugClean Hn.
    assert (E : id = slice_to 50 slugClean).
    { subst id slugClean. unfold extractArticleId. rewrite Hu.
      change (str_eqb (js "medium") (js "geeknews")) with false.
      change (str_eqb (js "medium") (js "medium")) with true. cbv iota zeta.
      destruct (filter truthy (split_char 47 (pathname parsed)))
        as [|part parts] eqn:Ep; [simpl in Hn; congruence|].
      change (0 <? List.length (part :: parts))%nat with true. cbv iota.
      destruct (strip_hash_suffix (last (part :: parts) []));
        [congruence|reflexivity]. }
    split; [exact E|].
    rewrite E. unfold slice_to. rewrite length_firstn. lia. }
  assert (Hcases :
    id = fallback_id url \/
     (platform = js "geeknews" /\
      exists parsed topicId,
        new_URL url = Some parsed /\
        searchParams_get parsed (js "id") = Some topicId /\
        topicId <> [] /\ id = js "topic_" ++ topicId) \/
     (platform = js "medium" /\
      exists parsed slug,
        new_URL url = Some parsed /\
        slug = last (filter truthy (split_char 47 (pathname parsed))) [] /\
        strip_hash_suffix slug <> [] /\
        id = slice_to 50 (strip_hash_suffix slug))).
  { subst id. unfold extractArticleId.
    destruct (new_URL url) as [parsed|] eqn:Hurl; [|now left].
    destruct (str_eqb platform (js "geeknews")) eqn:Hg.
    - apply str_eqb_eq in Hg.
      destruct (searchParams_get parsed (js "id")) as [topicId|] eqn:Hid;
        [|now left].
      destruct (truthy topicId) eqn:Ht; [|now left].
      right; left. split; [exact Hg|].
      exists parsed, topicId. repeat split; auto.
      now apply truthy_nonempty.
    - destruct (str_eqb platform (js "medium")) eqn:Hm; [|now left].
      apply str_eqb_eq in Hm.
      set (pathParts := filter truthy (split_char 47 (pathname parsed))).
      destruct (0 <? List.length pathParts)%nat eqn:Hlen; [|now left].
      destruct (truthy (strip_hash_suffix (last pathParts []))) eqn:Hs;
        [|now left].
      right; right. split; [exact Hm|].
      exists parsed, (last pathParts []). repeat split; auto.
      now apply truthy_nonempty. }
  split; [|split; [exact Hgeek|split; [exact Hmed|split; [exact Hcases|
          split; [|split; [|split]]]]]].
  - destruct Hcases
      as [H|[[_ (p & t & _ & _ & _ & H)]|[_ (p & s & _ & _ & Hne & H)]]];
      rewrite H.
    + apply ApiFacts.fallback_id_nonempty.
    + simpl. congruence.
    + apply ApiFacts.firstn_nonempty; [lia|exact Hne].
  - exists (Z.abs (hashCode url) mod 100000000)%Z.
    split; [reflexivity|split; [reflexivity|]].
    apply Z.mod_pos_bound. lia.
  - intros Hnone. subst id. unfold extractArticleId. now rewrite Hnone.
  - intros new_URL' H. subst id. unfold extractArticleId.
    destruct (new_URL url) as [parsed|], (new_URL' url) as [parsed'|];
      try contradiction; [|reflexivity].
    destruct H as [Hp Hi]. now rewrite Hp, Hi.
  - intros tem ToString API_BASE w crawled Hc Hp w1.
    destruct (RunFacts.crawl_step new_URL tem ToString API_BASE w url crawled Hc)
      as (T & HT & Hw).
    subst w1. rewrite Hw. rewrite Hp. rewrite <- HT. split.
    + unfold started. cbn [tracks].
      rewrite RunFacts.skipn_length_app. reflexivity.
    + intros script tts Hs Ht w2. subst w2.
      unfold run_inputs. cbn [fold_left].
      rewrite RunFacts.script_step by exact Hs.
      rewrite RunFacts.audio_step by exact Ht.
      unfold started. cbn [ttsCalls page].
      rewrite RunFacts.skipn_length_app. split; reflexivity.
Qed.

Lemma extractArticleId_total_deterministic_witness :
  no_URL (js "not a url") = None /\
  extractArticleId no_URL (js "not a url") (js "medium")
  = fallback_id (js "not a url") /\
  extractArticleId platform_new_URL url_geeknews (js "geeknews")
  = js "topic_123" /\
  extractArticleId platform_new_URL url_medium (js "medium")
  = js "my-post" /\
  readable (Some crawled_one) (js "title") = true /\
  member crawled_one (js "platform") = Some (JStr (js "generic")) /\
  List.map Page.article_id (tracks world_generating)
  = [extractArticleId example_new_URL url_one (js "generic");
     extractArticleId example_new_URL url_one (js "generic")].
Proof.
  split; [reflexivity|].
  split; [|split; [|split; [|split; [reflexivity|split; [reflexivity|]]]]].
  - destruct (extractArticleId_total_deterministic
                no_URL (js "not a url") (js "medium"))
      as (_ & _ & _ & _ & _ & H & _).
    apply H. reflexivity.
  - destruct (extractArticleId_total_deterministic
                platform_new_URL url_geeknews (js "geeknews"))
      as (_ & H & _).
    apply (H (mkURL (js "/topic")
                (fun k => if str_eqb k (js "id") then Some (js "123")
                          else None))
             (js "123")); try reflexivity.
    discriminate.
  - destruct (extractArticleId_total_deterministic
                platform_new_URL url_medium (js "medium"))
      as (_ & _ & H & _).
    destruct (H (mkURL (js "/@ann/my-post-0123456789ab") (fun _ => None))
                eq_refl eq_refl) as [E _]; [discriminate|].
    exact E.
  - destruct (extractArticleId_total_deterministic
                example_new_URL url_one (js "generic"))
      as (_ & _ & _ & _ & _ & _ & _ & H).
    destruct (H Notions.v8_TypeError_message example_ToString
                example_API_BASE initialWorld crawled_one eq_refl eq_refl)
      as [H1 _].
    exact H1.
Defined.

(** C10, counterexample: the two tracks of the run are requested with the
    identifier [extractArticleId] gives for the submitted URL, but the
    synthesis call is made for the script result and the audio address is
    built from the [article_id] found there, which is another key. *)
Lemma synthesis_key_from_script_result :
  extractArticleId example_new_URL url_one (js "generic")
  = js "article_49823835" /\
  List.map Page.article_id (tracks world_ready)
  = [js "article_49823835"; js "article_49823835"] /\
  List.map (fun c => member (ttsScript c) (js "article_id"))
           (ttsCalls world_ready)
  = [Some (JStr (js "article_1"))] /\
  audioUrl (page world_ready)
  = Some (js "http://localhost:8000/api/v1/audio/article_1.mp3?user_id=default") /\
  status (page world_ready) = status_done /\
  audioStatus (page world_ready) = audio_ready.
Proof. vm_compute. repeat split. Qed.

End ArticleIdFacts.
